(** * BrainPy: delay buffers, the shared context, the numba source rewriter
      and the object-oriented JIT wrapper

    A shallow embedding of
      - [brainpy/_src/dyn/context.py]   (classes [Delay] and [_ShareContext]),
      - [brainpy/math/numpy/ast2numba.py] (the attribute analyzer and the
        call-site rewriter [FuncTransformer]),
      - [brainpy/math/object_transform/jit.py] (class [ObjectJIT]),
    followed by the properties established about them. *)

From Stdlib Require Import ZArith Ascii FunctionalExtensionality.
From stdpp Require Import base gmap strings list fin_maps functions sorting.

Local Open Scope Z_scope.
Set Warnings "-register-all,-clear-no-such-hyp".

(** ** Exceptions and results *)

(** The Python exception classes raised by the embedded code. *)
Inductive exn :=
| KeyError | ValueError | IndexError | TypeError | AttributeError
| AssertionError | BrainPyError | CodeError | UnsupportedError
| RecursionError | SyntaxError | MathError.

Global Instance exn_eq_dec : EqDecision exn.
Proof. solve_decision. Defined.

(** A call either returns a value or raises. *)
Inductive result (A : Type) : Type :=
| Ok (a : A)
| Raise (e : exn).
Arguments Ok {A} a.
Arguments Raise {A} e.

Global Instance result_ret : MRet result := λ A a, Ok a.
Global Instance result_bind : MBind result := λ A B f m,
  match m with Ok a => f a | Raise e => Raise e end.
Global Instance result_fmap : FMap result := λ A B f m,
  match m with Ok a => Ok (f a) | Raise e => Raise e end.

Definition is_Ok {A} (r : result A) : bool :=
  match r with Ok _ => true | Raise _ => false end.

(** A method that changes its object in place leaves the changes made
    before a raise: such methods return the object next to the outcome.
    [returned] is what a caller gets who holds no other reference to the
    object: the object when the call returned, the exception otherwise. *)
Definition returned {S} (o : S * option exn) : result S :=
  match o with
  | (s, None) => Ok s
  | (_, Some e) => Raise e
  end.

(** ** Python objects stored in the shared context *)

(** Delay objects are shared by reference: the context stores handles. *)
Definition handle := nat.

Inductive pyobj :=
| PNone
| PInt (z : Z)
| PFloat (bits : Z)        (* a float, never computed on here *)
| PStr (s : string)
| PDelay (h : handle).     (* isinstance(_, Delay) *)

Global Instance pyobj_eq_dec : EqDecision pyobj.
Proof. solve_decision. Defined.

Definition pyobj_enc (o : pyobj) : unit + (Z + (Z + (string + handle))) :=
  match o with
  | PNone => inl ()
  | PInt z => inr (inl z)
  | PFloat b => inr (inr (inl b))
  | PStr s => inr (inr (inr (inl s)))
  | PDelay h => inr (inr (inr (inr h)))
  end.

Definition pyobj_dec (c : unit + (Z + (Z + (string + handle)))) : pyobj :=
  match c with
  | inl _ => PNone
  | inr (inl z) => PInt z
  | inr (inr (inl b)) => PFloat b
  | inr (inr (inr (inl s))) => PStr s
  | inr (inr (inr (inr h))) => PDelay h
  end.

Global Instance pyobj_countable : Countable pyobj.
Proof. refine (inj_countable' pyobj_enc pyobj_dec _). by intros []. Defined.

(** ** [class _ShareContext] *)

Module _ShareContext.

(** [self._arguments] is a [DotDict], [self._delays] a dict of [Delay]
    objects; both are keyed by whatever object the caller passes. *)
Record t := mk {
  _arguments : gmap pyobj pyobj;
  _delays : gmap pyobj handle;
}.

(** [_ShareContext()] *)
Definition __init__ : t := mk ∅ ∅.

Section with_environment.
(** [brainpy._src.math.environment.get_dt()], the global default step. *)
Variable get_dt : pyobj.

(** The property [dt]. *)
Definition dt (self : t) : pyobj :=
  match _arguments self !! PStr "dt" with
  | Some v => v
  | None => get_dt
  end.

Definition set_dt (self : t) (dt : pyobj) : t :=
  mk (<[PStr "dt" := dt]> (_arguments self)) (_delays self).

(** [load(key, value=None)]; [value = PNone] is the omitted default. *)
Definition load (self : t) (key : pyobj) (value : pyobj) : result pyobj :=
  if decide (key = PStr "dt") then Ok (dt self)
  else match _arguments self !! key with
       | Some v => Ok v
       | None =>
         match _delays self !! key with
         | Some h => Ok (PDelay h)
         | None =>
           if decide (value = PNone) then Raise KeyError else Ok value
         end
       end.
End with_environment.

(** The body shared by the two loops of [save]: route one
    identifier/data pair. *)
Definition save_item (self : t) (identifier data : pyobj) : result t :=
  match data with
  | PDelay h =>
    if decide (is_Some (_delays self !! identifier)) then Raise ValueError
    else Ok (mk (_arguments self) (<[identifier := h]> (_delays self)))
  | _ => Ok (mk (<[identifier := data]> (_arguments self)) (_delays self))
  end.

(** [args[j]] on a tuple. *)
Definition getitem (args : list pyobj) (j : nat) : result pyobj :=
  match args !! j with
  | Some v => Ok v
  | None => Raise IndexError
  end.

(** [range(0, n, 2)] *)
Fixpoint range2 (start : nat) (count : nat) : list nat :=
  match count with
  | O => []
  | S c => start :: range2 (S (S start)) c
  end.
Definition range_0_n_2 (n : nat) : list nat := range2 0 (Nat.div2 (S n)).

(** The first loop of [save]. The context is mutated in place, so what
    was stored before a raise stays stored: the state is returned next
    to the outcome. *)
Fixpoint save_positional (self : t) (args : list pyobj) (rng : list nat)
  : t * option exn :=
  match rng with
  | [] => (self, None)
  | i :: rng' =>
    match getitem args (i * 2)%nat with
    | Raise e => (self, Some e)
    | Ok identifier =>
      match getitem args (i * 2 + 1)%nat with
      | Raise e => (self, Some e)
      | Ok data =>
        match save_item self identifier data with
        | Raise e => (self, Some e)
        | Ok self' => save_positional self' args rng'
        end
      end
    end
  end.

(** The second loop of [save], over [kwargs.items()]. *)
Fixpoint save_keywords (self : t) (kwargs : list (string * pyobj))
  : t * option exn :=
  match kwargs with
  | [] => (self, None)
  | (identifier, data) :: kwargs' =>
    match save_item self (PStr identifier) data with
    | Raise e => (self, Some e)
    | Ok self' => save_keywords self' kwargs'
    end
  end.

(** [save]: [args] is the tuple of positional arguments, [kwargs] the
    keyword arguments in the order they were written. *)
Definition save (self : t) (args : list pyobj) (kwargs : list (string * pyobj))
  : t * option exn :=
  if negb (Nat.even (List.length args)) then (self, Some AssertionError)
  else
    match save_positional self args (range_0_n_2 (List.length args)) with
    | (self', Some e) => (self', Some e)
    | (self', None) => save_keywords self' kwargs
    end.

Definition get_shargs (self : t) : gmap pyobj pyobj := _arguments self.

(** [dict.pop(d)] raises [KeyError] on a missing key. *)
Fixpoint pop_all {V} (m : gmap pyobj V) (ks : list pyobj)
  : gmap pyobj V * option exn :=
  match ks with
  | [] => (m, None)
  | k :: ks' =>
    match m !! k with
    | None => (m, Some KeyError)
    | Some _ => pop_all (delete k m) ks'
    end
  end.

Definition clear_delays (self : t) (delays : list pyobj) : t * option exn :=
  match delays with
  | [] => (mk (_arguments self) ∅, None)
  | _ => let '(m, e) := pop_all (_delays self) delays in (mk (_arguments self) m, e)
  end.

Definition clear_shargs (self : t) (args : list pyobj) : t * option exn :=
  match args with
  | [] => (mk ∅ (_delays self), None)
  | _ => let '(m, e) := pop_all (_arguments self) args in (mk m (_delays self), e)
  end.

Definition clear (self : t) : t := mk ∅ ∅.

End _ShareContext.

(** ** [class Delay] *)

(** Arrays. The delay target is a one-dimensional integer array, so a row
    of the buffer is a [list Z] and the buffer a list of rows; a read
    yields a vector or, for an array of lags without a second index, a
    matrix. Every array written into the buffer has the target's shape. *)
Inductive array :=
| vec (r : list Z)
| mat (rs : list (list Z)).

Global Instance array_eq_dec : EqDecision array.
Proof. solve_decision. Defined.

(** Reading position [k] of an axis of size [n] with the array backend's
    gather rule: a negative index counts from the end, and an index out of
    bounds is clamped into the axis. An empty axis has nothing to read. *)
Definition jax_index (n : nat) (k : Z) : option nat :=
  match n with
  | O => None
  | S _ =>
    let k' := if decide (k < 0) then k + Z.of_nat n else k in
    Some (Z.to_nat (Z.max 0 (Z.min (Z.of_nat n - 1) k')))
  end.

Definition gather {A} (l : list A) (k : Z) : result A :=
  match jax_index (List.length l) k with
  | Some j => match l !! j with Some x => Ok x | None => Raise IndexError end
  | None => Raise IndexError
  end.

(** [mapM] over a list, stopping at the first raise. *)
Definition traverse {A B} (f : A → result B) : list A → result (list B) :=
  fix go l :=
    match l with
    | [] => Ok []
    | x :: l' => y ← f x; ys ← go l'; Ok (y :: ys)
    end.

(** A [for] loop whose body may raise, threading a state. *)
Definition for_each {A S} (body : A → S → result S)
  : list A → S → result S :=
  fix go l s :=
    match l with
    | [] => Ok s
    | x :: l' => s' ← body x s; go l' s'
    end.

Module Delay.

(** The constants of [brainpy._src.math.delayvars]; [OTHER_UPDATE] is any
    other value the attribute [method] may be set to. *)
Inductive update_method := ROTATE_UPDATE | CONCAT_UPDATE | OTHER_UPDATE.

(** [bm.Variable]: the live state the buffer follows. *)
Record bmVariable := mk_var {
  value : list Z;
  batch_axis : option Z;
}.

Definition shape0 (v : bmVariable) : nat := List.length (value v).

Definition batch_size (v : bmVariable) : option Z :=
  match batch_axis v with
  | None => None
  | Some _ => Some (Z.of_nat (shape0 v))
  end.

(** [before_t0]: a Python number, an array (one row, or one row per
    lag), or a callable taking the shape [(length, width)]. *)
Inductive before_t0_t :=
| B_number (x : Z)
| B_array1 (r : list Z)
| B_array2 (rs : list (list Z))
| B_callable (f : Z → nat → list (list Z)).

(** A registered lag: one step count, or one step count per row. *)
Inductive delay_step_t :=
| homo (k : Z)
| heter (ks : list Z).

Record t := mk {
  target : bmVariable;
  length : Z;
  _before_t0 : option before_t0_t;
  method : update_method;
  data : option (list (list Z));
  _access_to_step : gmap string (option delay_step_t);
}.

Definition set_data (self : t) (d : option (list (list Z))) : t :=
  mk (target self) (length self) (_before_t0 self) (method self) d
     (_access_to_step self).
Definition set_length (self : t) (n : Z) : t :=
  mk (target self) n (_before_t0 self) (method self) (data self)
     (_access_to_step self).
Definition set_entry (self : t) (entry : string) (s : option delay_step_t) : t :=
  mk (target self) (length self) (_before_t0 self) (method self) (data self)
     (<[entry := s]> (_access_to_step self)).
(** The target is a live variable: its owner assigns to it between steps. *)
Definition set_target_value (self : t) (v : list Z) : t :=
  mk (mk_var v (batch_axis (target self))) (length self) (_before_t0 self)
     (method self) (data self) (_access_to_step self).

Definition delay_target_shape (self : t) : nat := shape0 (target self).

(** The shape of an array of rows. *)
Definition shape_of (rows : list (list Z)) : list nat := map List.length rows.

(** [self.data = bm.Variable(...)]. Attribute assignment is [__setattr__]
    of the base class, whose source is not at hand: an attribute that
    holds a variable is not rebound, the new array is assigned to the
    value of the variable it holds, and a value of another shape is
    refused with [MathError]. An attribute that holds [None] is bound. *)
Definition assign_data (self : t) (new : list (list Z)) : result t :=
  match data self with
  | Some old =>
    if decide (shape_of old = shape_of new) then Ok (set_data self (Some new))
    else Raise MathError
  | None => Ok (set_data self (Some new))
  end.

(** An indexed write [a[...] = v] broadcasts [v] to the shape written:
    an axis of [v] fits when it has the size of the target's axis or
    size 1. *)
Definition broadcast_row (r : list Z) (width : nat) : result (list Z) :=
  if decide (List.length r = width) then Ok r
  else match r with
       | [x] => Ok (replicate width x)
       | _ => Raise ValueError
       end.

Definition broadcast_rows (rs : list (list Z)) (n width : nat)
  : result (list (list Z)) :=
  rows ← traverse (λ r, broadcast_row r width) rs;
  if decide (List.length rows = n) then Ok rows
  else match rows with
       | [r] => Ok (replicate n r)
       | _ => Raise ValueError
       end.

(** [_init_data(length, batch_size=None)]. The attribute is assigned
    before the rows are written, so a raise while seeding leaves the new
    storage in place. *)
Definition _init_data (self : t) (len : Z) (batch : option Z)
  : t * option exn :=
  if match batch with
     | Some b => bool_decide (batch_size (target self) ≠ Some b)
     | None => false
     end
  then (self, Some ValueError)
  else
    let width := delay_target_shape self in
    let zeros := replicate (Z.to_nat (len + 1)) (replicate width 0) in
    match assign_data self zeros with
    | Raise e => (self, Some e)
    | Ok self =>
      (* update delay data *)
      let data0 := <[0%nat := value (target self)]> zeros in
      let self := set_data self (Some data0) in
      match
        match _before_t0 self with
        | None => Ok (drop 1 data0)
        | Some (B_number x) => Ok (replicate (Z.to_nat len) (replicate width x))
        | Some (B_array1 r) =>
          r ← broadcast_row r width; Ok (replicate (Z.to_nat len) r)
        | Some (B_array2 rs) => broadcast_rows rs (Z.to_nat len) width
        | Some (B_callable f) =>
          broadcast_rows (f len width) (Z.to_nat len) width
        end
      with
      | Raise e => (self, Some e)
      | Ok rest => (set_data self (Some (take 1 data0 ++ rest)), None)
      end
    end.

(** The arguments [register_entry] accepts. A delay time is divided by
    [dt] and cast to an integer in floating point, outside this
    development: the argument carries the resulting step count(s). *)
Inductive ndarray := arr0 (k : Z) | arr1 (ks : list Z).
Inductive delay_time_arg :=
| T_callable (f : nat → ndarray)
| T_float (steps : Z)
| T_array (steps : ndarray).
Inductive delay_step_arg :=
| S_int (k : Z)
| S_array (a : ndarray)
| S_callable (f : nat → list Z)
| S_other.

(** [int(max(delay_step))]; [max] of an empty sequence raises. *)
Definition max_of (ks : list Z) : result Z :=
  match ks with
  | [] => Raise ValueError
  | k :: ks' => Ok (foldr Z.max k ks')
  end.

(** [register_entry(entry, delay_time=None, delay_step=None)]. Every
    check comes before the storage is touched; [_init_data] is the one
    call that can raise after a change, and then neither the length nor
    the entry is set. *)
Definition register_entry (self : t) (entry : string)
    (delay_time : option delay_time_arg) (delay_step : option delay_step_arg)
  : t * option exn :=
  if decide (is_Some (_access_to_step self !! entry)) then (self, Some KeyError)
  else
    match
      delay_step ←
        match delay_time with
        | Some tm =>
          match delay_step with
          | Some _ => Raise ValueError
          | None =>
            match tm with
            | T_callable f => Ok (Some (S_array (f (delay_target_shape self))))
            | T_float k => Ok (Some (S_int k))
            | T_array a => Ok (Some (S_array a))
            end
          end
        | None => Ok delay_step
        end;
      (* delay steps *)
      step ←
        match delay_step with
        | None => Ok None
        | Some (S_int k) => Ok (Some (homo k))
        | Some (S_array (arr0 k)) => Ok (Some (homo k))
        | Some (S_array (arr1 ks)) => Ok (Some (heter ks))
        | Some (S_callable f) => Ok (Some (heter (f (delay_target_shape self))))
        | Some S_other => Raise ValueError
        end;
      max_delay_step ←
        match step with
        | Some (heter ks) =>
          if decide (delay_target_shape self ≠ List.length ks)
          then Raise ValueError
          else m ← max_of ks; Ok (Some m)
        | Some (homo k) => Ok (Some k)
        | None => Ok None
        end;
      Ok (step, max_delay_step)
    with
    | Raise e => (self, Some e)
    | Ok (step, max_delay_step) =>
      (* delay variable *)
      match
        match max_delay_step with
        | Some m =>
          if decide (length self < m)
          then match _init_data self m None with
               | (s, None) => (set_length s m, None)
               | (s, Some e) => (s, Some e)
               end
          else (self, None)
        | None => (self, None)
        end
      with
      | (self, Some e) => (self, Some e)
      | (self, None) => (set_entry self entry step, None)
      end
    end.

(** Keyword [mode] of the base class, consulted when [method] is [None]. *)
Record mode_t := mk_mode {
  is_a_NonBatchingMode : bool;
  is_parent_of_TrainingMode : bool;
}.

Fixpoint register_entries (self : t)
    (entries : list (string * option delay_time_arg)) : t * option exn :=
  match entries with
  | [] => (self, None)
  | (entry, tm) :: rest =>
    match register_entry self entry tm None with
    | (self, Some e) => (self, Some e)
    | (self, None) => register_entries self rest
    end
  end.

(** [Delay(target, length=0, before_t0=None, entries=None, name=None,
    method=ROTATE_UPDATE)] *)
Definition __init__ (mode : mode_t) (target : bmVariable) (length : Z)
    (before_t0 : option before_t0_t)
    (entries : option (list (string * option delay_time_arg)))
    (method : option update_method) : result t :=
  let method :=
    match method with
    | Some m => m
    | None =>
      if is_a_NonBatchingMode mode then ROTATE_UPDATE
      else if is_parent_of_TrainingMode mode then CONCAT_UPDATE
      else ROTATE_UPDATE
    end in
  match method with
  | OTHER_UPDATE => Raise AssertionError
  | _ =>
    if decide (length < 0) then Raise ValueError  (* is_integer(min_bound=0) *)
    else
      let self := mk target length before_t0 method None ∅ in
      self ← (if decide (0 < length)
              then returned (_init_data self length None)
              else Ok self);
      match entries with
      | None => Raise AttributeError             (* None.items() *)
      | Some es => returned (register_entries self es)
      end
  end.

Section with_environment.
Variable get_dt : pyobj.
(** [check.is_checking()] *)
Variable is_checking : bool.

(** [share.load('i')] used as an integer. *)
Definition load_i (share : _ShareContext.t) : result Z :=
  i ← _ShareContext.load get_dt share (PStr "i") PNone;
  match i with
  | PInt z => Ok z
  | _ => Raise TypeError
  end.

Definition any_gt (s : delay_step_t) (n : Z) : bool :=
  match s with
  | homo k => bool_decide (n < k)
  | heter ks => existsb (λ k, bool_decide (n < k)) ks
  end.

(** [self.data[(delay_idx,) + indices]] *)
Definition index_data (rows : list (list Z)) (delay_idx : delay_step_t)
    (indices : option (list Z)) : result array :=
  match delay_idx, indices with
  | homo k, None => r ← gather rows k; Ok (vec r)
  | homo k, Some ps =>
    r ← gather rows k; xs ← traverse (gather r) ps; Ok (vec xs)
  | heter ks, None => rs ← traverse (gather rows) ks; Ok (mat rs)
  | heter ks, Some ps =>
    if decide (List.length ks = List.length ps) then
      xs ← traverse (λ kp, r ← gather rows kp.1; gather r kp.2) (zip ks ps);
      Ok (vec xs)
    else Raise IndexError
  end.

(** [retrieve(delay_step, *indices)] *)
Definition retrieve (share : _ShareContext.t) (self : t)
    (delay_step : option delay_step_t) (indices : option (list Z))
  : result array :=
  match delay_step with
  | None => Raise AssertionError
  | Some delay_step =>
    if is_checking && any_gt delay_step (length self) then Raise ValueError
    else
      delay_idx ←
        match method self with
        | ROTATE_UPDATE =>
          i ← load_i share;
          Ok (match delay_step with
              | homo k => homo ((i + k) `mod` (length self + 1))
              | heter ks =>
                heter (map (λ k, (i + k) `mod` (length self + 1)) ks)
              end)
        | CONCAT_UPDATE => Ok delay_step
        | OTHER_UPDATE => Raise ValueError
        end;
      (* the delay data *)
      match data self with
      | None => Raise TypeError
      | Some rows => index_data rows delay_idx indices
      end
  end.

(** [at(entry, *indices)] *)
Definition at_ (share : _ShareContext.t) (self : t) (entry : string)
    (indices : option (list Z)) : result array :=
  match _access_to_step self !! entry with
  | None => Raise KeyError
  | Some None => Ok (vec (value (target self)))
  | Some (Some delay_step) =>
    match data self with
    | None => Ok (vec (value (target self)))
    | Some _ =>
      match delay_step with
      | homo _ => retrieve share self (Some delay_step) indices
      | heter ks =>
        let indices :=
          match indices with
          | None =>
            if decide (List.length ks = delay_target_shape self)
            then Some (map Z.of_nat (seq 0 (List.length ks)))
            else None
          | Some ps => Some ps
          end in
        retrieve share self (Some delay_step) indices
      end
    end
  end.

(** [update(latest_value=None)] *)
Definition update (share : _ShareContext.t) (self : t)
    (latest_value : option (list Z)) : result t :=
  match data self with
  | None => Ok self
  | Some rows =>
    (* get the latest target value *)
    let latest_value := default (value (target self)) latest_value in
    match method self with
    | ROTATE_UPDATE =>
      i ← load_i share;
      let idx := (i - 1) `mod` (length self + 1) in
      Ok (set_data self (Some (<[Z.to_nat idx := latest_value]> rows)))
    | CONCAT_UPDATE =>
      if decide (2 ≤ length self)
      then Ok (set_data self (Some (latest_value :: drop 1 rows)))
      else Ok (set_data self (Some (<[0%nat := latest_value]> rows)))
    | OTHER_UPDATE => Ok self
    end
  end.
End with_environment.

(** [reset_state(batch_size=None)] *)
Definition reset_state (self : t) (batch : option Z) : t * option exn :=
  match data self with
  | None => (self, None)
  | Some _ => _init_data self (length self) batch
  end.

End Delay.

(** ** The singleton [share] and the objects it refers to *)

Module share.

(** The process-wide context together with the [Delay] objects its
    handles point to. *)
Record world := mk {
  ctx : _ShareContext.t;
  objects : gmap handle Delay.t;
}.

Section with_environment.
Variable get_dt : pyobj.

Fixpoint update_each (w : world) (hs : list handle) : world * option exn :=
  match hs with
  | [] => (w, None)
  | h :: hs' =>
    match objects w !! h with
    | None => update_each w hs'
    | Some d =>
      match Delay.update get_dt (ctx w) d None with
      | Raise e => (w, Some e)
      | Ok d' => update_each (mk (ctx w) (<[h := d']> (objects w))) hs'
      end
    end
  end.

(** [share.update()]: every registered delay is updated once. The
    enumeration order of the registry does not matter: updates of
    distinct objects are independent of one another. *)
Definition update (w : world) : world * option exn :=
  update_each w (map snd (map_to_list (_ShareContext._delays (ctx w)))).
End with_environment.

Fixpoint reset_each (w : world) (hs : list handle) (batch : option Z)
  : world * option exn :=
  match hs with
  | [] => (w, None)
  | h :: hs' =>
    match objects w !! h with
    | None => reset_each w hs' batch
    | Some d =>
      match Delay.reset_state d batch with
      | (d', Some e) => (mk (ctx w) (<[h := d']> (objects w)), Some e)
      | (d', None) => reset_each (mk (ctx w) (<[h := d']> (objects w))) hs' batch
      end
    end
  end.

(** [share.reset(batch_size)] *)
Definition reset_state (w : world) (batch : option Z) : world * option exn :=
  reset_each w (map snd (map_to_list (_ShareContext._delays (ctx w)))) batch.

End share.


(** ** Python syntax trees *)

(** The part of Python's [ast] the rewriter meets. A call node carries the
    two fields [starargs] and [kwargs] of the grammar before Python 3.5;
    the parser of every later Python leaves them unset and represents
    an unpacked positional argument by a [Starred] argument and unpacked
    keyword arguments by a keyword without a name. *)
Module ast.

Inductive expr :=
| Name (id : string)
| Constant (value : string)
| Attribute (value : expr) (attr : string)
| Subscript (value : expr) (slice : expr)
| BinOp (left : expr) (op : string) (right : expr)
| Tuple (elts : list expr)
| Starred (value : expr)
| Call (func : expr) (args : list expr) (keywords : list keyword)
       (starargs kwargs : option expr)
with keyword :=
| Keyword (arg : option string) (value : expr).

(** A parameter of a signature: an [ast.arg], or the [ast.Name] the
    analyzer appends. *)
Inductive param :=
| arg (arg : string)
| arg_Name (id : string).

Record arguments := mk_arguments {
  args : list param;
  defaults : list expr;
}.

Inductive stmt :=
| Expr (value : expr)
| Assign (targets : list expr) (value : expr)
| AugAssign (target : expr) (op : string) (value : expr)
| Return (value : option expr)
| For (target iter : expr) (body orelse : list stmt)
| If (test : expr) (body orelse : list stmt)
| Pass
| FunctionDef (name : string) (args : arguments) (body : list stmt)
              (decorator_list : list expr).

(** [ast.Module]: its [body]. *)
Definition module := list stmt.

Global Instance param_eq_dec : EqDecision param.
Proof. solve_decision. Defined.

End ast.

(** Modelled from the spec: [tools.ast2code], the unparser of
    [brainpy.tools], which is not part of the sources at hand. A call is
    identified by the textual form of the called expression; names and
    attribute chains print as dotted names. *)
Fixpoint ast2code (e : ast.expr) : string :=
  match e with
  | ast.Name id => id
  | ast.Constant v => v
  | ast.Attribute v a => ast2code v +:+ "." +:+ a
  | ast.Subscript v i => ast2code v +:+ "[" +:+ ast2code i +:+ "]"
  | ast.BinOp l op r => "(" +:+ ast2code l +:+ " " +:+ op +:+ " " +:+ ast2code r +:+ ")"
  | ast.Tuple es => "(" +:+ String.concat ", " (map ast2code es) +:+ ")"
  | ast.Starred v => "*" +:+ ast2code v
  | ast.Call f args kws _ _ =>
    ast2code f +:+ "(" +:+
      String.concat ", "
        (map ast2code args ++
         map (λ kw, match kw with
                    | ast.Keyword (Some k) v => k +:+ "=" +:+ ast2code v
                    | ast.Keyword None v => "**" +:+ ast2code v
                    end) kws)
      +:+ ")"
  end.

(** [sorted(names)]: Python orders strings by code point. *)
Definition sorted (names : list string) : list string :=
  merge_sort String.le names.

(** ** [class FuncTransformer(ast.NodeTransformer)] *)

Module FuncTransformer.

Record t := mk {
  func_name : string;
  arg_to_append : list string;
  remove_self : option string;
}.

(** [FuncTransformer(func_name, arg_to_append, remove_self=None)] *)
Definition __init__ (func_name : string) (arg_to_append : list string)
    (remove_self : option string) : t :=
  mk func_name (sorted arg_to_append) remove_self.

Section visitor.
Variable self : t.

(** The keywords parsed from [f(k1=k1, k2=k2, ...)]. *)
Definition new_keywords : list ast.keyword :=
  map (λ k, ast.Keyword (Some k) (ast.Name k)) (arg_to_append self).

(** [args[0].id == self.remove_self], then [args.pop(0)] *)
Definition pop_self (args : list ast.expr) : result (list ast.expr) :=
  match remove_self self with
  | None => Ok args
  | Some EmptyString => Ok args                          (* a falsy [remove_self] *)
  | Some name =>
    match args with
    | [] => Raise IndexError
    | ast.Name id :: rest =>
      if decide (id = name) then Ok rest else Ok args
    | _ :: _ => Raise AttributeError
    end
  end.

(** [NodeTransformer.generic_visit]: the children of a node are visited
    in the order of its fields and put back in place. *)
Definition generic_visit_with (visit : ast.expr → result ast.expr)
    (visit_keyword : ast.keyword → result ast.keyword) (node : ast.expr)
  : result ast.expr :=
  match node with
  | ast.Name _ | ast.Constant _ => Ok node
  | ast.Attribute v a => v' ← visit v; Ok (ast.Attribute v' a)
  | ast.Subscript v i => v' ← visit v; i' ← visit i; Ok (ast.Subscript v' i')
  | ast.BinOp l op r => l' ← visit l; r' ← visit r; Ok (ast.BinOp l' op r')
  | ast.Tuple es => es' ← traverse visit es; Ok (ast.Tuple es')
  | ast.Starred v => v' ← visit v; Ok (ast.Starred v')
  | ast.Call func args keywords starargs kwargs =>
    func' ← visit func;
    args' ← traverse visit args;
    keywords' ← traverse visit_keyword keywords;
    Ok (ast.Call func' args' keywords' starargs kwargs)
  end.

(** [NodeTransformer.visit] dispatches a call node to [visit_Call] and
    every other node to [generic_visit]; a keyword has no visitor of its
    own, so visiting it visits its value. *)
Fixpoint visit (node : ast.expr) : result ast.expr :=
  match node with
  | ast.Call func args keywords starargs kwargs =>
    (* visit_Call *)
    if decide (starargs ≠ None) then Raise ValueError
    else if decide (kwargs ≠ None) then Raise ValueError
    else
      (* get function name *)
      let call := ast2code func in
      if decide (call = func_name self) then
        args' ← traverse (generic_visit_with visit visit_keyword) args;
        args' ← pop_self args';
        kwargs' ← traverse visit_keyword keywords;
        Ok (ast.Call func args' (kwargs' ++ new_keywords) None None)
      else Ok node
  | _ => generic_visit_with visit visit_keyword node
  end
with visit_keyword (kw : ast.keyword) : result ast.keyword :=
  match kw with
  | ast.Keyword k v => v' ← visit v; Ok (ast.Keyword k v')
  end.

Definition generic_visit : ast.expr → result ast.expr :=
  generic_visit_with visit visit_keyword.

Definition visit_option (o : option ast.expr) : result (option ast.expr) :=
  match o with
  | None => Ok None
  | Some e => e' ← visit e; Ok (Some e')
  end.

Fixpoint visit_stmt (s : ast.stmt) : result ast.stmt :=
  match s with
  | ast.Expr v => v' ← visit v; Ok (ast.Expr v')
  | ast.Assign ts v =>
    ts' ← traverse visit ts; v' ← visit v; Ok (ast.Assign ts' v')
  | ast.AugAssign t op v =>
    t' ← visit t; v' ← visit v; Ok (ast.AugAssign t' op v')
  | ast.Return v => v' ← visit_option v; Ok (ast.Return v')
  | ast.For t it body orelse =>
    t' ← visit t; it' ← visit it;
    body' ← traverse visit_stmt body; orelse' ← traverse visit_stmt orelse;
    Ok (ast.For t' it' body' orelse')
  | ast.If test body orelse =>
    test' ← visit test;
    body' ← traverse visit_stmt body; orelse' ← traverse visit_stmt orelse;
    Ok (ast.If test' body' orelse')
  | ast.Pass => Ok ast.Pass
  | ast.FunctionDef name a body decorators =>
    defaults' ← traverse visit (ast.defaults a);
    body' ← traverse visit_stmt body;
    decorators' ← traverse visit decorators;
    Ok (ast.FunctionDef name (ast.mk_arguments (ast.args a) defaults')
          body' decorators')
  end.

(** [transformer.visit(tree)] on a module. *)
Definition visit_module (tree : ast.module) : result ast.module :=
  traverse visit_stmt tree.

End visitor.
End FuncTransformer.

(** [_replace_func(code_or_tree, func_call, arg_to_append,
    remove_self=None)], given the tree. *)
Definition _replace_func (tree : ast.module) (func_call : string)
    (arg_to_append : list string) (remove_self : option string)
  : result ast.module :=
  let transformer :=
    FuncTransformer.__init__ func_call arg_to_append remove_self in
  FuncTransformer.visit_module transformer tree.

(** ** The attribute analyzer of [ast2numba] *)

(** [key.split('.')] *)
Fixpoint split_dot (s : string) : list string :=
  match s with
  | EmptyString => [EmptyString]
  | String c s' =>
    if Ascii.eqb c "."%char then EmptyString :: split_dot s'
    else match split_dot s' with
         | [] => [String c EmptyString]
         | w :: ws => String c w :: ws
         end
  end.

(** ['.'.join(parts)] *)
Definition join_dot (parts : list string) : string := String.concat "." parts.

(** [key.replace('.', '_')] *)
Fixpoint replace_dot (s : string) : string :=
  match s with
  | EmptyString => EmptyString
  | String c s' => String (if Ascii.eqb c "."%char then "_"%char else c) (replace_dot s')
  end.

Module analyzer.

(** Objects of the model graph live in a heap and are referred to by
    identity. *)
Definition obj_id := nat.

(** The class of an object: [Container] derives from [DynamicSystem],
    which derives from [Base]. *)
Inductive class := Base | DynamicSystem | Container.

Definition isinstance_DynamicSystem (c : class) : bool :=
  match c with Base => false | _ => true end.
Definition isinstance_Container (c : class) : bool :=
  match c with Container => true | _ => false end.

(** The source text of a function, as the analyzer uses it: the tree
    [ast.parse] builds from it, and the matches [re.findall] returns on it
    for the chains rooted at its first parameter, as [list(set(...))]
    enumerates them. *)
Record source_code := mk_source {
  tree : ast.module;
  self_data : list string;
}.

(** A callable. [__self__] is set for a method bound to an object of the
    heap; [brainpy_data] is the metadata an integrator carries. *)
Inductive function :=
| Function (__name__ : string) (__self__ : option obj_id)
           (is_Dispatcher : bool) (numba_type : bool)
           (source : source_code) (brainpy_data : option intg_data)
with intg_data :=
| IntgData (method : string) (code_lines : source_code) (func_name : string)
           (raw_func : list (string * function)).

Definition __name__ (f : function) : string :=
  match f with Function n _ _ _ _ _ => n end.
Definition __self__ (f : function) : option obj_id :=
  match f with Function _ s _ _ _ _ => s end.
Definition is_Dispatcher (f : function) : bool :=
  match f with Function _ _ d _ _ _ => d end.
Definition numba_type (f : function) : bool :=
  match f with Function _ _ _ t _ _ => t end.
Definition source (f : function) : source_code :=
  match f with Function _ _ _ _ s _ => s end.
Definition brainpy_data (f : function) : option intg_data :=
  match f with Function _ _ _ _ _ d => d end.

(** The value of an attribute, by the tests the analyzer applies to it. *)
Inductive attr :=
| attr_Base (o : obj_id)          (* isinstance(_, Base) *)
| attr_Variable                   (* isinstance(_, math.Variable) *)
| attr_RandomState                (* isinstance(_, np.random.RandomState) *)
| attr_callable (f : function)    (* callable(_) *)
| attr_data (tag : nat).          (* anything else *)

Record object := mk_object {
  name : string;
  cls : class;
  attrs : gmap string attr;
  child_steps : list (string * function);
}.

Definition heap := gmap obj_id object.

(** Generated source: the text is [tools.word_replace(tools.ast2code(tree),
    data_to_replace)]. *)
Record generated := mk_generated {
  gen_tree : ast.module;
  data_to_replace : gmap string string;
}.

(** The function objects the analysis hands back. *)
Inductive compiled :=
| numba_jit (f : function)                          (* numba.jit(f) *)
| numba_jit_exec (func_name : string) (code : generated)
                                                    (* exec(code), then numba.jit *)
| unchanged (f : function).

(** What a name of a code scope is bound to. *)
Inductive scope_value :=
| from_closure
| np_random
| scope_func (c : compiled)
| scope_data (a : attr).

(** [dict(func=..., arguments=..., arg2call=..., nodes=...)] *)
Record analysis := mk_analysis {
  func : compiled;
  arguments : gset string;
  arg2call : gmap string string;
  nodes : gmap string obj_id;
}.

(** The state of the loop of [_analyze_cls_func]. *)
Record loop_state := mk_loop {
  l_tree : ast.module;
  l_arguments : gset string;
  l_arg2call : gmap string string;
  l_nodes : gmap string obj_id;
  l_data_to_replace : gmap string string;
  l_code_scope : gmap string scope_value;
}.

Section with_graph.
(** [brainpy.integrators.constants.DE_INT] and
    [brainpy.math.profile.CLASS_KEYWORDS]. *)
Variable DE_INT : string.
Variable CLASS_KEYWORDS : list string.
Variable h : heap.

(** [getattr(target, attr)] *)
Definition getattr (target : obj_id) (a : string) : result attr :=
  match h !! target with
  | None => Raise AttributeError
  | Some o =>
    match attrs o !! a with
    | None => Raise AttributeError
    | Some v => Ok v
    end
  end.

Definition name_of (o : obj_id) : result string :=
  match h !! o with
  | None => Raise AttributeError
  | Some ob => Ok (name ob)
  end.

Definition class_of (o : obj_id) : option class := cls <$> h !! o.

(** The loop [for i in range(1, len(split_keys))] with its [else]: follow
    the chain while the attributes are [Base] objects. The result is the
    last owner reached, the index [i] at the [break] and the attribute
    found there. *)
Fixpoint walk (target : obj_id) (i : nat) (keys : list string)
  : result (obj_id * nat * attr) :=
  match keys with
  | [] => Raise BrainPyError                    (* the [else] of the loop *)
  | k :: keys' =>
    next_target ← getattr target k;
    match next_target with
    | attr_Base o => walk o (S i) keys'
    | _ => Ok (target, i, next_target)          (* break *)
    end
  end.

(** The first statement of a module must be a function definition. *)
Definition body0 (t : ast.module)
  : result (string * ast.arguments * list ast.stmt * list ast.expr * ast.module) :=
  match t with
  | [] => Raise IndexError
  | ast.FunctionDef n a b d :: rest => Ok (n, a, b, d, rest)
  | _ :: _ => Raise AttributeError
  end.

(** [tree.body[0].args.args.pop(0)], returning the parameter popped. *)
Definition pop_first_arg (t : ast.module) : result (ast.param * ast.module) :=
  '(n, a, b, d, rest) ← body0 t;
  match ast.args a with
  | [] => Raise IndexError
  | p :: ps =>
    Ok (p, ast.FunctionDef n (ast.mk_arguments ps (ast.defaults a)) b d :: rest)
  end.

(** [_arg.arg] *)
Definition param_arg (p : ast.param) : result string :=
  match p with
  | ast.arg a => Ok a
  | ast.arg_Name _ => Raise AttributeError
  end.

(** The three statements under [# final code]: drop the decorators and
    append the hoisted names, sorted, as parameters defaulting to [None]. *)
Definition finalize_signature (t : ast.module) (arguments : gset string)
  : result ast.module :=
  '(n, a, b, d, rest) ← body0 t;
  let extra := sorted (elements arguments) in
  Ok (ast.FunctionDef n
        (ast.mk_arguments (ast.args a ++ map ast.arg_Name extra)
           (ast.defaults a ++ map (λ _, ast.Constant "None") extra))
        b [] :: rest).

(** [exec(compile(code, '', 'exec'), code_scope)] followed by
    [code_scope[func_name]]: the name must be defined by the code. *)
Definition defined_by (t : ast.module) (func_name : string) : bool :=
  existsb (λ s, match s with
                | ast.FunctionDef n _ _ _ => bool_decide (n = func_name)
                | _ => false
                end) t.

Definition exec_and_get (code : generated) (func_name : string)
  : result compiled :=
  match body0 (gen_tree code) with
  | Ok (_, _, [], _, _) => Raise SyntaxError    (* a [def] without a body *)
  | _ =>
    if defined_by (gen_tree code) func_name
    then Ok (numba_jit_exec func_name code)
    else Raise KeyError
  end.

(** The tail of [analyze_func]: a function that is neither an integrator
    nor a method of a dynamical system is compiled as it is, unless numba
    already knows it. *)
Definition plain (f : function) : option analysis :=
  if negb (is_Dispatcher f) && negb (numba_type f)
  then Some (mk_analysis (numba_jit f) ∅ ∅ ∅)
  else None.

(** [isinstance(f.__self__, DynamicSystem)], giving the owner. *)
Definition dynamic_owner (f : function) : option obj_id :=
  match __self__ f with
  | Some o =>
    match class_of o with
    | Some c => if isinstance_DynamicSystem c then Some o else None
    | None => None
    end
  | None => None
  end.

(** One turn of the loop [for key in self_data], given the analysis of
    nested callables. *)
Definition analyze_key (analyze : function → result (option analysis))
    (host : obj_id) (key : string) (st : loop_state) : result loop_state :=
  let split_keys := split_dot key in
  if decide (List.length split_keys < 2)%nat then Raise BrainPyError
  else
    (* get target and data *)
    '(target, i, data) ← walk host 1 (drop 1 split_keys);
    target_name ← name_of target;
    let attr_i := default EmptyString (split_keys !! i) in
    let key := join_dot (take (S i) split_keys) in
    let new_name := target_name +:+ "_" +:+ attr_i in
    (* analyze data *)
    match data with
    | attr_Variable =>
      Ok (mk_loop (l_tree st)
            ({[ new_name ]} ∪ l_arguments st)
            (<[new_name := target_name +:+ "." +:+
                           default EmptyString (last split_keys) +:+ ".value"]>
               (l_arg2call st))
            (<[target_name := target]> (l_nodes st))
            (<[key := new_name]> (l_data_to_replace st))
            (l_code_scope st))
    | attr_RandomState =>
      Ok (mk_loop (l_tree st) (l_arguments st) (l_arg2call st) (l_nodes st)
            (<[key := new_name]> (l_data_to_replace st))
            (<[new_name := np_random]> (l_code_scope st)))
    | attr_callable f =>
      if decide (List.length split_keys ≠ S i) then Raise AssertionError
      else
        r ← analyze f;
        match r with
        | Some r =>
          tree ← _replace_func (l_tree st) key
                   (elements (arguments r)) None;
          Ok (mk_loop tree
                (l_arguments st ∪ arguments r)
                (arg2call r ∪ l_arg2call st)
                (nodes r ∪ l_nodes st)
                (<[key := new_name]> (l_data_to_replace st))
                (<[new_name := scope_func (func r)]> (l_code_scope st)))
        | None => Ok st
        end
    | _ =>
      Ok (mk_loop (l_tree st) (l_arguments st) (l_arg2call st) (l_nodes st)
            (<[key := new_name]> (l_data_to_replace st))
            (<[new_name := scope_data data]> (l_code_scope st)))
    end.

(** One turn of the loop over [host.child_steps.items()] of a container:
    the accumulator holds [arguments], [arg2call], [nodes], [code_scope]
    and [code_lines]. *)
Definition container_step (analyze : function → result (option analysis))
    (item : string * function)
    (acc : gset string * gmap string string * gmap string obj_id
           * gmap string scope_value * list ast.stmt)
  : result (gset string * gmap string string * gmap string obj_id
            * gmap string scope_value * list ast.stmt) :=
  let '(key, step) := item in
  let '(args, a2c, nds, code_scope, code_lines) := acc in
  r ← analyze step;
  match r with
  | Some r =>
    let call := replace_dot key in
    let call_args :=
      map (λ a, ast.Keyword (Some a) (ast.Name a))
          (sorted (elements (arguments r))) in
    let line :=
      ast.Expr (ast.Call (ast.Name call) [ast.Name "_t"; ast.Name "_dt"]
                  call_args None None) in
    Ok (args ∪ arguments r, arg2call r ∪ a2c, nodes r ∪ nds,
        <[call := scope_func (func r)]> code_scope, code_lines ++ [line])
  | None => Ok acc
  end.

(** One turn of the loop over [raw_func.items()] of an integrator: the
    accumulator holds [tree], [arguments], [arg2call], [nodes] and
    [need_recompile]. *)
Definition raw_func_step
    (analyze_cls : function → option obj_id → result analysis)
    (f_node : option obj_id) (remove_self : option string)
    (item : string * function)
    (acc : ast.module * gset string * gmap string string
           * gmap string obj_id * bool)
  : result (ast.module * gset string * gmap string string
            * gmap string obj_id * bool) :=
  let '(key, func) := item in
  let '(tree, args, a2c, nds, need_recompile) := acc in
  (* get node *)
  let func_node :=
    match f_node with
    | Some o => Some o
    | None => dynamic_owner func
    end in
  (* get new compiled function *)
  if is_Dispatcher func then Ok acc
  else
    match func_node with
    | Some node =>
      r ← analyze_cls func (Some node);
      tree ←
        (if bool_decide (elements (arguments r) ≠ [])
            || match remove_self with
               | Some s => bool_decide (s ≠ EmptyString)
               | None => false
               end
         then _replace_func tree key (elements (arguments r)) remove_self
         else Ok tree);
      node_name ← name_of node;
      Ok (tree, args ∪ arguments r, arg2call r ∪ a2c,
          <[node_name := node]> (nodes r ∪ nds), true)
    | None => Ok (tree, args, a2c, nds, true)
    end.

(** The recursion of the analyzer is bounded by the interpreter: [depth]
    is the number of nested calls left before [RecursionError]. *)
Fixpoint analyze_func (depth : nat) (f : function) : result (option analysis) :=
  match depth with
  | O => Raise RecursionError
  | S depth =>
    if String.prefix DE_INT (__name__ f)
    then Some <$> analyze_intg_func depth f
    else
      match dynamic_owner f with
      | Some _ => Some <$> analyze_cls_func depth f None None
      | None => Ok (plain f)
      end
  end

with analyze_cls_func (depth : nat) (f : function) (code : option source_code)
    (host : option obj_id) : result analysis :=
  match depth with
  | O => Raise RecursionError
  | S depth =>
    host ← match host with
           | Some o => Ok o
           | None => match __self__ f with
                     | Some o => Ok o
                     | None => Raise AttributeError
                     end
           end;
    ob ← match h !! host with Some ob => Ok ob | None => Raise AttributeError end;
    (* data to return *)
    let nodes0 : gmap string obj_id := {[ name ob := host ]} in
    if isinstance_Container (cls ob) then
      (* step function of Container *)
      if decide (__name__ f ≠ "update") then Raise UnsupportedError
      else
        acc ← for_each (container_step (analyze_func depth)) (child_steps ob)
                (∅, ∅, nodes0, ∅, []);
        let '(args, a2c, nds, code_scope, code_lines) := acc in
        let func_name := name ob +:+ "_update" in
        let def :=
          ast.FunctionDef func_name
            (ast.mk_arguments
               ([ast.arg "_t"; ast.arg "_dt"]
                ++ map ast.arg (sorted (elements args))) [])
            code_lines [] in
        func ← exec_and_get (mk_generated [def] ∅) func_name;
        Ok (mk_analysis func args a2c nds)
    else
      (* step function of normal DynamicSystem *)
      let code := default (source f) code in
      let func_name := __name__ f in
      r ← _analyze_cls_func depth host code ∅;
      let '(code, _arguments, _arg2call, _nodes, code_scope) := r in
      func ← exec_and_get code func_name;
      Ok (mk_analysis func _arguments _arg2call (_nodes ∪ nodes0))
  end

with _analyze_cls_func (depth : nat) (host : obj_id) (code : source_code)
    (code_scope : gmap string scope_value)
  : result (generated * gset string * gmap string string
            * gmap string obj_id * gmap string scope_value) :=
  match depth with
  | O => Raise RecursionError
  | S depth =>
    (* arguments *)
    '(p, tree) ← pop_first_arg (tree code);
    cls_name ← param_arg p;
    if decide (cls_name ∉ CLASS_KEYWORDS) then Raise CodeError
    else
      (* analyze variables and functions accessed by the self.xx *)
      st ← for_each (analyze_key (analyze_func depth) host) (self_data code)
             (mk_loop tree ∅ ∅ ∅ ∅ code_scope);
      (* final code *)
      tree ← finalize_signature (l_tree st) (l_arguments st);
      Ok (mk_generated tree (l_data_to_replace st),
          l_arguments st, l_arg2call st, l_nodes st, l_code_scope st)
  end

with analyze_intg_func (depth : nat) (f : function) : result analysis :=
  match depth with
  | O => Raise RecursionError
  | S depth =>
    match brainpy_data f with
    | None => Raise AttributeError
    | Some (IntgData method code_lines func_name raw_func) =>
      if String.prefix "exponential" method
      then analyze_cls_func depth f (Some code_lines) None
      else
        (* jit raw functions *)
        let f_node := dynamic_owner f in
        start ←
          match f_node with
          | Some _ =>
            '(p, tree) ← pop_first_arg (tree code_lines);
            a ← param_arg p;
            Ok (tree, Some a)
          | None => Ok (tree code_lines, None)
          end;
        let '(tree, remove_self) := start in
        acc ← for_each
                (raw_func_step (λ g host, analyze_cls_func depth g None host)
                   f_node remove_self)
                raw_func
                (tree, (∅ : gset string), (∅ : gmap string string),
                 (∅ : gmap string obj_id), false);
        let '(tree, args, a2c, nds, need_recompile) := acc in
        if (need_recompile : bool) then
          tree ← finalize_signature tree args;
          new_f ← exec_and_get (mk_generated tree ∅) func_name;
          Ok (mk_analysis new_f args a2c nds)
        else Ok (mk_analysis (unchanged f) args a2c nds)
    end
  end.

End with_graph.
End analyzer.

(** ** [class ObjectJIT] *)

Module ObjectJIT.

(** What a call of the compiled function can raise. *)
Inductive raised :=
| UnexpectedTracerError            (* jax.errors *)
| ConcretizationTypeError          (* jax.errors *)
| JaxTracerError                   (* brainpy.errors *)
| errors_ConcretizationTypeError   (* brainpy.errors *)
| Exception (e : exn)              (* any other instance of Exception *)
| BaseException (tag : nat).       (* KeyboardInterrupt, SystemExit, ... *)

(** [isinstance(e, Exception)] *)
Definition is_Exception (e : raised) : bool :=
  match e with BaseException _ => false | _ => true end.

Section with_types.
(** Array values (tracers included), arguments and outputs of the wrapped
    function, and the state kept by [add_context]/[del_context] of
    [brainpy.math.jaxarray]. *)
Context {V Args Out C : Type}.
Variable add_context : string → C → C.
Variable del_context : string → C → C.

(** Variables are objects: a store gives each its current [_value], and
    the collection [vars] names them (one variable may carry two names). *)
Local Abbreviation var_id := nat (only parsing).
Local Abbreviation store := (var_id → V) (only parsing).

Record state := mk_state {
  values : store;
  contexts : C;
}.

(** [vars.dict()] *)
Definition dict (vars : gmap string var_id) (s : store) : gmap string V :=
  (λ v, s v) <$> vars.

(** [for key, v in vars.items(): v._value = data[key]] *)
Fixpoint assign_each (items : list (string * var_id)) (data : gmap string V)
    (s : store) : store * option exn :=
  match items with
  | [] => (s, None)
  | (key, v) :: items' =>
    match data !! key with
    | None => (s, Some KeyError)
    | Some x => assign_each items' data (<[v := x]> s)
    end
  end.

Definition assign (vars : gmap string var_id) (data : gmap string V)
    (s : store) : store * option exn :=
  assign_each (map_to_list vars) data s.

(** The wrapped function reads and writes the variables. *)
Definition function := Args → store → store * (raised + Out).

(** The body of [jitted_func]. *)
Definition jitted_func (func : function) (vars : gmap string var_id)
    (variable_data : gmap string V) (args : Args) (s : store)
  : store * (raised + (Out * gmap string V)) :=
  match assign vars variable_data s with
  | (s, Some e) => (s, inl (Exception e))
  | (s, None) =>
    match func args s with
    | (s, inl e) => (s, inl e)
    | (s, inr out) => let changes := dict vars s in (s, inr (out, changes))
    end
  end.

(** [jax.jit]: the compiled function returns what the traced one returns;
    what it leaves in the variables afterwards (tracers after a trace,
    nothing new on a cache hit) is given by [leak]. *)
Variable leak : store → store → store.

Definition jax_jit (f : gmap string V → Args → store →
                        store * (raised + (Out * gmap string V)))
    (variable_data : gmap string V) (args : Args) (s : store)
  : store * (raised + (Out * gmap string V)) :=
  let '(s', r) := f variable_data args s in (leak s s', r).

Record t := mk {
  name : string;
  _vars : gmap string var_id;
  _f : gmap string V → Args → store → store * (raised + (Out * gmap string V));
}.

(** [ObjectJIT(func, vars, name=name)] *)
Definition __init__ (func : function) (vars : gmap string var_id)
    (name : string) : t :=
  mk name vars (jax_jit (jitted_func func vars)).

(** The three handlers share their first two statements. *)
Definition handler (self : t) (variable_data : gmap string V) (st : state)
    (reraise : raised) : state * (raised + Out) :=
  let c := del_context (name self) (contexts st) in
  match assign (_vars self) variable_data (values st) with
  | (s, Some e) => (mk_state s c, inl (Exception e))
  | (s, None) => (mk_state s c, inl reraise)
  end.

(** [__call__(args...)] *)
Definition __call__ (self : t) (st : state) (args : Args)
  : state * (raised + Out) :=
  let variable_data := dict (_vars self) (values st) in
  (* try *)
  let c := add_context (name self) (contexts st) in
  match _f self variable_data args (values st) with
  | (s, inr (out, changes)) =>
    let c := del_context (name self) c in
    match assign (_vars self) changes s with
    | (s, Some e) => (mk_state s c, inl (Exception e))
    | (s, None) => (mk_state s c, inr out)
    end
  | (s, inl e) =>
    let st := mk_state s c in
    match e with
    | UnexpectedTracerError => handler self variable_data st JaxTracerError
    | ConcretizationTypeError =>
      handler self variable_data st errors_ConcretizationTypeError
    | BaseException _ => (st, inl e)          (* no handler applies *)
    | _ => handler self variable_data st e
    end
  end.

End with_types.
End ObjectJIT.

(** ** [class FunctionJIT] *)

Module FunctionJIT.

Section with_types.
Context {V Args Out C : Type}.
Variable add_context : string → C → C.
Variable del_context : string → C → C.
Variable leak : (nat → V) → (nat → V) → (nat → V).

Record t := mk {
  name : string;
  _f : Args → (nat → V) → (nat → V) * (ObjectJIT.raised + Out);
}.

(** [jax.jit(func)] for a function called with its arguments only. *)
Definition jax_jit (func : @ObjectJIT.function V Args Out)
  : Args → (nat → V) → (nat → V) * (ObjectJIT.raised + Out) :=
  λ args s, let '(s', r) := func args s in (leak s s', r).

(** [FunctionJIT(func, name=name)] *)
Definition __init__ (func : @ObjectJIT.function V Args Out) (name : string)
  : t :=
  mk name (jax_jit func).

(** [__call__(args...)]: no handler, so a raise skips [del_context]. *)
Definition __call__ (self : t) (st : @ObjectJIT.state V C) (args : Args)
  : @ObjectJIT.state V C * (ObjectJIT.raised + Out) :=
  let c := add_context (name self) (ObjectJIT.contexts st) in
  match _f self args (ObjectJIT.values st) with
  | (s, inl e) => (ObjectJIT.mk_state s c, inl e)
  | (s, inr r) => (ObjectJIT.mk_state s (del_context (name self) c), inr r)
  end.

End with_types.
End FunctionJIT.

(** ** [_items2lines] *)

(** [range(start, stop, step)] for a positive [step]. *)
Fixpoint range_from (count start step : nat) : list nat :=
  match count with
  | O => []
  | S count => start :: range_from count (start + step) step
  end.
Definition py_range (start stop step : nat) : list nat :=
  range_from ((stop - start + step - 1) / step) start step.

(** The two inner loops: [for item in ...: res += item + separator]. *)
Definition add_items (separator : string) (res : string)
    (items : list string) : string :=
  foldl (λ res item, res +:+ (item +:+ separator)) res items.

(** [_items2lines(items, num_each_line=5, separator=', ',
    line_break='\n\t\t')]. A negative [num_each_line] makes the first
    slice drop items from the end and the range empty; zero makes [range]
    raise. *)
Definition _items2lines (items : list string) (num_each_line : Z)
    (separator line_break : string) : result string :=
  let first :=
    if decide (0 ≤ num_each_line) then take (Z.to_nat num_each_line) items
    else take (List.length items - Z.to_nat (- num_each_line)) items in
  let res := add_items separator EmptyString first in
  if decide (num_each_line = 0) then Raise ValueError
  else if decide (num_each_line < 0) then Ok res
  else
    let n := Z.to_nat num_each_line in
    Ok (foldl (λ res i,
                 add_items separator (res +:+ line_break)
                   (take n (drop i items)))
          res (py_range n (List.length items) n)).
(** ** Simulation steps

    The runner stores the step counter under ["i"] in the shared context
    before the buffers are updated; successive steps use successive
    counters. *)

Section steps.
Variable get_dt : pyobj.

Definition set_i (share : _ShareContext.t) (i : Z) : _ShareContext.t :=
  (_ShareContext.save share [] [("i", PInt i)]).1.

(** Updates with the values [vs], the first at counter [i], the next at
    [i + 1], and so on. *)
Fixpoint run_updates (share : _ShareContext.t) (self : Delay.t) (i : Z)
    (vs : list (list Z)) : result (_ShareContext.t * Delay.t) :=
  match vs with
  | [] => Ok (share, self)
  | v :: vs' =>
    let share := set_i share i in
    self ← Delay.update get_dt share self (Some v);
    run_updates share self (i + 1) vs'
  end.

(** Updates that do not go through the counter (the concat method never
    reads it). *)
Fixpoint updates (share : _ShareContext.t) (self : Delay.t)
    (vs : list (option (list Z))) : result Delay.t :=
  match vs with
  | [] => Ok self
  | v :: vs' =>
    self ← Delay.update get_dt share self v;
    updates share self vs'
  end.
End steps.


(** ** Concrete buffers used in the examples *)

Definition non_batching : Delay.mode_t := Delay.mk_mode true false.

(** [Delay(target, length, before_t0=9, entries={}, method=m)] on a target
    holding the single element [x]. *)
Definition new_delay (x : Z) (length : Z) (m : Delay.update_method)
  : result Delay.t :=
  Delay.__init__ non_batching (Delay.mk_var [x] None) length
    (Some (Delay.B_number 9)) (Some []) (Some m).

Definition data_of (r : result Delay.t) : result (option (list (list Z))) :=
  Delay.data <$> r.


(** ** Trees as the parser builds them *)

(** [ast.parse] never sets the two pre-3.5 fields of a call node. *)
Fixpoint parsed (e : ast.expr) : bool :=
  match e with
  | ast.Name _ | ast.Constant _ => true
  | ast.Attribute v _ => parsed v
  | ast.Subscript v i => parsed v && parsed i
  | ast.BinOp l _ r => parsed l && parsed r
  | ast.Tuple es => forallb parsed es
  | ast.Starred v => parsed v
  | ast.Call f args kws starargs kwargs =>
    match starargs, kwargs with
    | None, None => parsed f && forallb parsed args && forallb parsed_keyword kws
    | _, _ => false
    end
  end
with parsed_keyword (kw : ast.keyword) : bool :=
  match kw with ast.Keyword _ v => parsed v end.

Fixpoint parsed_stmt (s : ast.stmt) : bool :=
  match s with
  | ast.Expr v => parsed v
  | ast.Assign ts v => forallb parsed ts && parsed v
  | ast.AugAssign t _ v => parsed t && parsed v
  | ast.Return v => match v with Some e => parsed e | None => true end
  | ast.For t it body orelse =>
    parsed t && parsed it && forallb parsed_stmt body && forallb parsed_stmt orelse
  | ast.If test body orelse =>
    parsed test && forallb parsed_stmt body && forallb parsed_stmt orelse
  | ast.Pass => true
  | ast.FunctionDef _ a body decorators =>
    forallb parsed (ast.defaults a) && forallb parsed_stmt body
    && forallb parsed decorators
  end.

Definition parsed_module (t : ast.module) : bool := forallb parsed_stmt t.

(** [update(self, _t)] whose body calls [self.integral] with the single
    starred argument [xs]. *)
Definition update_with_starargs : ast.module :=
  [ast.FunctionDef "update"
     (ast.mk_arguments [ast.arg "self"; ast.arg "_t"] [])
     [ast.Expr (ast.Call (ast.Attribute (ast.Name "self") "integral")
                  [ast.Starred (ast.Name "xs")] [] None None)]
     []].

(** [update(self, _t)] whose body calls [self.integral] with [_t] and the
    unpacked keyword arguments [opts]. *)
Definition update_with_kwargs : ast.module :=
  [ast.FunctionDef "update"
     (ast.mk_arguments [ast.arg "self"; ast.arg "_t"] [])
     [ast.Expr (ast.Call (ast.Attribute (ast.Name "self") "integral")
                  [ast.Name "_t"] [ast.Keyword None (ast.Name "opts")]
                  None None)]
     []].

(** ** Object graphs used in the examples *)

(** Values of the two constants the analyzer imports. *)
Definition DE_INT : string := "_brainpy_itg_of_".
Definition CLASS_KEYWORDS : list string := ["self"; "cls"].

(** Following a chain of attribute names through stateful sub-objects. *)
Inductive reaches (h : analyzer.heap)
  : analyzer.obj_id → list string → analyzer.obj_id → Prop :=
| reaches_here o : reaches h o [] o
| reaches_step o k o' ks t :
    analyzer.getattr h o k = Ok (analyzer.attr_Base o') →
    reaches h o' ks t →
    reaches h o (k :: ks) t.

(** A method [name(self)] whose source mentions the given chains; its
    body is a single expression statement. *)
Definition method_of (owner : analyzer.obj_id) (name : string)
    (body : ast.expr) (chains : list string) : analyzer.function :=
  analyzer.Function name (Some owner) false false
    (analyzer.mk_source
       [ast.FunctionDef name (ast.mk_arguments [ast.arg "self"] [])
          [ast.Expr body] []]
       chains)
    None.

(** [self.<a>.<b>] *)
Definition self_attr2 (a b : string) : ast.expr :=
  ast.Attribute (ast.Attribute (ast.Name "self") a) b.

(** Two dynamical systems that refer to each other: [A.b] is [B] and
    [B.a] is [A]; [B] owns the variable [w]. [A.update] calls
    [self.b.step()] and [B.step] calls [self.a.update()]. *)
Definition A_update : analyzer.function :=
  method_of 0%nat "update" (ast.Call (self_attr2 "b" "step") [] [] None None)
    ["self.b.step"].
Definition B_step : analyzer.function :=
  method_of 1%nat "step" (ast.Call (self_attr2 "a" "update") [] [] None None)
    ["self.a.update"].

Definition cyclic_graph : analyzer.heap :=
  {[ 0%nat := analyzer.mk_object "A" analyzer.DynamicSystem
                {[ "b" := analyzer.attr_Base 1%nat;
                   "update" := analyzer.attr_callable A_update ]} [];
     1%nat := analyzer.mk_object "B" analyzer.DynamicSystem
                {[ "a" := analyzer.attr_Base 0%nat;
                   "w" := analyzer.attr_Variable;
                   "step" := analyzer.attr_callable B_step ]} [] ]}.

(** A method of [A] that reads [self.b.a], a chain that leads back to
    its own owner. *)
Definition A_reads_back : analyzer.function :=
  method_of 0%nat "probe" (self_attr2 "b" "a") ["self.b.a"].

(** A method of [A] that reads [self.b.a.b.w], going once around the
    cycle before it reaches the variable of [B]. *)
Definition A_reads_around : analyzer.function :=
  method_of 0%nat "probe"
    (ast.Attribute (ast.Attribute (self_attr2 "b" "a") "b") "w")
    ["self.b.a.b.w"].

(** The hoisted names of an analysis. *)
Definition hoisted (r : result (option analyzer.analysis))
  : result (option (list string)) :=
  match r with
  | Ok (Some a) => Ok (Some (elements (analyzer.arguments a)))
  | Ok None => Ok None
  | Raise e => Raise e
  end.

(** The parameters of the function a module defines first. *)
Definition params (t : ast.module) : list ast.param :=
  match t with
  | ast.FunctionDef _ a _ _ :: _ => ast.args a
  | _ => []
  end.



(** A system with three variables, read in two different orders. *)
Definition three_variables : analyzer.heap :=
  {[ 0%nat := analyzer.mk_object "N" analyzer.DynamicSystem
                {[ "V" := analyzer.attr_Variable;
                   "m" := analyzer.attr_Variable;
                   "h" := analyzer.attr_Variable ]} [] ]}.

Definition reads (chains : list string) : analyzer.source_code :=
  analyzer.mk_source
    [ast.FunctionDef "update"
       (ast.mk_arguments [ast.arg "self"; ast.arg "_t"] [])
       [ast.Expr (ast.Tuple [ast.Attribute (ast.Name "self") "m";
                             ast.Attribute (ast.Name "self") "V";
                             ast.Attribute (ast.Name "self") "h"])] []]
    chains.

(** A system [N] with the variable [V] and the sub-system [M], which owns
    the variables [w] and [u]; [M.step] reads both, and [N.update(self, _t)]
    calls [self.sub.step()] and reads [self.V]. *)
Definition M_step : analyzer.function :=
  method_of 1%nat "step"
    (ast.Tuple [ast.Attribute (ast.Name "self") "w";
                ast.Attribute (ast.Name "self") "u"])
    ["self.w"; "self.u"].

Definition caller_graph : analyzer.heap :=
  {[ 0%nat := analyzer.mk_object "N" analyzer.DynamicSystem
                {[ "V" := analyzer.attr_Variable;
                   "sub" := analyzer.attr_Base 1%nat ]} [];
     1%nat := analyzer.mk_object "M" analyzer.DynamicSystem
                {[ "w" := analyzer.attr_Variable;
                   "u" := analyzer.attr_Variable;
                   "step" := analyzer.attr_callable M_step ]} [] ]}.

Definition calls_sub (chains : list string) : analyzer.source_code :=
  analyzer.mk_source
    [ast.FunctionDef "update"
       (ast.mk_arguments [ast.arg "self"; ast.arg "_t"] [])
       [ast.Expr (ast.Call (self_attr2 "sub" "step") [] [] None None);
        ast.Expr (ast.Attribute (ast.Name "self") "V")] []]
    chains.

(** ** Buffers as the operations build them *)

(** The buffers a program can hold: made by the constructor, then changed
    by the methods of the class, whether they return or raise, or by an
    assignment to the target. An update that raises has changed
    nothing. *)
Inductive built : Delay.t → Prop :=
| built_init mode target len b entries m d :
    Delay.__init__ mode target len b entries m = Ok d → built d
| built_register d entry tm st d' e :
    built d → Delay.register_entry d entry tm st = (d', e) → built d'
| built_update get_dt share d v d' :
    built d → Delay.update get_dt share d v = Ok d' → built d'
| built_reset d b d' e :
    built d → Delay.reset_state d b = (d', e) → built d'
| built_target d v :
    built d → built (Delay.set_target_value d v).

(** A seed that is written without a shape to fit: none, or a number. *)
Definition plain_seed (d : Delay.t) : Prop :=
  match Delay._before_t0 d with
  | None | Some (Delay.B_number _) => True
  | _ => False
  end.

(** Storage exists exactly when the length is positive, and then has one
    row per lag from 0 to [length]. *)
Definition delay_inv (d : Delay.t) : Prop :=
  0 ≤ Delay.length d ∧
  match Delay.data d with
  | None => Delay.length d = 0
  | Some rows =>
    1 ≤ Delay.length d ∧ List.length rows = Z.to_nat (Delay.length d + 1)
  end.

(** A rotating buffer of length 3 as the constructor leaves it for a
    target holding [0] and the seed [9]. *)
Definition rotating_buffer : Delay.t :=
  Delay.mk (Delay.mk_var [0] None) 3 (Some (Delay.B_number 9))
    Delay.ROTATE_UPDATE (Some [[0]; [9]; [9]; [9]]) ∅.

(** The same with the concat method and two registered entries, one for
    each lag kind. *)
Definition concat_buffer : Delay.t :=
  Delay.mk (Delay.mk_var [0; 0] None) 2 (Some (Delay.B_number 9))
    Delay.CONCAT_UPDATE (Some [[1; 2]; [3; 4]; [5; 6]])
    {[ "het" := Some (Delay.heter [2; 0]); "now" := None ]}.

(** A buffer without storage whose seed has two rows, asked for an entry
    of lag 3. *)
Definition two_row_seed : Delay.t :=
  Delay.mk (Delay.mk_var [0] None) 0 (Some (Delay.B_array2 [[1]; [2]]))
    Delay.ROTATE_UPDATE None ∅.

(** ** Call relations between analysed functions *)

(** [calls de h f g]: [f] is a method of a dynamical system that is no
    container, it is no integrator, and one of the chains found in its
    source leads from its owner to the callable [g] and ends there. *)
Definition calls (de : string) (h : analyzer.heap)
    (f g : analyzer.function) : Prop :=
  String.prefix de (analyzer.__name__ f) = false ∧
  ∃ host ob key target i,
    analyzer.dynamic_owner h f = Some host ∧
    analyzer.__self__ f = Some host ∧
    h !! host = Some ob ∧
    analyzer.isinstance_Container (analyzer.cls ob) = false ∧
    key ∈ analyzer.self_data (analyzer.source f) ∧
    analyzer.walk h host 1 (drop 1 (split_dot key))
      = Ok (target, i, analyzer.attr_callable g) ∧
    List.length (split_dot key) = S i.

(** The method [update(self, _t)] of the system with three variables. *)
Definition N_update : analyzer.function :=
  analyzer.Function "update" (Some 0%nat) false false
    (reads ["self.V"; "self.m"; "self.h"]) None.

(** Every hoisted name has the expression that is evaluated for it at
    the call. *)
Definition has_calls (r : analyzer.analysis) : Prop :=
  analyzer.arguments r ⊆ dom (analyzer.arg2call r).






(** The call nodes a visit of an expression hands to [visit_Call]: the
    outermost ones. *)
Fixpoint top_calls (e : ast.expr) : list ast.expr :=
  match e with
  | ast.Name _ | ast.Constant _ => []
  | ast.Attribute v _ => top_calls v
  | ast.Subscript v i => top_calls v ++ top_calls i
  | ast.BinOp l _ r => top_calls l ++ top_calls r
  | ast.Tuple es => concat (map top_calls es)
  | ast.Starred v => top_calls v
  | ast.Call _ _ _ _ _ => [e]
  end.

Fixpoint stmt_calls (s : ast.stmt) : list ast.expr :=
  match s with
  | ast.Expr v => top_calls v
  | ast.Assign ts v => concat (map top_calls ts) ++ top_calls v
  | ast.AugAssign t _ v => top_calls t ++ top_calls v
  | ast.Return v => match v with Some e => top_calls e | None => [] end
  | ast.For t it body orelse =>
    top_calls t ++ top_calls it ++ concat (map stmt_calls body)
    ++ concat (map stmt_calls orelse)
  | ast.If test body orelse =>
    top_calls test ++ concat (map stmt_calls body)
    ++ concat (map stmt_calls orelse)
  | ast.Pass => []
  | ast.FunctionDef _ a body decorators =>
    concat (map top_calls (ast.defaults a)) ++ concat (map stmt_calls body)
    ++ concat (map top_calls decorators)
  end.

(** The call sites of a module. *)
Definition call_sites (t : ast.module) : list ast.expr :=
  concat (map stmt_calls t).



(** * Properties *)

(** ** Results *)

Lemma bind_Ok {A B} (m : result A) (f : A → result B) (b : B) :
  m ≫= f = Ok b ↔ ∃ a, m = Ok a ∧ f a = Ok b.
Proof.
  destruct m as [a|e]; cbn; split.
  - intros H. by exists a.
  - by intros (a' & [= <-] & H).
  - done.
  - by intros (a' & ? & _).
Qed.

Lemma is_Ok_inv {A} (r : result A) : is_Ok r = true → { a | r = Ok a }.
Proof. destruct r as [a|e]; [by exists a|done]. Defined.

Lemma fmap_Ok {A B} (m : result A) (f : A → B) (b : B) :
  f <$> m = Ok b ↔ ∃ a, m = Ok a ∧ f a = b.
Proof.
  destruct m as [a|e]; cbn; split.
  - intros [= <-]. by exists a.
  - by intros (a' & [= <-] & <-).
  - done.
  - by intros (a' & ? & _).
Qed.

Lemma for_each_cons {A S} (body : A → S → result S) x l s :
  for_each body (x :: l) s = s' ← body x s; for_each body l s'.
Proof. done. Qed.

Lemma traverse_cons {A B} (f : A → result B) x l :
  traverse f (x :: l) = y ← f x; ys ← traverse f l; Ok (y :: ys).
Proof. done. Qed.

(** Split a hypothesis [m ≫= f = Ok b] into its two steps. *)
Ltac bind_inv H a Ha :=
  apply bind_Ok in H; destruct H as (a & Ha & H).


(** ** The buffer invariant *)

(** The length is not negative, and allocated storage has [length + 1]
    rows. *)
Definition delay_wf (d : Delay.t) : Prop :=
  0 ≤ Delay.length d ∧
  ∀ rows, Delay.data d = Some rows →
          List.length rows = Z.to_nat (Delay.length d + 1).

Lemma broadcast_row_length r width r' :
  Delay.broadcast_row r width = Ok r' → List.length r' = width.
Proof.
  unfold Delay.broadcast_row. case_decide as Hl; [by intros [= <-]|].
  destruct r as [|x [|y r]]; try done. intros [= <-].
  by rewrite length_replicate.
Qed.

Lemma broadcast_rows_shape rs n width rows :
  Delay.broadcast_rows rs n width = Ok rows →
  List.length rows = n ∧ Forall (λ r, List.length r = width) rows.
Proof.
  unfold Delay.broadcast_rows. intros H. bind_inv H rows0 Hrows0.
  assert (Forall (λ r, List.length r = width) rows0) as Hall.
  { clear H. revert rows0 Hrows0.
    induction rs as [|r rs IH]; intros rows0 H.
    - injection H as <-. constructor.
    - rewrite traverse_cons in H. bind_inv H r' Hr'. bind_inv H rs' Hrs'.
      injection H as <-. constructor; [by eapply broadcast_row_length|].
      by apply IH. }
  case_decide as Hn; [by injection H as <-|].
  destruct rows0 as [|r [|r2 rows0]]; try done. injection H as <-.
  split; [by rewrite length_replicate|].
  apply Forall_replicate. by inversion Hall.
Qed.

Lemma broadcast_rows_raise rs n width e :
  Delay.broadcast_rows rs n width = Raise e → e = ValueError.
Proof.
  unfold Delay.broadcast_rows.
  destruct (traverse _ rs) as [rows|e'] eqn:Ht; cbn.
  - case_decide; [done|]. destruct rows as [|? [|? ?]]; try done;
      by intros [= <-].
  - intros [= <-]. revert e' Ht. induction rs as [|r rs IH]; intros e' H; [done|].
    rewrite traverse_cons in H.
    destruct (Delay.broadcast_row r width) as [r'|e1] eqn:Hr; cbn in H.
    + destruct (traverse _ rs) as [rs'|e2] eqn:Hrs; cbn in H; [done|].
      injection H as <-. by apply IH.
    + injection H as <-. unfold Delay.broadcast_row in Hr.
      case_decide; [done|]. destruct r as [|? [|? ?]]; try done;
        by injection Hr as <-.
Qed.

(** Whatever its outcome, [_init_data] changes nothing but the
    storage. *)
Lemma init_data_fields d len b d' e :
  Delay._init_data d len b = (d', e) →
  d' = Delay.set_data d (Delay.data d').
Proof.
  unfold Delay._init_data.
  assert (d = Delay.set_data d (Delay.data d)) as Hd by (by destruct d).
  destruct (match b with
            | Some b0 => bool_decide (Delay.batch_size (Delay.target d) ≠ Some b0)
            | None => false
            end).
  { by intros [= <- <-]. }
  destruct (Delay.assign_data d _) as [d1|e1] eqn:Ha; [|by intros [= <- <-]].
  assert (∃ z, d1 = Delay.set_data d (Some z)) as [z ->].
  { unfold Delay.assign_data in Ha. destruct (Delay.data d).
    - case_decide; [|done]. injection Ha as <-. by eexists.
    - injection Ha as <-. by eexists. }
  cbn [Delay.set_data Delay.target Delay._before_t0 Delay.value
       Delay.batch_axis Delay.length Delay.method Delay._access_to_step
       Delay.data].
  destruct (match Delay._before_t0 d with
            | Some (Delay.B_number x) => _
            | Some (Delay.B_array1 r) => _
            | Some (Delay.B_array2 rs) => _
            | Some (Delay.B_callable f) => _
            | None => _
            end); by intros [= <- <-].
Qed.

(** What [_init_data] leaves when it returns. *)
Lemma init_data_rows d len b d' :
  0 ≤ len →
  Delay._init_data d len b = (d', None) →
  ∃ rest, Delay.data d' = Some (Delay.value (Delay.target d) :: rest) ∧
          List.length rest = Z.to_nat len ∧
          Delay.length d' = Delay.length d ∧
          Delay.target d' = Delay.target d ∧
          Delay.method d' = Delay.method d ∧
          Delay._before_t0 d' = Delay._before_t0 d ∧
          Delay._access_to_step d' = Delay._access_to_step d ∧
          Forall (λ r, List.length r = Delay.delay_target_shape d) rest.
Proof.
  intros Hlen. unfold Delay._init_data.
  destruct (match b with Some _ => _ | None => _ end); [done|].
  destruct (Delay.assign_data d _) as [d1|] eqn:Ha; [|done].
  assert (∃ z, d1 = Delay.set_data d (Some z)) as [z ->].
  { unfold Delay.assign_data in Ha. destruct (Delay.data d).
    - case_decide; [|done]. injection Ha as <-. by eexists.
    - injection Ha as <-. by eexists. }
  clear Ha.
  replace (Z.to_nat (len + 1)) with (S (Z.to_nat len)) by lia.
  cbn [replicate]. cbn [insert list_insert take drop app].
  cbn [Delay.set_data Delay.target Delay._before_t0 Delay.value
       Delay.batch_axis Delay.length Delay.method Delay._access_to_step
       Delay.data].
  destruct (Delay._before_t0 d) as [[x|r|rs|f]|] eqn:Hb.
  - intros [= <-]. eexists. split; [done|].
    split; [by rewrite length_replicate|]. split_and!; try done.
    apply Forall_replicate. by rewrite length_replicate.
  - destruct (Delay.broadcast_row r _) as [r'|] eqn:Hr; [|done].
    cbn. intros [= <-]. eexists. split; [done|].
    split; [by rewrite length_replicate|]. split_and!; try done.
    apply Forall_replicate. by eapply broadcast_row_length.
  - destruct (Delay.broadcast_rows rs _ _) as [rows|] eqn:Hr; [|done].
    intros [= <-]. apply broadcast_rows_shape in Hr as [Hn Hall].
    eexists. by split_and!.
  - destruct (Delay.broadcast_rows (f len _) _ _) as [rows|] eqn:Hr; [|done].
    intros [= <-]. apply broadcast_rows_shape in Hr as [Hn Hall].
    eexists. by split_and!.
  - rewrite drop_0. intros [= <-]. eexists. split; [done|].
    split; [by rewrite length_replicate|]. split_and!; try done.
    apply Forall_replicate. by rewrite length_replicate.
Qed.

(** What [_init_data] leaves when it raises: nothing but the storage can
    have changed, and the storage only when the raise came from the
    seed. *)
Lemma init_data_raise d len b d' e :
  Delay._init_data d len b = (d', Some e) →
  Delay.length d' = Delay.length d ∧
  Delay.target d' = Delay.target d ∧
  Delay.method d' = Delay.method d ∧
  Delay._before_t0 d' = Delay._before_t0 d ∧
  Delay._access_to_step d' = Delay._access_to_step d ∧
  (d' = d ∨
   match Delay._before_t0 d with
   | None | Some (Delay.B_number _) => False
   | _ => e = ValueError ∧ is_Some (Delay.data d')
   end).
Proof.
  unfold Delay._init_data.
  destruct (match b with Some _ => _ | None => _ end).
  { intros [= <- <-]. split_and!; try done. by left. }
  destruct (Delay.assign_data d _) as [d1|e1] eqn:Ha.
  2:{ intros [= <- <-]. split_and!; try done. by left. }
  assert (∃ z, d1 = Delay.set_data d (Some z)) as [z ->].
  { unfold Delay.assign_data in Ha. destruct (Delay.data d).
    - case_decide; [|done]. injection Ha as <-. by eexists.
    - injection Ha as <-. by eexists. }
  clear Ha.
  cbn [Delay.set_data Delay.target Delay._before_t0 Delay.value
       Delay.batch_axis Delay.length Delay.method Delay._access_to_step
       Delay.data].
  destruct (Delay._before_t0 d) as [[x|r|rs|f]|] eqn:Hb; try done.
  - destruct (Delay.broadcast_row r _) as [r'|e'] eqn:Hr; [done|].
    cbn. intros [= <- <-]. split_and!; try done. right.
    split; [|done]. unfold Delay.broadcast_row in Hr.
    case_decide; [done|]. destruct r as [|? [|? ?]]; try done;
      by injection Hr as <-.
  - destruct (Delay.broadcast_rows rs _ _) as [rows|e'] eqn:Hr; [done|].
    intros [= <- <-]. split_and!; try done. right. split; [|done].
    by eapply broadcast_rows_raise.
  - destruct (Delay.broadcast_rows (f len _) _ _) as [rows|e'] eqn:Hr; [done|].
    intros [= <- <-]. split_and!; try done. right. split; [|done].
    by eapply broadcast_rows_raise.
Qed.

Lemma init_data_wf d len b d' :
  0 ≤ len → Delay._init_data d len b = (d', None) →
  delay_wf (Delay.set_length d' len).
Proof.
  intros Hlen H. destruct (init_data_rows _ _ _ _ Hlen H) as (rest & Hd & Hl & _).
  split; [done|]. cbn. intros rows. rewrite Hd. intros [= <-]. cbn. lia.
Qed.

(** What a registration that returned did: either the storage was left
    alone, or it was allocated for the larger lag. *)
Lemma register_entry_inv d entry tm st d' :
  Delay.register_entry d entry tm st = (d', None) →
  ∃ step d1,
    d' = Delay.set_entry d1 entry step ∧
    Delay._access_to_step d !! entry = None ∧
    (d1 = d ∨
     ∃ m s, Delay.length d < m ∧ Delay._init_data d m None = (s, None) ∧
            d1 = Delay.set_length s m).
Proof.
  unfold Delay.register_entry. case_decide as Hfresh; [done|].
  destruct (_ ≫= _) as [[step mx]|]; [|done].
  assert (Delay._access_to_step d !! entry = None) as Hnone.
  { destruct (Delay._access_to_step d !! entry) eqn:E; [|done].
    destruct Hfresh. by eexists. }
  destruct mx as [m|].
  - case_decide as Hlt.
    + destruct (Delay._init_data d m None) as [s [e|]] eqn:Hs; [done|].
      intros [= <-]. exists step, (Delay.set_length s m).
      split_and!; try done. right. by exists m, s.
    + intros [= <-]. exists step, d. split_and!; try done. by left.
  - intros [= <-]. exists step, d. split_and!; try done. by left.
Qed.

(** A registration that raised set neither the length nor the entry, and
    changed the object only through [_init_data]. *)
Lemma register_entry_raise d entry tm st d' e :
  Delay.register_entry d entry tm st = (d', Some e) →
  d' = d ∨ ∃ m, Delay.length d < m ∧ Delay._init_data d m None = (d', Some e).
Proof.
  unfold Delay.register_entry. case_decide as Hfresh; [intros [= <- <-]; by left|].
  destruct (_ ≫= _) as [[step mx]|]; [|intros [= <- <-]; by left].
  destruct mx as [m|]; [|done].
  case_decide as Hlt; [|done].
  destruct (Delay._init_data d m None) as [s [e'|]] eqn:Hs; [|done].
  intros [= <- <-]. right. by exists m.
Qed.

Lemma register_entry_wf d entry tm st d' :
  delay_wf d → Delay.register_entry d entry tm st = (d', None) → delay_wf d'.
Proof.
  intros Hwf (step & d1 & -> & _ & Hd1)%register_entry_inv.
  destruct Hd1 as [->|(m & s & Hlt & Hs & ->)]; [done|].
  destruct Hwf as [Hlen _].
  eapply (init_data_wf d m None s) in Hs; [|lia]. exact Hs.
Qed.

Section delay_facts.
Variable get_dt : pyobj.
Variable is_checking : bool.

Lemma update_wf share d v d' :
  delay_wf d → Delay.update get_dt share d v = Ok d' → delay_wf d'.
Proof.
  intros Hwf. pose proof Hwf as [Hlen Hrows]. unfold Delay.update.
  destruct (Delay.data d) as [rows|] eqn:Hd; [|by intros [= <-]].
  specialize (Hrows rows eq_refl).
  destruct (Delay.method d).
  - destruct (Delay.load_i get_dt share); [|done]. cbn.
    intros [= <-]. split; [done|]. cbn. intros ? [= <-].
    by rewrite length_insert.
  - case_decide; intros [= <-]; (split; [done|]); cbn; intros ? [= <-].
    + rewrite length_cons, length_drop. lia.
    + by rewrite length_insert.
  - by intros [= <-].
Qed.

(** *** What the concat method does to the rows *)

(** One concat update replaces the head row and keeps every other row,
    whichever branch is taken. *)
Lemma concat_update_head share d v r rest :
  Delay.method d = Delay.CONCAT_UPDATE →
  Delay.data d = Some (r :: rest) →
  Delay.update get_dt share d v =
    Ok (Delay.set_data d
          (Some (default (Delay.value (Delay.target d)) v :: rest))).
Proof.
  intros Hm Hd. unfold Delay.update. rewrite Hd, Hm. by case_decide.
Qed.

(** After any number of concat updates the rows below the head are
    still the ones the buffer started with. *)
Lemma concat_updates_keep_tail share d vs v r rest :
  Delay.method d = Delay.CONCAT_UPDATE →
  Delay.data d = Some (r :: rest) →
  updates get_dt share d (vs ++ [v]) =
    Ok (Delay.set_data d
          (Some (default (Delay.value (Delay.target d)) v :: rest))).
Proof.
  revert d r. induction vs as [|w vs IH]; intros d r Hm Hd; cbn.
  - by rewrite (concat_update_head _ _ _ r rest).
  - rewrite (concat_update_head _ _ _ r rest) by done. cbn.
    erewrite IH; [done|done|done].
Qed.

End delay_facts.

(** ** Reading a zero lag *)

Section zero_lag.
Variable get_dt : pyobj.
Variable is_checking : bool.

Lemma update_without_data share d v :
  Delay.data d = None → Delay.update get_dt share d v = Ok d.
Proof. intros H. unfold Delay.update. by rewrite H. Qed.

Lemma updates_without_data share d vs :
  Delay.data d = None → updates get_dt share d vs = Ok d.
Proof.
  intros H. induction vs as [|v vs IH]; [done|].
  cbn. by rewrite update_without_data.
Qed.

Lemma gather_head {A} (x : A) (l : list A) : gather (x :: l) 0 = Ok x.
Proof.
  unfold gather, jax_index. cbn [List.length].
  case_decide; [lia|].
  assert (Z.to_nat (Z.max 0 (Z.min (Z.of_nat (S (List.length l)) - 1) 0))
          = 0%nat) as -> by lia.
  done.
Qed.

(** C3 (as amended): on a buffer that uses the concat method, or that
    has no storage (length 0), an entry registered with lag 0 reads, after
    any non-empty sequence of updates, the value given to the last update
    when storage exists (the target's value when that update was given
    none), and the live value of the target when there is no storage. *)
Theorem at_zero_lag_after_updates share d entry vs v :
  delay_wf d →
  Delay._access_to_step d !! entry = Some (Some (Delay.homo 0)) →
  Delay.data d = None ∨ Delay.method d = Delay.CONCAT_UPDATE →
  ∃ d', updates get_dt share d (vs ++ [v]) = Ok d' ∧
        Delay.at_ get_dt is_checking share d' entry None =
          Ok (vec (match Delay.data d with
                   | None => Delay.value (Delay.target d)
                   | Some _ => default (Delay.value (Delay.target d)) v
                   end)).
Proof.
  intros [Hlen Hrows] Hentry Hcase.
  destruct (Delay.data d) as [rows|] eqn:Hd.
  - destruct Hcase as [|Hm]; [done|].
    specialize (Hrows rows eq_refl).
    destruct rows as [|r rest]; [cbn in Hrows; lia|].
    eexists. split; [by apply (concat_updates_keep_tail _ _ _ _ _ r rest)|].
    unfold Delay.at_. cbn. rewrite Hentry. unfold Delay.retrieve. cbn.
    rewrite Hm.
    replace (bool_decide (Delay.length d < 0)) with false
      by (symmetry; apply bool_decide_eq_false; lia).
    rewrite andb_false_r. unfold mbind, result_bind, Delay.index_data.
    by rewrite gather_head.
  - exists d. split; [by apply updates_without_data|].
    unfold Delay.at_. by rewrite Hentry, Hd.
Qed.
End zero_lag.

(** A buffer of length 0 never allocates storage; an update is then a
    no-op and a zero-lag entry reads the target, not the value pushed. *)
Definition zero_length_read : result array :=
  d ← new_delay 7 0 Delay.ROTATE_UPDATE;
  d ← returned (Delay.register_entry d "e" None (Some (Delay.S_int 0)));
  d ← Delay.update PNone (set_i _ShareContext.__init__ 1) d (Some [5]);
  Delay.at_ PNone true (set_i _ShareContext.__init__ 1) d "e" None.

(** C3 (counterexample): with length 0 the value [5] passed to the most
    recent update is not what a zero-lag entry returns; it returns the
    target's value [7]. *)
Lemma at_zero_lag_without_storage :
  zero_length_read = Ok (vec [7]) ∧ zero_length_read ≠ Ok (vec [5]).
Proof. by vm_compute. Qed.

(** The same read on a rotating buffer with storage, in the step of the
    update and in the step after it: the row read is not the row written. *)
Definition rotate_zero_lag_read (read_at : Z) : result array :=
  d ← new_delay 7 2 Delay.ROTATE_UPDATE;
  d ← returned (Delay.register_entry d "e" None (Some (Delay.S_int 0)));
  d ← Delay.update PNone (set_i _ShareContext.__init__ 1) d (Some [5]);
  Delay.at_ PNone true (set_i _ShareContext.__init__ read_at) d "e" None.

Lemma rotate_zero_lag_misses_update :
  rotate_zero_lag_read 1 = Ok (vec [9]) ∧ rotate_zero_lag_read 2 = Ok (vec [9]).
Proof. by vm_compute. Qed.

Lemma at_zero_lag_after_updates_witness :
  ∃ d, new_delay 7 1 Delay.CONCAT_UPDATE
         ≫= (λ d, returned (Delay.register_entry d "e" None
                                (Some (Delay.S_int 0)))) = Ok d ∧
  ∃ d', updates PNone _ShareContext.__init__ d ([Some [4]] ++ [Some [5]]) = Ok d' ∧
        Delay.at_ PNone true _ShareContext.__init__ d' "e" None = Ok (vec [5]).
Proof.
  eexists. split; [vm_compute; reflexivity|].
  refine (at_zero_lag_after_updates PNone true _ShareContext.__init__ _ "e"
            [Some [4]] (Some [5]) _ _ _).
  - split; [vm_compute; discriminate|].
    intros rows [= <-]. reflexivity.
  - vm_compute. reflexivity.
  - right. reflexivity.
Defined.

(** ** The concat method *)

(** A concat buffer of length 2 seeded with [9], fed [1], [2], [3]. *)
Definition concat_three_updates : result (option (list (list Z))) :=
  data_of (d ← new_delay 0 2 Delay.CONCAT_UPDATE;
           updates PNone _ShareContext.__init__ d
             [Some [1]; Some [2]; Some [3]]).

(** C1 (evaluation at the failing input): after [length + 1 = 3] updates
    the buffer does not hold [3; 2; 1]; only the head row was ever written
    and the two seed rows are still in place. *)
Theorem concat_three_updates_keep_seed :
  concat_three_updates = Ok (Some [[3]; [9]; [9]]) ∧
  concat_three_updates ≠ Ok (Some [[3]; [2]; [1]]).
Proof. by vm_compute. Qed.

(** ** The rotate method *)

(** A rotating buffer of length 3 fed [1], [2], [3], [4] at the counters
    [first .. first + 3], then read at lag 2 with the counter at
    [read_at]. *)
Definition rotate_four_updates (first read_at : Z) : result array :=
  d ← new_delay 0 3 Delay.ROTATE_UPDATE;
  '(share, d) ← run_updates PNone _ShareContext.__init__ d first
                  [[1]; [2]; [3]; [4]];
  Delay.retrieve PNone true (set_i share read_at) d (Some (Delay.homo 2)) None.

(** C2 (evaluation at the failing input): after [k = length + 1 = 4]
    updates, whether the counter starts at 0 or at 1, and whether the read
    happens in the step of the fourth update or in the step after it, lag
    2 never reads [2], the value pushed two updates before the last one:
    it reads [3] or [4]. *)
Theorem rotate_lag_2_after_four_updates :
  rotate_four_updates 1 4 = Ok (vec [3]) ∧
  rotate_four_updates 1 5 = Ok (vec [4]) ∧
  rotate_four_updates 0 3 = Ok (vec [3]) ∧
  rotate_four_updates 0 4 = Ok (vec [4]).
Proof. by vm_compute. Qed.

(** ** Registering larger lags *)

(** A rotating buffer of length 1 with an entry of lag 1, updated once
    with [5] at counter 1 ... *)
Definition history_before : result Delay.t :=
  d ← new_delay 0 1 Delay.ROTATE_UPDATE;
  d ← returned (Delay.register_entry d "a" None (Some (Delay.S_int 1)));
  Delay.update PNone (set_i _ShareContext.__init__ 1) d (Some [5]).

(** ... and then asked for a second entry of lag 2: the object after the
    call, and how the call ended. *)
Definition history_after : result (Delay.t * option exn) :=
  d ← history_before;
  Ok (Delay.register_entry d "b" None (Some (Delay.S_int 2))).

Definition read_a (r : result Delay.t) : result array :=
  d ← r; Delay.at_ PNone true (set_i _ShareContext.__init__ 1) d "a" None.

(** Once storage is in place a registration changes neither the length
    nor a row: with a lag within the length it adds the entry, with a
    larger lag the new array does not fit the variable that holds the
    storage and the call raises [MathError]. *)
Lemma register_on_storage d rows entry k d' e :
  Delay.data d = Some rows →
  List.length rows = Z.to_nat (Delay.length d + 1) →
  0 ≤ Delay.length d →
  Delay.register_entry d entry None (Some (Delay.S_int k)) = (d', e) →
  Delay.length d' = Delay.length d ∧
  Delay.data d' = Delay.data d ∧
  (Delay.length d < k →
   is_Some (Delay._access_to_step d !! entry) ∨ (e = Some MathError ∧ d' = d)).
Proof.
  intros Hd Hrows Hlen. unfold Delay.register_entry.
  case_decide as Hfresh.
  { intros [= <- <-]. split_and!; try done. by left. }
  cbn [mbind result_bind].
  case_decide as Hlt.
  - unfold Delay._init_data, Delay.assign_data. rewrite Hd.
    rewrite decide_False.
    + intros [= <- <-]. split_and!; try done. by right.
    + unfold Delay.shape_of. intros Heq.
      apply (f_equal List.length) in Heq.
      rewrite !length_map, length_replicate in Heq. lia.
  - intros [= <- <-]. split_and!; try done; lia.
Qed.

(** C4 (evaluation at the failing input): the buffer has length 1, its
    rows are [5] and [9], and entry ["a"] reads [5]; the registration of
    the larger lag 2 raises [MathError] and leaves the buffer as it was:
    the length is not grown and ["b"] is not registered. *)
Theorem register_larger_lag_on_storage_raises :
  Delay.length <$> history_before = Ok 1 ∧
  data_of history_before = Ok (Some [[5]; [9]]) ∧
  read_a history_before = Ok (vec [5]) ∧
  history_after = (λ d, (d, Some MathError)) <$> history_before.
Proof. by vm_compute. Qed.

(** ** The shared context *)

(** *** [save] *)

Lemma elem_of_range2 start count j :
  (j < count)%nat → (start + 2 * j)%nat ∈ _ShareContext.range2 start count.
Proof.
  revert start j. induction count as [|c IH]; intros start j Hj; [lia|].
  destruct j as [|j]; cbn [_ShareContext.range2].
  - replace (start + 2 * 0)%nat with start by lia. apply list_elem_of_here.
  - apply list_elem_of_further.
    replace (start + 2 * S j)%nat with (S (S start) + 2 * j)%nat by lia.
    apply IH. lia.
Qed.

(** Once the loop variable reaches an [i] with [2 * i] beyond the tuple,
    the first loop of [save] cannot finish normally. *)
Lemma save_positional_overrun args rng self i :
  i ∈ rng → (List.length args ≤ i * 2)%nat →
  (_ShareContext.save_positional self args rng).2 ≠ None.
Proof.
  revert self. induction rng as [|j rng IH]; intros self Hin Hi.
  { by apply not_elem_of_nil in Hin. }
  cbn [_ShareContext.save_positional].
  apply elem_of_cons in Hin as [<-|Hin].
  - unfold _ShareContext.getitem at 1.
    by rewrite (lookup_ge_None_2 args (i * 2)) by lia.
  - destruct (_ShareContext.getitem args (j * 2)); [|done].
    destruct (_ShareContext.getitem args (j * 2 + 1)); [|done].
    destruct (_ShareContext.save_item self a a0); [|done].
    by apply IH.
Qed.

(** X8: with two or more positional pairs [save] always raises: the loop
    variable already steps by two and is doubled again when indexing. *)
Lemma save_many_pairs_raises self args kwargs :
  Nat.even (List.length args) = true → (4 ≤ List.length args)%nat →
  (_ShareContext.save self args kwargs).2 ≠ None.
Proof.
  intros Heven Hlen. unfold _ShareContext.save. rewrite Heven. cbn [negb].
  pose proof (save_positional_overrun args
                (_ShareContext.range_0_n_2 (List.length args)) self
                (List.length args - 2)) as H.
  destruct (_ShareContext.save_positional self args _) as [self' [e|]]; [done|].
  exfalso. apply H; [|lia|done].
  apply Nat.even_spec in Heven as [m Hm]. unfold _ShareContext.range_0_n_2.
  replace (List.length args - 2)%nat with (0 + 2 * (m - 1))%nat by lia.
  apply elem_of_range2. rewrite Hm, Nat.div2_succ_double. lia.
Qed.

(** A single positional pair is routed as described. *)
Lemma save_one_pair self identifier data :
  _ShareContext.save self [identifier; data] [] =
    match _ShareContext.save_item self identifier data with
    | Ok self' => (self', None)
    | Raise e => (self, Some e)
    end.
Proof.
  unfold _ShareContext.save. cbn.
  by destruct (_ShareContext.save_item self identifier data).
Qed.

(** Routing of one pair: a [Delay] goes to [_delays] unless the name is
    taken there, anything else goes to [_arguments]. *)
Lemma save_item_routes self identifier data :
  match data with
  | PDelay h =>
    match _ShareContext._delays self !! identifier with
    | Some _ => _ShareContext.save_item self identifier data = Raise ValueError
    | None =>
      ∃ self', _ShareContext.save_item self identifier data = Ok self' ∧
               _ShareContext._delays self' !! identifier = Some h ∧
               _ShareContext._arguments self' = _ShareContext._arguments self
    end
  | _ =>
    ∃ self', _ShareContext.save_item self identifier data = Ok self' ∧
             _ShareContext._arguments self' !! identifier = Some data ∧
             _ShareContext._delays self' = _ShareContext._delays self
  end.
Proof.
  destruct data;
    try (eexists; split; [done|]; split; [by apply lookup_insert_eq|done]).
  unfold _ShareContext.save_item.
  destruct (_ShareContext._delays self !! identifier) eqn:E.
  - by rewrite decide_True by eauto.
  - rewrite decide_False by (by intros [? ?]).
    eexists. split; [done|]. split; [by apply lookup_insert_eq|done].
Qed.

Definition save_two_pairs : _ShareContext.t * option exn :=
  _ShareContext.save _ShareContext.__init__
    [PStr "a"; PInt 1; PStr "b"; PInt 2] [].

(** C5 (evaluation at the failing input): [save('a', 1, 'b', 2)] stores
    the first pair, then raises [IndexError] when it indexes [args[4]];
    ['b'] is never stored. *)
Theorem save_two_positional_pairs_raises :
  save_two_pairs.2 = Some IndexError ∧
  _ShareContext._arguments save_two_pairs.1 !! PStr "a" = Some (PInt 1) ∧
  _ShareContext._arguments save_two_pairs.1 !! PStr "b" = None.
Proof. by vm_compute. Qed.

(** *** [load] *)

(** C6: [load] answers ['dt'] through the accessor [dt], which falls back
    to the global default step and never fails; any other key is looked up
    in [_arguments], then in [_delays]; a key found in neither yields the
    default when one was given, and raises [KeyError] exactly when none was
    ([None] is the omitted default). *)
Theorem load_cases get_dt self key value :
  (key = PStr "dt" →
     _ShareContext.load get_dt self key value = Ok (_ShareContext.dt get_dt self) ∧
     _ShareContext.dt get_dt self =
       default get_dt (_ShareContext._arguments self !! PStr "dt")) ∧
  (key ≠ PStr "dt" →
     (∀ v, _ShareContext._arguments self !! key = Some v →
           _ShareContext.load get_dt self key value = Ok v) ∧
     (∀ h, _ShareContext._arguments self !! key = None →
           _ShareContext._delays self !! key = Some h →
           _ShareContext.load get_dt self key value = Ok (PDelay h)) ∧
     (_ShareContext._arguments self !! key = None →
      _ShareContext._delays self !! key = None →
      value ≠ PNone →
      _ShareContext.load get_dt self key value = Ok value)) ∧
  (∀ e, _ShareContext.load get_dt self key value = Raise e ↔
        e = KeyError ∧ key ≠ PStr "dt" ∧
        _ShareContext._arguments self !! key = None ∧
        _ShareContext._delays self !! key = None ∧
        value = PNone).
Proof.
  unfold _ShareContext.load, _ShareContext.dt.
  split; [|split].
  - intros ->. rewrite decide_True by done.
    by destruct (_ShareContext._arguments self !! PStr "dt").
  - intros Hk. rewrite decide_False by done. repeat split.
    + by intros v ->.
    + by intros h -> ->.
    + intros -> -> Hv. by rewrite decide_False.
  - intros e. case_decide as Hk.
    { split; [done|]. by intros (_ & ? & _). }
    destruct (_ShareContext._arguments self !! key) eqn:Ha.
    { split; [done|]. by intros (_ & _ & ? & _). }
    destruct (_ShareContext._delays self !! key) eqn:Hd.
    { split; [done|]. by intros (_ & _ & _ & ? & _). }
    case_decide as Hv.
    + split; [by intros [= <-]|]. by intros (-> & _).
    + split; [done|]. by intros (_ & _ & _ & _ & ?).
Qed.

Lemma load_cases_witness :
  _ShareContext.load (PFloat 1) _ShareContext.__init__ (PStr "dt") PNone
    = Ok (PFloat 1) ∧
  _ShareContext.load (PFloat 1) _ShareContext.__init__ (PStr "t") (PInt 3)
    = Ok (PInt 3) ∧
  _ShareContext.load (PFloat 1) _ShareContext.__init__ (PStr "t") PNone
    = Raise KeyError.
Proof.
  split; [|split].
  - exact (proj1 (proj1 (load_cases (PFloat 1) _ShareContext.__init__
                           (PStr "dt") PNone) eq_refl)).
  - refine (proj2 (proj2 (proj1 (proj2 (load_cases (PFloat 1)
              _ShareContext.__init__ (PStr "t") (PInt 3))) _)) _ _ _);
      [discriminate|reflexivity|reflexivity|discriminate].
  - refine (proj2 (proj2 (proj2 (load_cases (PFloat 1) _ShareContext.__init__
                                   (PStr "t") PNone)) KeyError) _).
    repeat split; (reflexivity || discriminate).
Defined.

(** ** What the rotate method returns *)

Section rotate_facts.
Variable get_dt : pyobj.
Variable is_checking : bool.

Lemma load_i_set_i share i :
  Delay.load_i get_dt (set_i share i) = Ok i.
Proof.
  unfold Delay.load_i, set_i, _ShareContext.load. cbn.
  rewrite decide_False by done. by rewrite lookup_insert_eq.
Qed.

(** Two counters less than a full turn apart write different rows. *)
Lemma rotate_rows_distinct (a k n : Z) :
  0 < k < n → Z.to_nat ((a + k) `mod` n) ≠ Z.to_nat (a `mod` n).
Proof.
  intros Hk Heq.
  assert (0 ≤ (a + k) `mod` n < n) by (apply Z.mod_pos_bound; lia).
  assert (0 ≤ a `mod` n < n) by (apply Z.mod_pos_bound; lia).
  assert ((a + k) `mod` n = a `mod` n) as Hmod by lia.
  assert (k `mod` n = 0) as Hk0.
  { replace k with ((a + k) - a) by lia.
    rewrite Zminus_mod, Hmod, Z.sub_diag. by apply Zmod_0_l. }
  rewrite Z.mod_small in Hk0 by lia. lia.
Qed.

(** Rows after a run of rotate updates that does not exceed one turn:
    the value pushed at counter [c + j] sits in row [(c + j - 1) mod
    (length + 1)], and every other row is untouched. *)
Lemma run_updates_rotate vs : ∀ share d c rows,
  Delay.method d = Delay.ROTATE_UPDATE →
  Delay.data d = Some rows →
  0 ≤ Delay.length d →
  List.length rows = Z.to_nat (Delay.length d + 1) →
  (List.length vs ≤ List.length rows)%nat →
  ∃ share' rows',
    run_updates get_dt share d c vs = Ok (share', Delay.set_data d (Some rows')) ∧
    List.length rows' = List.length rows ∧
    (vs ≠ [] →
     Delay.load_i get_dt share' = Ok (c + Z.of_nat (List.length vs) - 1)) ∧
    (∀ j v, vs !! j = Some v →
       rows' !! Z.to_nat ((c + Z.of_nat j - 1) `mod` (Delay.length d + 1))
         = Some v) ∧
    (∀ r, (∀ j, (j < List.length vs)%nat →
             r ≠ Z.to_nat ((c + Z.of_nat j - 1) `mod` (Delay.length d + 1))) →
          rows' !! r = rows !! r).
Proof.
  induction vs as [|v vs IH]; intros share d c rows Hm Hd Hlen Hrows Hvs.
  { exists share, rows. cbn. split_and!; try done.
    destruct d; cbn in *; by subst. }
  cbn [run_updates]. unfold Delay.update at 1. rewrite Hd, Hm.
  rewrite load_i_set_i. cbn [mbind result_bind default].
  set (n := Delay.length d + 1) in *.
  set (rows1 := <[Z.to_nat ((c - 1) `mod` n) := v]> rows).
  assert (0 ≤ (c - 1) `mod` n < n) as Hidx by (apply Z.mod_pos_bound; lia).
  destruct (IH (set_i share c) (Delay.set_data d (Some rows1)) (c + 1) rows1)
    as (share' & rows' & Hrun & Hl' & Hload & Hin & Hout); try done.
  { unfold rows1. rewrite length_insert. exact Hrows. }
  { unfold rows1. rewrite length_insert. cbn in Hvs. lia. }
  cbn [Delay.length Delay.set_data] in Hin, Hout.
  exists share', rows'. split_and!.
  - etrans; [exact Hrun|]. by destruct d.
  - rewrite Hl'. unfold rows1. by rewrite length_insert.
  - intros _. destruct vs as [|w vs'].
    + cbn [run_updates] in Hrun. injection Hrun as <- _.
      rewrite load_i_set_i.
      f_equal. cbn. lia.
    + rewrite Hload by done. f_equal. cbn [List.length]. lia.
  - intros [|j] w Hj.
    + injection Hj as <-. rewrite Hout.
      * unfold rows1. replace (c + Z.of_nat 0 - 1) with (c - 1) by lia.
        apply list_lookup_insert_eq. lia.
      * intros j Hj. replace (c + Z.of_nat 0 - 1) with (c - 1) by lia.
        replace (c + 1 + Z.of_nat j - 1) with ((c - 1) + (Z.of_nat j + 1)) by lia.
        intros Heq. symmetry in Heq. revert Heq. apply rotate_rows_distinct.
        cbn in Hvs. lia.
    + cbn in Hj. apply Hin in Hj.
      by replace (c + Z.of_nat (S j) - 1) with (c + 1 + Z.of_nat j - 1) by lia.
  - intros r Hr. rewrite Hout.
    + unfold rows1. apply list_lookup_insert_ne.
      specialize (Hr 0%nat ltac:(cbn; lia)).
      by replace (c + Z.of_nat 0 - 1) with (c - 1) in Hr by lia.
    + intros j Hj. specialize (Hr (S j) ltac:(cbn; lia)).
      by replace (c + Z.of_nat (S j) - 1) with (c + 1 + Z.of_nat j - 1) in Hr by lia.
Qed.

(** Reading a row that exists. *)
Lemma gather_in_range {A} (l : list A) (k : Z) (x : A) :
  0 ≤ k → l !! Z.to_nat k = Some x → gather l k = Ok x.
Proof.
  intros Hk Hx. unfold gather, jax_index.
  pose proof (lookup_lt_Some _ _ _ Hx) as Hlt.
  destruct (List.length l) as [|m] eqn:Hl; [lia|].
  rewrite decide_False by lia.
  replace (Z.to_nat (Z.max 0 (Z.min (Z.of_nat (S m) - 1) k)))
    with (Z.to_nat k) by lia.
  by rewrite Hx.
Qed.

(** X2: after one full turn of updates [v_0 .. v_length], performed
    at successive counters, a read in the step of the last update returns for
    lag [L] the value [v_L]: the oldest value for lag 0 and the newest for
    lag [length]. The lags are served in the reverse of the order the
    buffer is documented to have. *)
Lemma rotate_retrieve_after_full_turn share d c rows vs (L : nat) v :
  Delay.method d = Delay.ROTATE_UPDATE →
  Delay.data d = Some rows →
  0 ≤ Delay.length d →
  List.length rows = Z.to_nat (Delay.length d + 1) →
  List.length vs = List.length rows →
  vs !! L = Some v →
  ∃ share' d',
    run_updates get_dt share d c vs = Ok (share', d') ∧
    Delay.retrieve get_dt is_checking share' d'
      (Some (Delay.homo (Z.of_nat L))) None = Ok (vec v).
Proof.
  intros Hm Hd Hlen Hrows Hvs HL.
  destruct (run_updates_rotate vs share d c rows Hm Hd Hlen Hrows ltac:(lia))
    as (share' & rows' & Hrun & Hl' & Hload & Hin & _).
  exists share', (Delay.set_data d (Some rows')). split; [done|].
  pose proof (lookup_lt_Some _ _ _ HL) as HLlt.
  unfold Delay.retrieve. cbn [Delay.length Delay.set_data Delay.method Delay.data].
  replace (Delay.any_gt (Delay.homo (Z.of_nat L)) (Delay.length d)) with false.
  2:{ symmetry. apply bool_decide_eq_false. lia. }
  rewrite andb_false_r, Hm, Hload by (by intros ->).
  cbn [mbind result_bind]. unfold Delay.index_data.
  set (n := Delay.length d + 1) in *.
  assert ((c + Z.of_nat (List.length vs) - 1 + Z.of_nat L) `mod` n
          = (c + Z.of_nat L - 1) `mod` n) as ->.
  { replace (c + Z.of_nat (List.length vs) - 1 + Z.of_nat L)
      with ((c + Z.of_nat L - 1) + 1 * n) by lia.
    apply Z_mod_plus_full. }
  rewrite (gather_in_range rows' _ v); [done| |by apply Hin].
  apply Z.mod_pos_bound. lia.
Qed.

End rotate_facts.

(** ** Further properties of the delay buffer *)

Lemma init_data_inv d len b d' :
  1 ≤ len → Delay._init_data d len b = (d', None) →
  delay_inv (Delay.set_length d' len).
Proof.
  intros Hlen H.
  destruct (init_data_rows d len b d' ltac:(lia) H) as (rest & Hd & Hl & _).
  split; [cbn; lia|]. cbn. rewrite Hd. cbn. lia.
Qed.

Lemma register_entry_keeps_inv d entry tm st d' :
  delay_inv d → Delay.register_entry d entry tm st = (d', None) →
  delay_inv d'.
Proof.
  intros Hinv (step & d1 & -> & _ & Hd1)%register_entry_inv.
  destruct Hd1 as [->|(m & s & Hlt & Hs & ->)]; [done|].
  destruct Hinv as [Hlen _].
  apply (init_data_inv d m None s) in Hs; [exact Hs|lia].
Qed.

Lemma register_entries_keep_inv es : ∀ d d',
  delay_inv d → Delay.register_entries d es = (d', None) → delay_inv d'.
Proof.
  induction es as [|[entry tm] es IH]; intros d d' Hinv; cbn.
  { by intros [= <-]. }
  destruct (Delay.register_entry d entry tm None) as [d1 [e|]] eqn:H1;
    [done|].
  intros H. eapply IH; [|exact H].
  by eapply register_entry_keeps_inv.
Qed.

Lemma returned_Ok {S} (o : S * option exn) s :
  returned o = Ok s ↔ o = (s, None).
Proof.
  destruct o as [s' [e|]]; cbn; split; try done.
  - by intros [= <-].
  - by intros [= <-].
Qed.

Lemma init_keeps_inv mode target len b entries m d :
  Delay.__init__ mode target len b entries m = Ok d → delay_inv d.
Proof.
  unfold Delay.__init__.
  set (method := match m with Some m0 => m0 | None => _ end).
  assert (∀ d0, delay_inv d0 →
            match entries with
            | Some es => returned (Delay.register_entries d0 es)
            | None => Raise AttributeError
            end = Ok d → delay_inv d) as Hentries.
  { intros d0 Hd0. destruct entries as [es|]; [|done].
    intros H%returned_Ok. by eapply register_entries_keep_inv. }
  assert ((if decide (len < 0) then Raise ValueError
           else
             (if decide (0 < len)
              then returned (Delay._init_data
                               (Delay.mk target len b method None ∅) len None)
              else Ok (Delay.mk target len b method None ∅))
             ≫= λ self, match entries with
                        | Some es => returned (Delay.register_entries self es)
                        | None => Raise AttributeError
                        end) = Ok d → delay_inv d) as Hbody.
  { case_decide as Hneg; [done|]. case_decide as Hpos.
    - intros H. bind_inv H d0 H0. apply (Hentries d0); [|done].
      apply returned_Ok in H0.
      destruct (init_data_rows _ len None d0 ltac:(lia) H0)
        as (rest & Hd & Hl & Hlen & _).
      apply (init_data_inv _ len None d0) in H0; [|lia].
      cbn in Hlen. destruct d0; cbn in *. by subst.
    - cbn. apply Hentries. split; cbn; lia. }
  by destruct method.
Qed.

(** With a plain seed nothing can raise once the storage is assigned, so
    a raise leaves the buffer as it was. *)
Lemma init_data_raise_plain d len b d' e :
  plain_seed d → Delay._init_data d len b = (d', Some e) → d' = d.
Proof.
  intros Hseed H. apply init_data_raise in H as (_ & _ & _ & _ & _ & [H|H]);
    [done|].
  unfold plain_seed in Hseed.
  by destruct (Delay._before_t0 d) as [[]|].
Qed.

Lemma register_entry_seed d entry tm st d' e :
  Delay.register_entry d entry tm st = (d', e) →
  Delay._before_t0 d' = Delay._before_t0 d.
Proof.
  destruct e as [e|]; intros H.
  - apply register_entry_raise in H as [->|(m & _ & H)]; [done|].
    apply init_data_fields in H. by rewrite H.
  - apply register_entry_inv in H as (step & d1 & -> & _ & [->|H]); [done|].
    destruct H as (m & s & Hlt & Hs & ->).
    apply init_data_fields in Hs. by rewrite Hs.
Qed.

Lemma reset_state_seed d b d' e :
  Delay.reset_state d b = (d', e) →
  Delay._before_t0 d' = Delay._before_t0 d.
Proof.
  unfold Delay.reset_state. destruct (Delay.data d); [|by intros [= <- <-]].
  intros H. apply init_data_fields in H. by rewrite H.
Qed.

Lemma update_keeps_inv get_dt share d v d' :
  delay_inv d → Delay.update get_dt share d v = Ok d' → delay_inv d'.
Proof.
  intros Hinv. pose proof Hinv as [Hlen Hrows]. unfold Delay.update.
  destruct (Delay.data d) as [rows|] eqn:Hd; [|by intros [= <-]].
  destruct Hrows as [Hpos Hrows].
  destruct (Delay.method d).
  - destruct (Delay.load_i get_dt share); [|done]. cbn.
    intros [= <-]. split; [done|]. cbn. by rewrite length_insert.
  - case_decide; intros [= <-]; (split; [done|]);
      cbn [Delay.data Delay.set_data Delay.length]; (split; [done|]).
    + rewrite length_cons, length_drop. lia.
    + by rewrite length_insert.
  - by intros [= <-].
Qed.

Lemma update_seed get_dt share d v d' :
  Delay.update get_dt share d v = Ok d' →
  Delay._before_t0 d' = Delay._before_t0 d.
Proof.
  unfold Delay.update.
  destruct (Delay.data d) as [rows|]; [|by intros [= <-]].
  destruct (Delay.method d).
  - destruct (Delay.load_i get_dt share); [|done]. cbn. by intros [= <-].
  - case_decide; by intros [= <-].
  - by intros [= <-].
Qed.

Lemma reset_state_keeps_inv d b d' :
  delay_inv d → Delay.reset_state d b = (d', None) → delay_inv d'.
Proof.
  intros [Hlen Hrows]. unfold Delay.reset_state.
  destruct (Delay.data d) as [rows|] eqn:Hd.
  - intros H. destruct Hrows as [Hpos _].
    destruct (init_data_rows d (Delay.length d) b d' ltac:(lia) H)
      as (_ & _ & _ & Hl & _).
    apply (init_data_inv d (Delay.length d) b d') in H; [|done].
    destruct d'; cbn in *. by subst.
  - intros [= <-]. split; [done|]. by rewrite Hd.
Qed.

(** X1: every buffer a program can hold whose seed is absent or a
    number, however it was built and whether the calls that built it
    returned or raised, has a non-negative length, has storage exactly
    when the length is positive, and then holds one row per lag from 0 to
    the length. *)
Theorem built_delay_invariant d : built d → plain_seed d → delay_inv d.
Proof.
  induction 1 as [?????? d H|d entry tm st d' e _ IH H|g sh d v d' _ IH H
                  |d b d' e _ IH H|d v _ IH]; intros Hseed.
  - by eapply init_keeps_inv.
  - assert (plain_seed d) as Hd.
    { unfold plain_seed in *. by rewrite <- (register_entry_seed _ _ _ _ _ _ H). }
    destruct e as [e|]; [|by eapply register_entry_keeps_inv; eauto].
    apply register_entry_raise in H as [->|(m & _ & H)]; [by apply IH|].
    apply init_data_raise_plain in H as ->; [by apply IH|done].
  - apply (update_keeps_inv g sh d v); [|done]. apply IH.
    unfold plain_seed in *.
    by rewrite <- (update_seed g sh d v d' H).
  - assert (plain_seed d) as Hd.
    { unfold plain_seed in *. by rewrite <- (reset_state_seed _ _ _ _ H). }
    destruct e as [e|]; [|by eapply reset_state_keeps_inv; eauto].
    unfold Delay.reset_state in H.
    destruct (Delay.data d); [|injection H as <-; by apply IH].
    apply init_data_raise_plain in H as ->; [by apply IH|done].
  - destruct (IH Hseed) as [Hlen Hrows]. by split.
Qed.

(** The condition on the seed is needed: a registration that raises while
    the seed is written has already bound the storage and has not yet set
    the length. *)
Lemma raise_while_seeding_leaves_storage :
  Delay.register_entry two_row_seed "e" None (Some (Delay.S_int 3))
  = (Delay.set_data two_row_seed (Some [[0]; [0]; [0]; [0]]),
     Some ValueError).
Proof. reflexivity. Qed.

Lemma built_delay_invariant_witness :
  match history_after with
  | Ok (d, _) => delay_inv d
  | Raise _ => False
  end.
Proof.
  destruct (is_Ok_inv history_after) as [[d e] Hd]; [vm_compute; reflexivity|].
  rewrite Hd.
  assert (plain_seed d) as Hseed.
  { revert Hd. vm_compute. by intros [= <- _]. }
  apply built_delay_invariant; [|exact Hseed].
  unfold history_after in Hd. bind_inv Hd d2 H2. injection Hd as Hd.
  unfold history_before in H2. bind_inv H2 d0 H0. bind_inv H2 d1 H1.
  apply returned_Ok in H1.
  eapply built_register; [|exact Hd].
  eapply built_update; [|exact H2].
  eapply built_register; [|exact H1].
  eapply built_init. exact H0.
Defined.

Lemma rotate_retrieve_after_full_turn_witness :
  ∃ share' d',
    run_updates PNone _ShareContext.__init__ rotating_buffer 1
      [[1]; [2]; [3]; [4]] = Ok (share', d') ∧
    Delay.retrieve PNone true share' d' (Some (Delay.homo 2)) None
      = Ok (vec [3]).
Proof.
  exact (rotate_retrieve_after_full_turn PNone true _ShareContext.__init__
           rotating_buffer 1 [[0]; [9]; [9]; [9]] [[1]; [2]; [3]; [4]]
           2%nat [3] eq_refl eq_refl ltac:(vm_compute; discriminate)
           eq_refl eq_refl eq_refl).
Defined.

(** X3: on a concat buffer with storage, any non-empty sequence of
    updates leaves the value of the last update in row 0 and every other
    row exactly as it was: no pushed value ever reaches a row of lag 1 or
    more. *)
Theorem concat_updates_write_row_0_only get_dt share d vs v rows :
  Delay.method d = Delay.CONCAT_UPDATE →
  Delay.data d = Some rows →
  rows ≠ [] →
  ∃ d', updates get_dt share d (vs ++ [v]) = Ok d' ∧
        Delay.data d' =
          Some (default (Delay.value (Delay.target d)) v :: drop 1 rows) ∧
        Delay.length d' = Delay.length d ∧
        Delay._access_to_step d' = Delay._access_to_step d.
Proof.
  intros Hm Hd Hne. destruct rows as [|r rest]; [done|].
  eexists. split; [by apply (concat_updates_keep_tail _ _ _ _ _ r rest)|].
  done.
Qed.

Lemma concat_updates_write_row_0_only_witness :
  ∃ d', updates PNone _ShareContext.__init__ concat_buffer
          ([Some [7; 7]] ++ [Some [8; 8]]) = Ok d' ∧
        Delay.data d' = Some [[8; 8]; [3; 4]; [5; 6]].
Proof.
  destruct (concat_updates_write_row_0_only PNone _ShareContext.__init__
              concat_buffer [Some [7; 7]] (Some [8; 8])
              [[1; 2]; [3; 4]; [5; 6]] eq_refl eq_refl
              ltac:(discriminate)) as (d' & H1 & H2 & _).
  exists d'. split; [exact H1|exact H2].
Defined.

Section retrieve_bounds.
Variable get_dt : pyobj.

(** X4: with checking disabled, a rotate read on a buffer with storage and
    an integer step counter never fails, whatever the lag: it returns a
    stored row, and a lag is indistinguishable from the same lag plus
    [length + 1], so a lag beyond the length silently reads the row of a
    shorter lag. *)
Theorem rotate_retrieve_unchecked share d i k rows :
  Delay.method d = Delay.ROTATE_UPDATE →
  Delay.data d = Some rows →
  0 ≤ Delay.length d →
  List.length rows = Z.to_nat (Delay.length d + 1) →
  Delay.load_i get_dt share = Ok i →
  (∃ r, Delay.retrieve get_dt false share d (Some (Delay.homo k)) None
          = Ok (vec r) ∧
        rows !! Z.to_nat ((i + k) `mod` (Delay.length d + 1)) = Some r) ∧
  Delay.retrieve get_dt false share d
    (Some (Delay.homo (k + (Delay.length d + 1)))) None
  = Delay.retrieve get_dt false share d (Some (Delay.homo k)) None.
Proof.
  intros Hm Hd Hlen Hrows Hi. unfold Delay.retrieve. cbn [andb].
  rewrite Hm, Hi, Hd. cbn [mbind result_bind Delay.index_data].
  set (n := Delay.length d + 1) in *.
  assert (0 ≤ (i + k) `mod` n < n) as Hidx by (apply Z.mod_pos_bound; lia).
  split.
  - destruct (lookup_lt_is_Some_2 rows (Z.to_nat ((i + k) `mod` n)))
      as [r Hr]; [lia|].
    exists r. split; [|done].
    by rewrite (gather_in_range rows _ r) by (done || lia).
  - replace (i + (k + n)) with (i + k + 1 * n) by lia.
    by rewrite Z_mod_plus_full.
Qed.

End retrieve_bounds.

Lemma rotate_retrieve_unchecked_witness :
  Delay.retrieve PNone false (set_i _ShareContext.__init__ 6) rotating_buffer
    (Some (Delay.homo (1 + (3 + 1)))) None
  = Delay.retrieve PNone false (set_i _ShareContext.__init__ 6) rotating_buffer
      (Some (Delay.homo 1)) None.
Proof.
  exact (proj2 (rotate_retrieve_unchecked PNone
                  (set_i _ShareContext.__init__ 6) rotating_buffer 6 1
                  [[0]; [9]; [9]; [9]] eq_refl eq_refl
                  ltac:(vm_compute; discriminate) eq_refl eq_refl)).
Defined.


(** X5: a registration with an integer lag that returns has recorded
    exactly that lag under the new name, left every other entry as it
    was, and made the name unavailable: any later registration under it
    raises [KeyError], whatever its arguments, and changes nothing. *)
Theorem register_entry_records d entry k d' :
  Delay.register_entry d entry None (Some (Delay.S_int k)) = (d', None) →
  Delay._access_to_step d !! entry = None ∧
  Delay._access_to_step d' !! entry = Some (Some (Delay.homo k)) ∧
  (∀ e, e ≠ entry →
        Delay._access_to_step d' !! e = Delay._access_to_step d !! e) ∧
  (∀ tm st, Delay.register_entry d' entry tm st = (d', Some KeyError)).
Proof.
  intros H.
  destruct (register_entry_inv _ _ _ _ _ H) as (step & d1 & -> & Hnone & Hd1).
  assert (step = Some (Delay.homo k)) as ->.
  { unfold Delay.register_entry in H. case_decide; [done|].
    cbn [mbind result_bind] in H.
    destruct (if decide (Delay.length d < k) then _ else _) as [s [e|]];
      [done|].
    apply (f_equal (λ p, Delay._access_to_step p.1 !! entry)) in H.
    cbn in H. rewrite !lookup_insert_eq in H. by injection H as <-. }
  assert (Delay._access_to_step d1 = Delay._access_to_step d) as Hsame.
  { destruct Hd1 as [->|(m & s & _ & Hs & ->)]; [done|].
    apply init_data_fields in Hs. by rewrite Hs. }
  split_and!.
  - done.
  - cbn. by rewrite lookup_insert_eq.
  - intros e He. cbn. by rewrite lookup_insert_ne, Hsame.
  - intros tm st. unfold Delay.register_entry. cbn.
    rewrite decide_True; [done|]. rewrite lookup_insert_eq. by eexists.
Qed.

Lemma register_entry_records_witness :
  let d' := (Delay.register_entry rotating_buffer "e" None
               (Some (Delay.S_int 2))).1 in
  Delay._access_to_step d' !! "e" = Some (Some (Delay.homo 2)) ∧
  Delay.register_entry d' "e" None None = (d', Some KeyError).
Proof.
  intros d'.
  destruct (register_entry_records rotating_buffer "e" 2 d' eq_refl)
    as (_ & H2 & _ & H4).
  split; [exact H2|apply H4].
Defined.




(** A traversal that succeeds on every element returns the results in
    the positions of the elements. *)
Lemma traverse_lookup {A B} (f : A → result B) (l : list A) :
  (∀ x, x ∈ l → ∃ y, f x = Ok y) →
  ∃ ys, traverse f l = Ok ys ∧ List.length ys = List.length l ∧
        ∀ i x, l !! i = Some x → ∃ y, ys !! i = Some y ∧ f x = Ok y.
Proof.
  induction l as [|x l IH]; intros Hf.
  { exists []. by split_and!. }
  destruct (Hf x) as [y Hy]; [apply list_elem_of_here|].
  destruct IH as (ys & Hys & Hl & Hi).
  { intros z Hz. apply Hf. by apply list_elem_of_further. }
  exists (y :: ys). split_and!.
  - rewrite traverse_cons, Hy. cbn. by rewrite Hys.
  - cbn. by rewrite Hl.
  - intros [|i] z Hz; cbn in *.
    + injection Hz as <-. by exists y.
    + by apply Hi.
Qed.

Section heterogeneous.
Variable get_dt : pyobj.
Variable is_checking : bool.

(** X7: an entry registered with one lag per element reads, for each
    position [p], element [p] of the row that serves the lag of that
    position (the lag itself under the concat method, the counter plus
    the lag modulo [length + 1] under the rotate method): the gather runs
    along the diagonal, not over whole rows. *)
Theorem at_heterogeneous share d entry ks rows (row_of : Z → Z) :
  Delay.data d = Some rows →
  Delay._access_to_step d !! entry = Some (Some (Delay.heter ks)) →
  List.length ks = Delay.delay_target_shape d →
  Forall (λ k, 0 ≤ k ≤ Delay.length d) ks →
  0 ≤ Delay.length d →
  List.length rows = Z.to_nat (Delay.length d + 1) →
  Forall (λ r, List.length r = List.length ks) rows →
  match Delay.method d with
  | Delay.CONCAT_UPDATE => row_of = (λ k, k)
  | Delay.ROTATE_UPDATE =>
    ∃ i, Delay.load_i get_dt share = Ok i ∧
         row_of = (λ k, (i + k) `mod` (Delay.length d + 1))
  | Delay.OTHER_UPDATE => False
  end →
  ∃ xs, Delay.at_ get_dt is_checking share d entry None = Ok (vec xs) ∧
        List.length xs = List.length ks ∧
        ∀ p k, ks !! p = Some k →
               ∃ r, rows !! Z.to_nat (row_of k) = Some r ∧ xs !! p = r !! p.
Proof.
  intros Hd Hentry Hshape Hks Hlen Hrows Hwidth Hm.
  unfold Delay.at_. rewrite Hentry, Hd. rewrite decide_True by done.
  unfold Delay.retrieve.
  replace (Delay.any_gt (Delay.heter ks) (Delay.length d)) with false.
  2:{ symmetry. cbn. apply not_true_is_false. intros Hex.
      apply existsb_exists in Hex as (k & Hk%list_elem_of_In & Hgt).
      apply bool_decide_eq_true in Hgt.
      rewrite Forall_forall in Hks. specialize (Hks k Hk). lia. }
  rewrite andb_false_r.
  set (n := Delay.length d + 1) in *.
  assert (∃ js, (match Delay.method d with
                 | Delay.ROTATE_UPDATE =>
                   Delay.load_i get_dt share ≫= λ i,
                     Ok (Delay.heter (map (λ k, (i + k) `mod` n) ks))
                 | Delay.CONCAT_UPDATE => Ok (Delay.heter ks)
                 | Delay.OTHER_UPDATE => Raise ValueError
                 end) = Ok (Delay.heter js) ∧ js = map row_of ks ∧
                Forall (λ j, 0 ≤ j < n) js) as (js & -> & -> & Hjs).
  { destruct (Delay.method d).
    - destruct Hm as (i & -> & ->). eexists. split; [done|]. split; [done|].
      apply Forall_fmap, Forall_true. intros k. apply Z.mod_pos_bound. lia.
    - subst row_of. exists ks. split; [done|]. split; [by rewrite map_id|].
      eapply Forall_impl; [exact Hks|]. intros k Hk. cbv beta in Hk |- *.
      unfold n. lia.
    - done. }
  cbn [mbind result_bind]. rewrite Hd. unfold Delay.index_data.
  rewrite decide_True by (by rewrite length_map, length_map, length_seq).
  set (ps := map Z.of_nat (seq 0 (List.length ks))).
  destruct (traverse_lookup
              (λ kp : Z * Z, gather rows kp.1 ≫= λ r, gather r kp.2)
              (zip (map row_of ks) ps)) as (xs & Hxs & Hl & Hi).
  { intros [j p] Hjp. apply list_elem_of_lookup in Hjp as [q Hq].
    apply lookup_zip_with_Some in Hq as (j' & p' & [= <- <-] & Hj & Hp).
    unfold ps in Hp. rewrite list_lookup_fmap in Hp.
    apply fmap_Some in Hp as (m & [-> Hq]%lookup_seq & ->). cbn [Nat.add].
    rewrite Forall_forall in Hjs.
    specialize (Hjs j (list_elem_of_lookup_2 _ _ _ Hj)). cbn in Hjs.
    destruct (lookup_lt_is_Some_2 rows (Z.to_nat j)) as [r Hr]; [lia|].
    rewrite Forall_forall in Hwidth.
    specialize (Hwidth r (list_elem_of_lookup_2 _ _ _ Hr)).
    destruct (lookup_lt_is_Some_2 r q) as [x Hx]; [lia|].
    exists x. cbn. rewrite (gather_in_range rows j r) by (lia || done).
    cbn. apply gather_in_range; [lia|]. by rewrite Nat2Z.id. }
  exists xs. rewrite Hxs. split; [done|]. split.
  { rewrite Hl, length_zip_with, length_map. unfold ps.
    rewrite length_map, length_seq. lia. }
  intros p k Hk.
  pose proof (lookup_lt_Some _ _ _ Hk) as Hp.
  destruct (Hi p (row_of k, Z.of_nat p)) as (x & Hx & Hfx).
  { apply lookup_zip_with_Some. exists (row_of k), (Z.of_nat p).
    split; [done|]. split; [by rewrite list_lookup_fmap, Hk|].
    unfold ps. by rewrite list_lookup_fmap, lookup_seq_lt. }
  cbn in Hfx.
  rewrite Forall_forall in Hjs.
  assert (0 ≤ row_of k < n) as Hj.
  { apply Hjs. apply list_elem_of_fmap. exists k. split; [done|].
    by eapply list_elem_of_lookup_2. }
  destruct (lookup_lt_is_Some_2 rows (Z.to_nat (row_of k))) as [r Hr]; [lia|].
  exists r. split; [done|].
  rewrite (gather_in_range rows _ r) in Hfx by (lia || done). cbn in Hfx.
  rewrite Forall_forall in Hwidth.
  specialize (Hwidth r (list_elem_of_lookup_2 _ _ _ Hr)).
  destruct (lookup_lt_is_Some_2 r p) as [y Hy]; [lia|].
  rewrite (gather_in_range r _ y) in Hfx by (lia || by rewrite Nat2Z.id).
  injection Hfx as <-. by rewrite Hx, Hy.
Qed.

End heterogeneous.

Lemma at_heterogeneous_witness :
  ∃ xs, Delay.at_ PNone true _ShareContext.__init__ concat_buffer "het" None
          = Ok (vec xs) ∧
        List.length xs = 2%nat ∧
        ∀ p k, [2; 0] !! p = Some k →
               ∃ r, [[1; 2]; [3; 4]; [5; 6]] !! Z.to_nat k = Some r ∧
                    xs !! p = r !! p.
Proof.
  refine (at_heterogeneous PNone true _ShareContext.__init__ concat_buffer
            "het" [2; 0] [[1; 2]; [3; 4]; [5; 6]] (λ k, k)
            eq_refl _ eq_refl _ _ eq_refl _ eq_refl).
  - vm_compute. reflexivity.
  - apply (bool_decide_unpack _). vm_compute. reflexivity.
  - vm_compute. discriminate.
  - apply (bool_decide_unpack _). vm_compute. reflexivity.
Defined.

(** ** Further properties of the shared context *)

Lemma save_many_pairs_raises_witness :
  (_ShareContext.save _ShareContext.__init__
     [PStr "a"; PInt 1; PStr "b"; PInt 2; PStr "c"; PInt 3] [("d", PInt 4)]).2
  ≠ None.
Proof.
  exact (save_many_pairs_raises _ShareContext.__init__
           [PStr "a"; PInt 1; PStr "b"; PInt 2; PStr "c"; PInt 3]
           [("d", PInt 4)] eq_refl ltac:(cbn; lia)).
Defined.

(** What storing one pair does to the two maps. *)
Lemma save_item_Ok self identifier data self' :
  _ShareContext.save_item self identifier data = Ok self' →
  match data with
  | PDelay h =>
    _ShareContext._delays self !! identifier = None ∧
    self' = _ShareContext.mk (_ShareContext._arguments self)
              (<[identifier := h]> (_ShareContext._delays self))
  | _ =>
    self' = _ShareContext.mk (<[identifier := data]> (_ShareContext._arguments self))
              (_ShareContext._delays self)
  end.
Proof.
  destruct data; cbn; try by intros [= <-].
  case_decide as H; [done|]. intros [= <-]. split; [|done].
  destruct (_ShareContext._delays self !! identifier) eqn:E; [|done].
  destruct H. by eexists.
Qed.

Lemma save_item_Raise self identifier data e :
  _ShareContext.save_item self identifier data = Raise e →
  e = ValueError ∧ ∃ h, data = PDelay h ∧
                        is_Some (_ShareContext._delays self !! identifier).
Proof.
  destruct data; cbn; try done.
  case_decide as H; [|done]. intros [= <-]. split; [done|]. by eexists.
Qed.

Lemma save_keywords_only self kwargs :
  _ShareContext.save self [] kwargs = _ShareContext.save_keywords self kwargs.
Proof. reflexivity. Qed.

(** X9: a call of [save] with keyword arguments only, when it returns,
    has stored every non-delay value under its name in the arguments and
    every delay under its name in the delays, where that name was free
    before; names not passed are untouched in both maps. *)
Theorem save_keywords_stores kwargs : ∀ self self',
  NoDup kwargs.*1 →
  _ShareContext.save self [] kwargs = (self', None) →
  (∀ k v, (k, v) ∈ kwargs →
     match v with
     | PDelay h =>
       _ShareContext._delays self !! PStr k = None ∧
       _ShareContext._delays self' !! PStr k = Some h
     | _ => _ShareContext._arguments self' !! PStr k = Some v
     end) ∧
  (∀ key, (∀ k, k ∈ kwargs.*1 → key ≠ PStr k) →
     _ShareContext._arguments self' !! key = _ShareContext._arguments self !! key ∧
     _ShareContext._delays self' !! key = _ShareContext._delays self !! key).
Proof.
  intros self self' Hnd H. rewrite save_keywords_only in H.
  revert self self' Hnd H.
  induction kwargs as [|[k v] kwargs IH]; intros self self' Hnd H.
  { injection H as <-. split; [|done]. intros k v Hk.
    by apply not_elem_of_nil in Hk. }
  cbn in Hnd. apply NoDup_cons in Hnd as [Hk Hnd].
  cbn [_ShareContext.save_keywords] in H.
  destruct (_ShareContext.save_item self (PStr k) v) as [self1|] eqn:E1;
    [|done].
  destruct (IH self1 self' Hnd H) as [Hin Hout].
  apply save_item_Ok in E1.
  assert (_ShareContext._arguments self' !! PStr k
            = _ShareContext._arguments self1 !! PStr k ∧
          _ShareContext._delays self' !! PStr k
            = _ShareContext._delays self1 !! PStr k) as [Ha Hd].
  { apply Hout. intros k' Hk' [= <-]. done. }
  split.
  - intros k' v' [[= Hk' Hv']|Hin']%elem_of_cons.
    + rewrite Hk', Hv'. clear Hin Hk' Hv'.
      destruct v; try (subst self1; rewrite Ha; cbn;
                        by rewrite lookup_insert_eq).
      destruct E1 as [Hfree ->]. split; [done|].
      rewrite Hd. cbn. by rewrite lookup_insert_eq.
    + specialize (Hin k' v' Hin').
      assert (k' ≠ k) as Hne.
      { intros ->. apply Hk. apply list_elem_of_fmap. by exists (k, v'). }
      destruct v'; try done. destruct Hin as [Hfree Hset]. split; [|done].
      destruct v; try (by subst self1).
      destruct E1 as [_ ->]. cbn in Hfree.
      rewrite lookup_insert_ne in Hfree; [done|]. by intros [= ->].
  - intros key Hkey.
    destruct (Hout key) as [Ha' Hd'].
    { intros k' Hk'. apply Hkey. cbn. by apply elem_of_cons; right. }
    rewrite Ha', Hd'.
    assert (PStr k ≠ key) as Hne.
    { intros <-. eapply Hkey; [|done]. cbn. apply list_elem_of_here. }
    destruct v; try (subst self1; cbn; by rewrite lookup_insert_ne).
    destruct E1 as [_ ->]. cbn. by rewrite lookup_insert_ne.
Qed.

Lemma save_keywords_stores_witness :
  let self' :=
    (_ShareContext.save _ShareContext.__init__ []
       [("t", PInt 3); ("d", PDelay 0%nat); ("i", PInt 7)]).1 in
  _ShareContext._arguments self' !! PStr "i" = Some (PInt 7) ∧
  _ShareContext._delays self' !! PStr "d" = Some 0%nat.
Proof.
  intros self'. subst self'.
  assert ((_ShareContext.save _ShareContext.__init__ []
             [("t", PInt 3); ("d", PDelay 0%nat); ("i", PInt 7)]).2 = None)
    as E by (vm_compute; reflexivity).
  revert E.
  destruct (_ShareContext.save _ShareContext.__init__ []
              [("t", PInt 3); ("d", PDelay 0%nat); ("i", PInt 7)])
    as [s e] eqn:Es.
  cbn [fst snd]. intros ->.
  destruct (save_keywords_stores
              [("t", PInt 3); ("d", PDelay 0%nat); ("i", PInt 7)]
              _ShareContext.__init__ s
              ltac:(apply (bool_decide_unpack _); vm_compute; reflexivity)
              Es) as [H _].
  split.
  - apply (H "i" (PInt 7)). apply (bool_decide_unpack _). vm_compute. reflexivity.
  - apply (H "d" (PDelay 0%nat)). apply (bool_decide_unpack _). vm_compute.
    reflexivity.
Defined.

(** X10: when [save] with keyword arguments raises, the error is
    [ValueError], it comes from a delay whose name is already taken among
    the delays, and everything passed before that argument has been
    stored. *)
Theorem save_keywords_raises kwargs : ∀ self self' e,
  _ShareContext.save self [] kwargs = (self', Some e) →
  e = ValueError ∧
  ∃ before k h after stored,
    kwargs = before ++ (k, PDelay h) :: after ∧
    _ShareContext.save self [] before = (stored, None) ∧
    self' = stored ∧
    is_Some (_ShareContext._delays stored !! PStr k).
Proof.
  intros self self' e H. rewrite save_keywords_only in H.
  setoid_rewrite save_keywords_only.
  revert self self' e H.
  induction kwargs as [|[k v] kwargs IH]; intros self self' e H; [done|].
  cbn [_ShareContext.save_keywords] in H.
  destruct (_ShareContext.save_item self (PStr k) v) as [self1|e1] eqn:E1.
  - destruct (IH self1 self' e H)
      as (-> & before & k' & h & after & stored & -> & Hb & -> & Htaken).
    split; [done|].
    exists ((k, v) :: before), k', h, after, stored. split; [done|].
    split; [|done].
    cbn [_ShareContext.save_keywords]. by rewrite E1.
  - injection H as <- <-.
    apply save_item_Raise in E1 as (-> & h & -> & Htaken).
    split; [done|]. by exists [], k, h, kwargs, self.
Qed.

Lemma save_keywords_raises_witness :
  ∃ before k h after,
    [("t", PInt 3); ("d", PDelay 0%nat); ("d", PDelay 1%nat)]
    = before ++ (k, PDelay h) :: after.
Proof.
  assert ((_ShareContext.save _ShareContext.__init__ []
             [("t", PInt 3); ("d", PDelay 0%nat); ("d", PDelay 1%nat)]).2
          = Some ValueError) as E by (vm_compute; reflexivity).
  revert E.
  destruct (_ShareContext.save _ShareContext.__init__ []
              [("t", PInt 3); ("d", PDelay 0%nat); ("d", PDelay 1%nat)])
    as [s e] eqn:Es.
  cbn [fst snd]. intros ->.
  destruct (save_keywords_raises
              [("t", PInt 3); ("d", PDelay 0%nat); ("d", PDelay 1%nat)]
              _ShareContext.__init__ s ValueError Es)
    as (_ & before & k & h & after & stored & Hkw & _).
  by exists before, k, h, after.
Defined.

Section load_env.
Variable get_dt : pyobj.

(** X11: what [load] returns for a name right after [save] stored one
    keyword argument under it: a plain value is read back as stored; a
    delay is read back unless an argument of the same name exists, which
    is then returned in its place; under the name [dt] a delay is never
    returned. *)
Theorem load_after_save self k v self' dflt :
  _ShareContext.save self [] [(k, v)] = (self', None) →
  _ShareContext.load get_dt self' (PStr k) dflt =
  Ok match v with
     | PDelay h =>
       if decide (k = "dt") then _ShareContext.dt get_dt self
       else match _ShareContext._arguments self !! PStr k with
            | Some a => a
            | None => PDelay h
            end
     | _ => v
     end.
Proof.
  rewrite save_keywords_only. cbn [_ShareContext.save_keywords].
  destruct (_ShareContext.save_item self (PStr k) v) as [self1|] eqn:E; [|done].
  intros [= <-]. apply save_item_Ok in E.
  unfold _ShareContext.load, _ShareContext.dt.
  destruct v; try (subst self1; cbn; case_decide as Hk;
                   [injection Hk as ->|]; by rewrite lookup_insert_eq).
  destruct E as [Hfree ->]. cbn.
  destruct (decide (k = "dt")) as [->|Hk].
  - by rewrite decide_True.
  - rewrite decide_False by (by intros [= ->]).
    destruct (_ShareContext._arguments self !! PStr k); [done|].
    by rewrite lookup_insert_eq.
Qed.


End load_env.

Lemma load_after_save_witness :
  _ShareContext.load PNone
    (_ShareContext.save (_ShareContext.mk {[ PStr "x" := PInt 1 ]} ∅) []
       [("x", PDelay 4%nat)]).1 (PStr "x") PNone
  = Ok (PInt 1).
Proof.
  exact (load_after_save PNone (_ShareContext.mk {[ PStr "x" := PInt 1 ]} ∅)
           "x" (PDelay 4%nat) _ PNone eq_refl).
Defined.

(** [pop_all] stops at the first name that is absent when its turn
    comes. *)
Lemma pop_all_None {V} ks : ∀ (m m' : gmap pyobj V),
  _ShareContext.pop_all m ks = (m', None) →
  NoDup ks ∧ (∀ k, k ∈ ks → is_Some (m !! k)) ∧
  ∀ key, m' !! key = if decide (key ∈ ks) then None else m !! key.
Proof.
  induction ks as [|k ks IH]; intros m m' H; cbn in H.
  { injection H as <-. split; [constructor|]. split.
    - intros k Hk. by apply not_elem_of_nil in Hk.
    - intros key. rewrite decide_False; [done|]. apply not_elem_of_nil. }
  destruct (m !! k) as [x|] eqn:Ek; [|done].
  destruct (IH _ _ H) as (Hnd & Hin & Hlook).
  assert (k ∉ ks) as Hk.
  { intros Hk. destruct (Hin k Hk) as [y Hy]. by rewrite lookup_delete_eq in Hy. }
  split; [by constructor|]. split.
  - intros k' [->|Hk']%elem_of_cons; [by eexists|].
    destruct (Hin k' Hk') as [y Hy].
    apply lookup_delete_Some in Hy as [_ Hy]. by eexists.
  - intros key. rewrite Hlook.
    destruct (decide (key = k)) as [->|Hne].
    + rewrite decide_False by done. rewrite lookup_delete_eq.
      rewrite decide_True; [done|]. apply list_elem_of_here.
    + rewrite lookup_delete_ne by done.
      destruct (decide (key ∈ ks)) as [Hi|Hi].
      * rewrite decide_True; [done|]. by apply elem_of_cons; right.
      * rewrite decide_False; [done|].
        intros [?|?]%elem_of_cons; done.
Qed.

Lemma pop_all_Some {V} ks : ∀ (m m' : gmap pyobj V) e,
  _ShareContext.pop_all m ks = (m', Some e) →
  e = KeyError ∧
  ∃ before k after,
    ks = before ++ k :: after ∧
    _ShareContext.pop_all m before = (m', None) ∧
    m' !! k = None.
Proof.
  induction ks as [|k ks IH]; intros m m' e H; cbn in H; [done|].
  destruct (m !! k) as [x|] eqn:Ek.
  - destruct (IH _ _ _ H) as (-> & before & k' & after & -> & Hb & Hk').
    split; [done|]. exists (k :: before), k', after. split; [done|].
    split; [|done]. cbn. by rewrite Ek.
  - injection H as <- <-. split; [done|]. by exists [], k, ks.
Qed.

Lemma pop_all_present {V} ks : ∀ (m : gmap pyobj V),
  NoDup ks → (∀ k, k ∈ ks → is_Some (m !! k)) →
  (_ShareContext.pop_all m ks).2 = None.
Proof.
  induction ks as [|k ks IH]; intros m Hnd Hin; [done|]. cbn.
  apply NoDup_cons in Hnd as [Hk Hnd].
  destruct (Hin k) as [x ->]; [apply list_elem_of_here|].
  apply IH; [done|]. intros k' Hk'.
  destruct (Hin k') as [y Hy]; [by apply elem_of_cons; right|].
  exists y. apply lookup_delete_Some. split; [|done]. by intros ->.
Qed.

(** X12: [clear_delays] with names removes exactly these names from the
    delays and nothing from the arguments, and succeeds exactly when the
    names are pairwise different and all registered; otherwise it raises
    [KeyError] at the first name that is absent when its turn comes, with
    the names before it already removed. *)
Theorem clear_delays_names self names self' e :
  names ≠ [] →
  _ShareContext.clear_delays self names = (self', e) →
  _ShareContext._arguments self' = _ShareContext._arguments self ∧
  (e = None ↔
   NoDup names ∧ ∀ n, n ∈ names → is_Some (_ShareContext._delays self !! n)) ∧
  (e = None →
   ∀ key, _ShareContext._delays self' !! key =
          if decide (key ∈ names) then None
          else _ShareContext._delays self !! key) ∧
  (∀ x, e = Some x →
     x = KeyError ∧
     ∃ before n after,
       names = before ++ n :: after ∧
       _ShareContext._delays self' !! n = None ∧
       ∀ key, _ShareContext._delays self' !! key =
              if decide (key ∈ before) then None
              else _ShareContext._delays self !! key).
Proof.
  intros Hne. unfold _ShareContext.clear_delays.
  destruct names as [|n names]; [done|].
  destruct (_ShareContext.pop_all _ _) as [m e'] eqn:E.
  intros [= <- <-]. split; [done|]. split; [|split].
  - split.
    + intros ->. apply pop_all_None in E as (? & ? & _). done.
    + intros [Hnd Hin].
      pose proof (pop_all_present (n :: names) (_ShareContext._delays self)
                    Hnd Hin) as H.
      by rewrite E in H.
  - intros ->. by apply pop_all_None in E as (_ & _ & ?).
  - intros x ->.
    apply pop_all_Some in E as (-> & before & k & after & Hks & Hb & Hk).
    split; [done|]. exists before, k, after. split; [done|]. split; [done|].
    by apply pop_all_None in Hb as (_ & _ & ?).
Qed.

Lemma clear_delays_names_witness :
  _ShareContext._delays
    (_ShareContext.clear_delays
       (_ShareContext.mk ∅ {[ PStr "a" := 0%nat; PStr "b" := 1%nat ]})
       [PStr "a"; PStr "c"]).1 !! PStr "a" = None.
Proof.
  assert ((_ShareContext.clear_delays
             (_ShareContext.mk ∅ {[ PStr "a" := 0%nat; PStr "b" := 1%nat ]})
             [PStr "a"; PStr "c"]).2 = Some KeyError)
    as E by (vm_compute; reflexivity).
  revert E.
  destruct (_ShareContext.clear_delays
              (_ShareContext.mk ∅ {[ PStr "a" := 0%nat; PStr "b" := 1%nat ]})
              [PStr "a"; PStr "c"]) as [s e] eqn:Es.
  cbn [fst snd]. intros ->.
  destruct (clear_delays_names
              (_ShareContext.mk ∅ {[ PStr "a" := 0%nat; PStr "b" := 1%nat ]})
              [PStr "a"; PStr "c"] s (Some KeyError) ltac:(done) Es)
    as (_ & _ & _ & H).
  destruct (H KeyError eq_refl) as (_ & before & n & after & Hn & Hnone & Hl).
  destruct before as [|b before].
  - injection Hn as <- _. exact Hnone.
  - injection Hn as <- _. rewrite Hl, decide_True; [done|].
    apply list_elem_of_here.
Defined.

(** X13: [clear_shargs] with names does the same on the arguments and
    leaves the delays alone, so a delay that an argument of the same name
    was hiding is what [load] returns afterwards. *)
Theorem clear_shargs_unhides get_dt self name h dflt :
  name ≠ PStr "dt" →
  is_Some (_ShareContext._arguments self !! name) →
  _ShareContext._delays self !! name = Some h →
  let out := _ShareContext.clear_shargs self [name] in
  out.2 = None ∧
  _ShareContext._delays out.1 = _ShareContext._delays self ∧
  _ShareContext.load get_dt out.1 name dflt = Ok (PDelay h) ∧
  (_ShareContext.clear_shargs out.1 [name]).2 = Some KeyError.
Proof.
  intros Hdt [a Ha] Hd. unfold _ShareContext.clear_shargs.
  cbn. rewrite Ha. cbn. split; [done|]. split; [done|].
  unfold _ShareContext.load. cbn.
  rewrite decide_False by done. rewrite !lookup_delete_eq, Hd. done.
Qed.

Lemma clear_shargs_unhides_witness :
  _ShareContext.load PNone
    (_ShareContext.clear_shargs
       (_ShareContext.mk {[ PStr "x" := PInt 1 ]} {[ PStr "x" := 4%nat ]})
       [PStr "x"]).1 (PStr "x") PNone
  = Ok (PDelay 4%nat).
Proof.
  refine (proj1 (proj2 (proj2
    (clear_shargs_unhides PNone
       (_ShareContext.mk {[ PStr "x" := PInt 1 ]} {[ PStr "x" := 4%nat ]})
       (PStr "x") 4%nat PNone _ _ _)))).
  - done.
  - vm_compute. eexists. reflexivity.
  - vm_compute. reflexivity.
Defined.

(** ** One step of every registered delay *)

Section update_env.
Variable get_dt : pyobj.

Lemma update_fields share d v d' :
  Delay.update get_dt share d v = Ok d' →
  Delay.target d' = Delay.target d ∧
  Delay.length d' = Delay.length d ∧
  Delay.method d' = Delay.method d ∧
  Delay._before_t0 d' = Delay._before_t0 d ∧
  Delay._access_to_step d' = Delay._access_to_step d ∧
  (Delay.data d = None ↔ Delay.data d' = None).
Proof.
  unfold Delay.update.
  destruct (Delay.data d) as [rows|] eqn:Hd; [|intros [= <-]; by rewrite Hd].
  destruct (Delay.method d) eqn:Hm.
  - destruct (Delay.load_i get_dt share); [|done]. cbn.
    intros [= <-]. cbn. by split_and!.
  - case_decide; intros [= <-]; cbn; by split_and!.
  - intros [= <-]. rewrite Hd. by split_and!.
Qed.

Lemma update_again share d v d' :
  Delay.update get_dt share d v = Ok d' →
  Delay.update get_dt share d' v = Ok d'.
Proof.
  unfold Delay.update.
  destruct (Delay.data d) as [rows|] eqn:Hd;
    [|intros [= <-]; by rewrite Hd].
  destruct (Delay.method d) eqn:Hm.
  - destruct (Delay.load_i get_dt share) as [i|] eqn:Hi; [|done].
    unfold mbind, result_bind.
    intros [= <-].
    cbn [Delay.data Delay.method Delay.length Delay.target Delay.set_data].
    rewrite Hm. rewrite list_insert_insert_eq. by destruct d.
  - case_decide as Hl; intros [= <-];
      cbn [Delay.data Delay.method Delay.length Delay.target Delay.set_data];
      rewrite Hm.
    + rewrite decide_True by done. by destruct d.
    + rewrite decide_False by done. rewrite list_insert_insert_eq.
      by destruct d.
  - intros [= <-]. by rewrite Hd, Hm.
Qed.

(** X14: an update changes nothing of a buffer but its rows, and a
    second update in the same step with the same value changes nothing at
    all: neither method moves the stored rows along. *)
Theorem update_idempotent share d v d' :
  Delay.update get_dt share d v = Ok d' →
  Delay.update get_dt share d' v = Ok d' ∧
  Delay.target d' = Delay.target d ∧
  Delay.length d' = Delay.length d ∧
  Delay.method d' = Delay.method d ∧
  Delay._access_to_step d' = Delay._access_to_step d.
Proof.
  intros H. split; [exact (update_again _ _ _ _ H)|].
  apply update_fields in H. tauto.
Qed.


Lemma update_each_spec hs : ∀ w w',
  share.update_each get_dt w hs = (w', None) →
  share.ctx w' = share.ctx w ∧
  ∀ h, (h ∈ hs →
        match share.objects w !! h with
        | None => share.objects w' !! h = None
        | Some d =>
          ∃ d', Delay.update get_dt (share.ctx w) d None = Ok d' ∧
                share.objects w' !! h = Some d'
        end) ∧
       (h ∉ hs → share.objects w' !! h = share.objects w !! h).
Proof.
  induction hs as [|h0 hs IH]; intros w w' H; cbn in H.
  { injection H as <-. split; [done|]. intros h. split; [|done].
    intros Hh. by apply not_elem_of_nil in Hh. }
  destruct (share.objects w !! h0) as [d0|] eqn:E0.
  - destruct (Delay.update get_dt (share.ctx w) d0 None) as [d0'|] eqn:U0;
      [|done].
    destruct (IH _ _ H) as [Hctx Hobj]. cbn in Hctx, Hobj.
    split; [done|]. intros h.
    destruct (Hobj h) as [Hin Hout].
    destruct (decide (h = h0)) as [->|Hne].
    + split; [|intros Hn; destruct Hn; apply list_elem_of_here].
      intros _. rewrite E0. exists d0'. split; [done|].
      rewrite lookup_insert_eq in Hin, Hout.
      destruct (decide (h0 ∈ hs)) as [Hi|Hi].
      * destruct (Hin Hi) as (d'' & Hu & Hl).
        rewrite (update_again _ _ _ _ U0) in Hu. by injection Hu as <-.
      * by apply Hout.
    + rewrite lookup_insert_ne in Hin, Hout by done. split.
      * intros [?|Hi]%elem_of_cons; [done|]. by apply Hin.
      * intros Hn. apply Hout. intros Hi. apply Hn.
        by apply elem_of_cons; right.
  - destruct (IH _ _ H) as [Hctx Hobj]. split; [done|]. intros h.
    destruct (Hobj h) as [Hin Hout].
    destruct (decide (h = h0)) as [->|Hne].
    + split; [|intros Hn; destruct Hn; apply list_elem_of_here].
      intros _. rewrite E0.
      destruct (decide (h0 ∈ hs)) as [Hi|Hi].
      * specialize (Hin Hi). by rewrite E0 in Hin.
      * by rewrite Hout.
    + split.
      * intros [?|Hi]%elem_of_cons; [done|]. by apply Hin.
      * intros Hn. apply Hout. intros Hi. apply Hn.
        by apply elem_of_cons; right.
Qed.

(** X15: when [share.update()] returns, the context itself is
    unchanged, every delay saved in it has been replaced by its own
    update, also one saved under several names, and every other object is
    untouched. *)
Theorem share_update_all w w' :
  share.update get_dt w = (w', None) →
  share.ctx w' = share.ctx w ∧
  (∀ name h d,
     _ShareContext._delays (share.ctx w) !! name = Some h →
     share.objects w !! h = Some d →
     ∃ d', Delay.update get_dt (share.ctx w) d None = Ok d' ∧
           share.objects w' !! h = Some d') ∧
  (∀ h, (∀ name, _ShareContext._delays (share.ctx w) !! name ≠ Some h) →
        share.objects w' !! h = share.objects w !! h).
Proof.
  unfold share.update. intros H.
  apply update_each_spec in H as [Hctx Hobj]. split; [done|]. split.
  - intros name h d Hn Hd.
    destruct (Hobj h) as [Hin _]. rewrite Hd in Hin. apply Hin.
    apply list_elem_of_fmap. exists (name, h). split; [done|].
    by apply elem_of_map_to_list.
  - intros h Hfree. destruct (Hobj h) as [_ Hout]. apply Hout.
    intros ([name h'] & -> & Hi)%list_elem_of_fmap.
    apply elem_of_map_to_list in Hi. by apply (Hfree name).
Qed.

End update_env.

Lemma update_idempotent_witness :
  ∃ d', Delay.update PNone _ShareContext.__init__ concat_buffer (Some [7; 8])
        = Ok d' ∧
        Delay.update PNone _ShareContext.__init__ d' (Some [7; 8]) = Ok d'.
Proof.
  eexists. split; [reflexivity|].
  exact (proj1 (update_idempotent PNone _ShareContext.__init__ concat_buffer
                  (Some [7; 8]) _ eq_refl)).
Defined.

Lemma share_update_all_witness :
  share.objects
    (share.update PNone
       (share.mk (_ShareContext.mk ∅ {[ PStr "a" := 0%nat; PStr "b" := 0%nat ]})
          {[ 0%nat := concat_buffer; 1%nat := concat_buffer ]})).1 !! 1%nat
  = Some concat_buffer.
Proof.
  assert ((share.update PNone
             (share.mk
                (_ShareContext.mk ∅ {[ PStr "a" := 0%nat; PStr "b" := 0%nat ]})
                {[ 0%nat := concat_buffer; 1%nat := concat_buffer ]})).2 = None)
    as E by (vm_compute; reflexivity).
  revert E.
  destruct (share.update PNone
              (share.mk
                 (_ShareContext.mk ∅ {[ PStr "a" := 0%nat; PStr "b" := 0%nat ]})
                 {[ 0%nat := concat_buffer; 1%nat := concat_buffer ]}))
    as [w' e] eqn:Es.
  cbn [fst snd]. intros ->.
  destruct (share_update_all PNone _ w' Es) as (_ & _ & H).
  rewrite H; [vm_compute; reflexivity|].
  intros name. cbn.
  intros Hn. apply lookup_insert_Some in Hn as [[_ [=]]|[_ Hn]].
  apply lookup_singleton_Some in Hn as [_ [=]].
Defined.

(** ** The JIT wrapper restores or commits the variables *)

Section object_jit.
Context {V Args Out C : Type}.
Variable add_context : string → C → C.
Variable del_context : string → C → C.
Variable leak : (nat → V) → (nat → V) → (nat → V).

(** Assigning, name by name, values that agree with [f] on every listed
    variable ends with [f] on those variables and touches no other. *)
Lemma assign_each_agrees (items : list (string * nat)) (data : gmap string V)
    (s f : nat → V) :
  (∀ key v, (key, v) ∈ items → data !! key = Some (f v)) →
  ∃ s', ObjectJIT.assign_each items data s = (s', None) ∧
        (∀ v, v ∈ items.*2 → s' v = f v) ∧
        (∀ v, v ∉ items.*2 → s' v = s v).
Proof.
  revert s. induction items as [|[key v] items IH]; intros s Hdata.
  { exists s. split; [done|]. split; [|done].
    intros v Hv. by apply not_elem_of_nil in Hv. }
  cbn [ObjectJIT.assign_each].
  rewrite (Hdata key v) by apply list_elem_of_here.
  destruct (IH (<[v := f v]> s)) as (s' & Hrun & Hin & Hout).
  { intros k u Hku. apply Hdata. by apply list_elem_of_further. }
  exists s'. split; [done|]. split.
  - intros u Hu. cbn in Hu.
    destruct (decide (u ∈ items.*2)) as [Hu'|Hu']; [by apply Hin|].
    apply elem_of_cons in Hu as [->|Hu]; [|done].
    rewrite Hout by done. apply fn_lookup_insert.
  - intros u Hu. cbn in Hu. apply not_elem_of_cons in Hu as [Hne Hu].
    rewrite Hout by done. by apply fn_lookup_insert_ne.
Qed.

(** Writing back a snapshot [dict vars s0] gives every registered
    variable its value in [s0], whatever the store held. *)
Lemma assign_dict (vars : gmap string nat) (s0 s : nat → V) :
  ∃ s', ObjectJIT.assign vars (ObjectJIT.dict vars s0) s = (s', None) ∧
        (∀ key v, vars !! key = Some v → s' v = s0 v) ∧
        (∀ v, (∀ key, vars !! key ≠ Some v) → s' v = s v).
Proof.
  destruct (assign_each_agrees (map_to_list vars) (ObjectJIT.dict vars s0) s s0)
    as (s' & Hrun & Hin & Hout).
  { intros key v Hkv%elem_of_map_to_list.
    unfold ObjectJIT.dict. by rewrite lookup_fmap, Hkv. }
  exists s'. split; [done|]. split.
  - intros key v Hkv. apply Hin. apply list_elem_of_fmap.
    exists (key, v). split; [done|]. by apply elem_of_map_to_list.
  - intros v Hv. apply Hout. intros ([key v'] & -> & Hkv)%list_elem_of_fmap.
    apply elem_of_map_to_list in Hkv. by apply (Hv key).
Qed.

(** The first loop of [jitted_func] gives each variable the value it
    already has. *)
Lemma assign_dict_same (vars : gmap string nat) (s : nat → V) :
  ObjectJIT.assign vars (ObjectJIT.dict vars s) s = (s, None).
Proof.
  destruct (assign_dict vars s s) as (s' & Hrun & Hin & Hout).
  rewrite Hrun. f_equal. apply functional_extensionality. intros v.
  destruct (decide (v ∈ (map_to_list vars).*2)) as [Hv|Hv].
  - apply list_elem_of_fmap in Hv as ([key v'] & -> & Hkv).
    apply elem_of_map_to_list in Hkv. by apply (Hin key).
  - apply Hout. intros key Hkv. apply Hv. apply list_elem_of_fmap.
    exists (key, v). split; [done|]. by apply elem_of_map_to_list.
Qed.

(** The compiled function of a wrapper, run on the snapshot of the store
    it is called in. *)
Lemma init_f_run (func : @ObjectJIT.function V Args Out) vars name s args s2 r :
  func args s = (s2, r) →
  ObjectJIT._f (ObjectJIT.__init__ leak func vars name)
    (ObjectJIT.dict vars s) args s
  = (leak s s2,
     match r with
     | inl e => inl e
     | inr out => inr (out, ObjectJIT.dict vars s2)
     end).
Proof.
  intros Hfunc. unfold ObjectJIT.__init__, ObjectJIT._f.
  unfold ObjectJIT.jax_jit, ObjectJIT.jitted_func.
  rewrite assign_dict_same, Hfunc. by destruct r.
Qed.

(** What the caller sees for an exception [e] of the compiled function. *)
Definition reraised (e : ObjectJIT.raised) : ObjectJIT.raised :=
  match e with
  | ObjectJIT.UnexpectedTracerError => ObjectJIT.JaxTracerError
  | ObjectJIT.ConcretizationTypeError => ObjectJIT.errors_ConcretizationTypeError
  | _ => e
  end.

(** C10 (as amended): when the wrapped function raises an instance of
    [Exception], the call raises and every registered variable holds the
    value it had before the call; when it returns, the call returns its
    output and every registered variable holds the value the function left
    in it. *)
Theorem call_restores_or_commits (func : @ObjectJIT.function V Args Out)
    vars name st args s2 r :
  func args (ObjectJIT.values st) = (s2, r) →
  match r with
  | inl e => ObjectJIT.is_Exception e = true
  | inr _ => True
  end →
  ∃ st',
    ObjectJIT.__call__ add_context del_context
      (ObjectJIT.__init__ leak func vars name) st args
    = (st', match r with inl e => inl (reraised e) | inr out => inr out end) ∧
    ∀ key v, vars !! key = Some v →
      ObjectJIT.values st' v =
        match r with
        | inl _ => ObjectJIT.values st v
        | inr _ => s2 v
        end.
Proof.
  intros Hfunc Hexc.
  unfold ObjectJIT.__call__. rewrite (init_f_run _ _ _ _ _ _ _ Hfunc).
  change (ObjectJIT._vars (ObjectJIT.__init__ leak func vars name)) with vars.
  destruct r as [e|out].
  - destruct (assign_dict vars (ObjectJIT.values st)
                (leak (ObjectJIT.values st) s2)) as (s' & Hrun & Hin & _).
    destruct e; try done; unfold ObjectJIT.handler;
      change (ObjectJIT._vars (ObjectJIT.__init__ leak func vars name)) with vars;
      cbn [ObjectJIT.values]; rewrite Hrun;
      (eexists; split; [done|]; exact Hin).
  - destruct (assign_dict vars s2 (leak (ObjectJIT.values st) s2))
      as (s' & Hrun & Hin & _).
    rewrite Hrun. eexists. split; [done|]. exact Hin.
Qed.

(** An interrupt is not an [Exception]: no handler runs and the variables
    are left as the compiled function left them. *)
Lemma call_interrupted (func : @ObjectJIT.function V Args Out)
    vars name st args s2 tag :
  func args (ObjectJIT.values st) = (s2, inl (ObjectJIT.BaseException tag)) →
  ObjectJIT.__call__ add_context del_context
    (ObjectJIT.__init__ leak func vars name) st args
  = (ObjectJIT.mk_state (leak (ObjectJIT.values st) s2)
       (add_context name (ObjectJIT.contexts st)),
     inl (ObjectJIT.BaseException tag)).
Proof.
  intros Hfunc. unfold ObjectJIT.__call__.
  by rewrite (init_f_run _ _ _ _ _ _ _ Hfunc).
Qed.

End object_jit.

(** A wrapped function that overwrites the variable, then fails. *)
Definition failing_func : @ObjectJIT.function Z unit Z :=
  λ _ s, (<[0%nat := 99]> s, inl (ObjectJIT.Exception ValueError)).

(** A wrapped function that increments the variable and returns it. *)
Definition counting_func : @ObjectJIT.function Z unit Z :=
  λ _ s, (<[0%nat := s 0%nat + 1]> s, inr (s 0%nat + 1)).

(** A wrapped function that overwrites the variable and is then
    interrupted: [KeyboardInterrupt] is no instance of [Exception]. *)
Definition interrupted_func : @ObjectJIT.function Z unit Z :=
  λ _ s, (<[0%nat := 99]> s, inl (ObjectJIT.BaseException 0)).

Definition one_variable : gmap string nat := {[ "x" := 0%nat ]}.

Definition start_state : @ObjectJIT.state Z (list string) :=
  ObjectJIT.mk_state (λ _, 7) [].

Lemma call_restores_or_commits_witness :
  (∃ st',
     ObjectJIT.__call__ cons (λ _ c, tail c)
       (ObjectJIT.__init__ (λ _ s', s') failing_func one_variable "jit0")
       start_state ()
     = (st', inl (ObjectJIT.Exception ValueError)) ∧
     ∀ key v, one_variable !! key = Some v → ObjectJIT.values st' v = 7) ∧
  (∃ st',
     ObjectJIT.__call__ cons (λ _ c, tail c)
       (ObjectJIT.__init__ (λ _ s', s') counting_func one_variable "jit0")
       start_state ()
     = (st', inr 8) ∧
     ∀ key v, one_variable !! key = Some v →
              ObjectJIT.values st' v = <[0%nat := 8]> (λ _, 7) v).
Proof.
  split.
  - exact (call_restores_or_commits cons (λ _ c, tail c) (λ _ s', s')
             failing_func one_variable "jit0" start_state ()
             (<[0%nat := 99]> (λ _, 7)) (inl (ObjectJIT.Exception ValueError))
             eq_refl eq_refl).
  - exact (call_restores_or_commits cons (λ _ c, tail c) (λ _ s', s')
             counting_func one_variable "jit0" start_state ()
             (<[0%nat := 8]> (λ _, 7)) (inr 8) eq_refl I).
Defined.

(** C10 (counterexample): the registered variable ["x"] holds 7 before
    the call; the function writes 99 and is interrupted; the call raises
    the interrupt and the variable holds 99 afterwards, not 7, with the
    context of the wrapper still in place. *)
Lemma call_interrupted_keeps_writes :
  let out :=
    ObjectJIT.__call__ cons (λ _ c, tail c)
      (ObjectJIT.__init__ (λ _ s', s') interrupted_func one_variable "jit0")
      start_state () in
  one_variable !! "x" = Some 0%nat ∧
  ObjectJIT.values start_state 0%nat = 7 ∧
  out.2 = inl (ObjectJIT.BaseException 0) ∧
  ObjectJIT.values out.1 0%nat = 99 ∧
  ObjectJIT.values out.1 0%nat ≠ ObjectJIT.values start_state 0%nat ∧
  ObjectJIT.contexts out.1 = ["jit0"].
Proof.
  cbv zeta.
  rewrite (call_interrupted cons (λ _ c, tail c) (λ _ s', s')
             interrupted_func one_variable "jit0" start_state ()
             (<[0%nat := 99]> (λ _, 7)) 0%nat eq_refl).
  by split_and!.
Qed.

(** ** Contexts and unregistered variables across a call *)

Section jit_contexts.
Context {V Args Out C : Type}.
Variable add_context : string → C → C.
Variable del_context : string → C → C.
Variable leak : (nat → V) → (nat → V) → (nat → V).

(** Everything a call of an [ObjectJIT] leaves behind. *)
Lemma call_outcome (func : @ObjectJIT.function V Args Out)
    vars name st args s2 r :
  func args (ObjectJIT.values st) = (s2, r) →
  ∃ st',
    ObjectJIT.__call__ add_context del_context
      (ObjectJIT.__init__ leak func vars name) st args
    = (st', match r with inl e => inl (reraised e) | inr out => inr out end) ∧
    ObjectJIT.contexts st' =
      (let c := add_context name (ObjectJIT.contexts st) in
       match r with
       | inl (ObjectJIT.BaseException _) => c
       | _ => del_context name c
       end) ∧
    (∀ key v, vars !! key = Some v →
       ObjectJIT.values st' v =
         match r with
         | inl e => if ObjectJIT.is_Exception e then ObjectJIT.values st v
                    else leak (ObjectJIT.values st) s2 v
         | inr _ => s2 v
         end) ∧
    (∀ v, (∀ key, vars !! key ≠ Some v) →
          ObjectJIT.values st' v = leak (ObjectJIT.values st) s2 v).
Proof.
  intros Hfunc. unfold ObjectJIT.__call__.
  rewrite (init_f_run _ _ _ _ _ _ _ _ Hfunc).
  change (ObjectJIT._vars (ObjectJIT.__init__ leak func vars name)) with vars.
  change (ObjectJIT.name (ObjectJIT.__init__ leak func vars name)) with name.
  destruct r as [e|out].
  - destruct (assign_dict vars (ObjectJIT.values st)
                (leak (ObjectJIT.values st) s2)) as (s' & Hrun & Hin & Hout).
    destruct e; try (by eexists; split_and!);
      unfold ObjectJIT.handler;
      change (ObjectJIT._vars (ObjectJIT.__init__ leak func vars name)) with vars;
      change (ObjectJIT.name (ObjectJIT.__init__ leak func vars name)) with name;
      cbn [ObjectJIT.values ObjectJIT.contexts]; rewrite Hrun;
      (eexists; split_and!; [done|done|exact Hin|exact Hout]).
  - destruct (assign_dict vars s2 (leak (ObjectJIT.values st) s2))
      as (s' & Hrun & Hin & Hout).
    rewrite Hrun. eexists. split_and!; [done|done|exact Hin|exact Hout].
Qed.

(** X21: after a call of an [ObjectJIT] the context of the wrapper has
    been removed again when the function returned or raised an
    [Exception], and is left in place when it raised anything else; a
    variable that is not registered holds what the compiled function left
    in it, whatever the outcome. *)
Theorem call_contexts_and_frame (func : @ObjectJIT.function V Args Out)
    vars name st args s2 r :
  func args (ObjectJIT.values st) = (s2, r) →
  let st' := (ObjectJIT.__call__ add_context del_context
                (ObjectJIT.__init__ leak func vars name) st args).1 in
  ObjectJIT.contexts st' =
    (let c := add_context name (ObjectJIT.contexts st) in
     match r with
     | inl (ObjectJIT.BaseException _) => c
     | _ => del_context name c
     end) ∧
  ∀ v, (∀ key, vars !! key ≠ Some v) →
       ObjectJIT.values st' v = leak (ObjectJIT.values st) s2 v.
Proof.
  intros Hfunc.
  destruct (call_outcome func vars name st args s2 r Hfunc)
    as (st' & -> & Hctx & _ & Hout).
  by split.
Qed.

(** X22: a [FunctionJIT] and an [ObjectJIT] around the same function
    return the same output and end in the same context when the function
    returns; when it raises an [Exception] the first leaves its context in
    place and every variable as the compiled function left it, while the
    second removes the context and restores the registered variables. *)
Theorem function_jit_keeps_context_on_raise
    (func : @ObjectJIT.function V Args Out) vars name st args s2 r :
  func args (ObjectJIT.values st) = (s2, r) →
  match r with inl e => ObjectJIT.is_Exception e = true | inr _ => True end →
  let fo := FunctionJIT.__call__ add_context del_context
              (FunctionJIT.__init__ leak func name) st args in
  let oo := ObjectJIT.__call__ add_context del_context
              (ObjectJIT.__init__ leak func vars name) st args in
  ObjectJIT.values fo.1 = leak (ObjectJIT.values st) s2 ∧
  fo.2 = r ∧
  match r with
  | inr out =>
    oo.2 = inr out ∧ ObjectJIT.contexts fo.1 = ObjectJIT.contexts oo.1
  | inl e =>
    ObjectJIT.contexts fo.1 = add_context name (ObjectJIT.contexts st) ∧
    ObjectJIT.contexts oo.1
      = del_context name (add_context name (ObjectJIT.contexts st)) ∧
    ∀ key v, vars !! key = Some v →
             ObjectJIT.values oo.1 v = ObjectJIT.values st v
  end.
Proof.
  intros Hfunc Hexc fo oo.
  assert (fo = (ObjectJIT.mk_state (leak (ObjectJIT.values st) s2)
                  (match r with
                   | inl _ => add_context name (ObjectJIT.contexts st)
                   | inr _ => del_context name
                                (add_context name (ObjectJIT.contexts st))
                   end), r)) as Hfo.
  { unfold fo, FunctionJIT.__call__, FunctionJIT.__init__,
      FunctionJIT.jax_jit. cbn [FunctionJIT._f FunctionJIT.name].
    rewrite Hfunc. by destruct r. }
  rewrite Hfo. cbn [fst snd ObjectJIT.values ObjectJIT.contexts].
  split; [done|]. split; [done|].
  destruct (call_outcome func vars name st args s2 r Hfunc)
    as (st' & Hcall & Hctx & Hval & _).
  unfold oo. rewrite Hcall. cbn [fst snd].
  destruct r as [e|out].
  - split; [done|]. split; [rewrite Hctx; by destruct e|].
    intros key v Hkv. rewrite (Hval key v Hkv). by rewrite Hexc.
  - split; [done|]. by rewrite Hctx.
Qed.

End jit_contexts.

Lemma call_contexts_and_frame_witness :
  ObjectJIT.contexts
    (ObjectJIT.__call__ cons (λ _ c, tail c)
       (ObjectJIT.__init__ (λ _ s', s') failing_func one_variable "jit0")
       start_state ()).1 = [] ∧
  ObjectJIT.values
    (ObjectJIT.__call__ cons (λ _ c, tail c)
       (ObjectJIT.__init__ (λ _ s', s') failing_func one_variable "jit0")
       start_state ()).1 1%nat = 7.
Proof.
  destruct (call_contexts_and_frame cons (λ _ c, tail c) (λ _ s', s')
              failing_func one_variable "jit0" start_state ()
              (<[0%nat := 99]> (λ _, 7)) (inl (ObjectJIT.Exception ValueError))
              eq_refl) as [Hctx Hout].
  split; [exact Hctx|].
  rewrite Hout; [reflexivity|].
  intros key Hk. unfold one_variable in Hk.
  apply lookup_singleton_Some in Hk as [_ [=]].
Defined.

Lemma function_jit_keeps_context_on_raise_witness :
  ObjectJIT.contexts
    (FunctionJIT.__call__ cons (λ _ c, tail c)
       (FunctionJIT.__init__ (λ _ s', s') failing_func "jit0")
       start_state ()).1 = ["jit0"] ∧
  ObjectJIT.contexts
    (ObjectJIT.__call__ cons (λ _ c, tail c)
       (ObjectJIT.__init__ (λ _ s', s') failing_func one_variable "jit0")
       start_state ()).1 = [].
Proof.
  destruct (function_jit_keeps_context_on_raise cons (λ _ c, tail c)
              (λ _ s', s') failing_func one_variable "jit0" start_state ()
              (<[0%nat := 99]> (λ _, 7)) (inl (ObjectJIT.Exception ValueError))
              eq_refl eq_refl) as (_ & _ & H1 & H2 & _).
  split; [exact H1|exact H2].
Defined.

(** ** The call-site rewriter *)

(** Induction over expressions that reaches the elements of argument
    lists and keyword lists. *)
Section expr_induction.
Variable P : ast.expr → Prop.
Variable Q : ast.keyword → Prop.
Hypothesis HName : ∀ id, P (ast.Name id).
Hypothesis HConstant : ∀ v, P (ast.Constant v).
Hypothesis HAttribute : ∀ v a, P v → P (ast.Attribute v a).
Hypothesis HSubscript : ∀ v i, P v → P i → P (ast.Subscript v i).
Hypothesis HBinOp : ∀ l op r, P l → P r → P (ast.BinOp l op r).
Hypothesis HTuple : ∀ es, Forall P es → P (ast.Tuple es).
Hypothesis HStarred : ∀ v, P v → P (ast.Starred v).
Hypothesis HCall : ∀ f args kws sa kw,
  P f → Forall P args → Forall Q kws → P (ast.Call f args kws sa kw).
Hypothesis HKeyword : ∀ k v, P v → Q (ast.Keyword k v).

Fixpoint expr_nested_ind (e : ast.expr) : P e :=
  match e with
  | ast.Name id => HName id
  | ast.Constant v => HConstant v
  | ast.Attribute v a => HAttribute v a (expr_nested_ind v)
  | ast.Subscript v i => HSubscript v i (expr_nested_ind v) (expr_nested_ind i)
  | ast.BinOp l op r => HBinOp l op r (expr_nested_ind l) (expr_nested_ind r)
  | ast.Tuple es =>
    HTuple es ((fix go l : Forall P l :=
                  match l with
                  | [] => @List.Forall_nil _ _
                  | x :: l' => @List.Forall_cons _ _ _ _ (expr_nested_ind x) (go l')
                  end) es)
  | ast.Starred v => HStarred v (expr_nested_ind v)
  | ast.Call f args kws sa kw =>
    HCall f args kws sa kw (expr_nested_ind f)
      ((fix go l : Forall P l :=
          match l with
          | [] => @List.Forall_nil _ _
          | x :: l' => @List.Forall_cons _ _ _ _ (expr_nested_ind x) (go l')
          end) args)
      ((fix go l : Forall Q l :=
          match l with
          | [] => @List.Forall_nil _ _
          | x :: l' => @List.Forall_cons _ _ _ _ (keyword_nested_ind x) (go l')
          end) kws)
  end
with keyword_nested_ind (kw : ast.keyword) : Q kw :=
  match kw with
  | ast.Keyword k v => HKeyword k v (expr_nested_ind v)
  end.
End expr_induction.

Section stmt_induction.
Variable P : ast.stmt → Prop.
Hypothesis HExpr : ∀ v, P (ast.Expr v).
Hypothesis HAssign : ∀ ts v, P (ast.Assign ts v).
Hypothesis HAugAssign : ∀ t op v, P (ast.AugAssign t op v).
Hypothesis HReturn : ∀ v, P (ast.Return v).
Hypothesis HFor : ∀ t it body orelse,
  Forall P body → Forall P orelse → P (ast.For t it body orelse).
Hypothesis HIf : ∀ test body orelse,
  Forall P body → Forall P orelse → P (ast.If test body orelse).
Hypothesis HPass : P ast.Pass.
Hypothesis HFunctionDef : ∀ n a body ds,
  Forall P body → P (ast.FunctionDef n a body ds).

Fixpoint stmt_nested_ind (s : ast.stmt) : P s :=
  let go := fix go (l : list ast.stmt) : Forall P l :=
              match l with
              | [] => @List.Forall_nil _ _
              | x :: l' => @List.Forall_cons _ _ _ _ (stmt_nested_ind x) (go l')
              end in
  match s with
  | ast.Expr v => HExpr v
  | ast.Assign ts v => HAssign ts v
  | ast.AugAssign t op v => HAugAssign t op v
  | ast.Return v => HReturn v
  | ast.For t it body orelse => HFor t it body orelse (go body) (go orelse)
  | ast.If test body orelse => HIf test body orelse (go body) (go orelse)
  | ast.Pass => HPass
  | ast.FunctionDef n a body ds => HFunctionDef n a body ds (go body)
  end.
End stmt_induction.

(** A traversal whose element function succeeds on every element
    succeeds. *)
Lemma traverse_total {A B} (f : A → result B) (l : list A) :
  Forall (λ x, ∃ y, f x = Ok y) l → ∃ ys, traverse f l = Ok ys.
Proof.
  induction 1 as [|x l [y Hy] _ [ys Hys]]; [by exists []|].
  exists (y :: ys). cbn. rewrite Hy. cbn. fold (traverse f). by rewrite Hys.
Qed.

Lemma forallb_Forall {A} (p : A → bool) (l : list A) :
  forallb p l = true → Forall (λ x, p x = true) l.
Proof.
  induction l as [|x l IH]; cbn; [constructor|].
  intros [Hx Hl]%andb_prop. constructor; [done|by apply IH].
Qed.

Lemma Forall_combine {A} (P Q R : A → Prop) (l : list A) :
  (∀ x, P x → Q x → R x) → Forall P l → Forall Q l → Forall R l.
Proof. intros H HP. induction HP; inversion 1; subst; constructor; eauto. Qed.

Section rewriter_facts.
Variable self : FuncTransformer.t.
Hypothesis no_remove_self : FuncTransformer.remove_self self = None.

(** On a tree made by the parser the transformer visits every expression
    without raising: the two guards of [visit_Call] test fields no parsed
    call has. *)
Lemma visit_parsed_total (e : ast.expr) :
  parsed e = true →
  (∃ e', FuncTransformer.visit self e = Ok e') ∧
  (∃ e', FuncTransformer.generic_visit self e = Ok e').
Proof.
  revert e.
  apply (expr_nested_ind
    (λ e, parsed e = true →
          (∃ e', FuncTransformer.visit self e = Ok e') ∧
          (∃ e', FuncTransformer.generic_visit self e = Ok e'))
    (λ kw, parsed_keyword kw = true →
           ∃ kw', FuncTransformer.visit_keyword self kw = Ok kw')).
  - intros id _. split; by eexists.
  - intros v _. split; by eexists.
  - intros v a IH Hp. destruct (IH Hp) as [[v' Hv] _].
    split; eexists; cbn; unfold FuncTransformer.generic_visit; cbn;
      by rewrite Hv.
  - intros v i IHv IHi [Hv Hi]%andb_prop.
    destruct (IHv Hv) as [[v' Ev] _]. destruct (IHi Hi) as [[i' Ei] _].
    split; eexists; cbn; unfold FuncTransformer.generic_visit; cbn;
      by rewrite Ev; cbn; rewrite Ei.
  - intros l op r IHl IHr [Hl Hr]%andb_prop.
    destruct (IHl Hl) as [[l' El] _]. destruct (IHr Hr) as [[r' Er] _].
    split; eexists; cbn; unfold FuncTransformer.generic_visit; cbn;
      by rewrite El; cbn; rewrite Er.
  - intros es IH Hp. cbn in Hp. apply forallb_Forall in Hp.
    destruct (traverse_total (FuncTransformer.visit self) es) as [es' Ees].
    { eapply Forall_combine; [|exact IH|exact Hp].
      intros x Hx Hpx. by destruct (Hx Hpx). }
    split; eexists; cbn; unfold FuncTransformer.generic_visit; cbn;
      by rewrite Ees.
  - intros v IH Hp. destruct (IH Hp) as [[v' Hv] _].
    split; eexists; cbn; unfold FuncTransformer.generic_visit; cbn;
      by rewrite Hv.
  - intros f args kws sa kw IHf IHargs IHkws Hp. cbn in Hp.
    destruct sa; [done|]. destruct kw; [done|].
    apply andb_prop in Hp as [[Hf Hargs]%andb_prop Hkws].
    apply forallb_Forall in Hargs. apply forallb_Forall in Hkws.
    destruct (IHf Hf) as [[f' Ef] _].
    destruct (traverse_total (FuncTransformer.visit self) args) as [a1 Ea1].
    { eapply Forall_combine; [|exact IHargs|exact Hargs].
      intros x Hx Hpx. by destruct (Hx Hpx). }
    destruct (traverse_total (FuncTransformer.generic_visit self) args)
      as [a2 Ea2].
    { eapply Forall_combine; [|exact IHargs|exact Hargs].
      intros x Hx Hpx. by destruct (Hx Hpx). }
    destruct (traverse_total (FuncTransformer.visit_keyword self) kws)
      as [k1 Ek1].
    { eapply Forall_combine; [|exact IHkws|exact Hkws]. eauto. }
    split.
    + cbn. rewrite decide_False by (by intros ?).
      rewrite decide_False by (by intros ?).
      case_decide; [|by eexists].
      fold (FuncTransformer.generic_visit self). rewrite Ea2. cbn.
      unfold FuncTransformer.pop_self. rewrite no_remove_self. cbn.
      rewrite Ek1. by eexists.
    + unfold FuncTransformer.generic_visit. cbn. rewrite Ef. cbn.
      rewrite Ea1. cbn. rewrite Ek1. by eexists.
  - intros k v IH Hp. cbn in Hp. destruct (IH Hp) as [[v' Hv] _].
    eexists. cbn. by rewrite Hv.
Qed.

Lemma visit_stmt_parsed_total (s : ast.stmt) :
  parsed_stmt s = true → ∃ s', FuncTransformer.visit_stmt self s = Ok s'.
Proof.
  assert (Hexprs : ∀ es, forallb parsed es = true →
            ∃ es', traverse (FuncTransformer.visit self) es = Ok es').
  { intros es Hp%forallb_Forall. apply traverse_total.
    eapply Forall_impl; [exact Hp|]. intros e He.
    by destruct (visit_parsed_total e He). }
  assert (Hstmts : ∀ l, Forall (λ s, parsed_stmt s = true →
              ∃ s', FuncTransformer.visit_stmt self s = Ok s') l →
            forallb parsed_stmt l = true →
            ∃ l', traverse (FuncTransformer.visit_stmt self) l = Ok l').
  { intros l IH Hp%forallb_Forall. apply traverse_total.
    eapply Forall_combine; [|exact IH|exact Hp]. eauto. }
  revert s.
  apply (stmt_nested_ind
    (λ s, parsed_stmt s = true →
          ∃ s', FuncTransformer.visit_stmt self s = Ok s')).
  - intros v Hp. destruct (visit_parsed_total v Hp) as [[v' Ev] _].
    eexists. cbn. by rewrite Ev.
  - intros ts v [Hts Hv]%andb_prop.
    destruct (Hexprs ts Hts) as [ts' Ets].
    destruct (visit_parsed_total v Hv) as [[v' Ev] _].
    eexists. cbn. rewrite Ets. cbn. by rewrite Ev.
  - intros t op v [Ht Hv]%andb_prop.
    destruct (visit_parsed_total t Ht) as [[t' Et] _].
    destruct (visit_parsed_total v Hv) as [[v' Ev] _].
    eexists. cbn. rewrite Et. cbn. by rewrite Ev.
  - intros [v|] Hp; [|by eexists].
    destruct (visit_parsed_total v Hp) as [[v' Ev] _].
    eexists. cbn. by rewrite Ev.
  - intros t it body orelse IHb IHo Hp. cbn in Hp.
    apply andb_prop in Hp as [[[Ht Hit]%andb_prop Hb]%andb_prop Ho].
    destruct (visit_parsed_total t Ht) as [[t' Et] _].
    destruct (visit_parsed_total it Hit) as [[it' Eit] _].
    destruct (Hstmts body IHb Hb) as [b' Eb].
    destruct (Hstmts orelse IHo Ho) as [o' Eo].
    eexists. cbn. rewrite Et. cbn. rewrite Eit. cbn.
    rewrite Eb. cbn. by rewrite Eo.
  - intros test body orelse IHb IHo Hp. cbn in Hp.
    apply andb_prop in Hp as [[Ht Hb]%andb_prop Ho].
    destruct (visit_parsed_total test Ht) as [[t' Et] _].
    destruct (Hstmts body IHb Hb) as [b' Eb].
    destruct (Hstmts orelse IHo Ho) as [o' Eo].
    eexists. cbn. rewrite Et. cbn. rewrite Eb. cbn. by rewrite Eo.
  - intros _. by eexists.
  - intros n a body ds IHb Hp. cbn in Hp.
    apply andb_prop in Hp as [[Ha Hb]%andb_prop Hd].
    destruct (Hexprs _ Ha) as [a' Ea]. destruct (Hexprs _ Hd) as [d' Ed].
    destruct (Hstmts body IHb Hb) as [b' Eb].
    eexists. cbn. rewrite Ea. cbn. rewrite Eb. cbn. by rewrite Ed.
Qed.

End rewriter_facts.

(** A rewrite that removes no leading argument never fails on a parsed
    module, variadic call sites or not. *)
Lemma replace_func_parsed_total (t : ast.module) func_call arg_to_append :
  parsed_module t = true →
  ∃ t', _replace_func t func_call arg_to_append None = Ok t'.
Proof.
  intros Hp%forallb_Forall. unfold _replace_func, FuncTransformer.visit_module.
  apply traverse_total. eapply Forall_impl; [exact Hp|].
  intros s Hs. by apply visit_stmt_parsed_total.
Qed.

(** C7 (evaluation at the failing input): asked to append [gNa] and [gK]
    to the calls of [self.integral], the rewriter does not raise on a call
    with a starred argument, nor on one with unpacked keyword arguments: it
    returns the call with the new keywords appended. *)
Theorem rewrite_of_variadic_call_succeeds :
  _replace_func update_with_starargs "self.integral" ["gNa"; "gK"] None =
    Ok [ast.FunctionDef "update"
          (ast.mk_arguments [ast.arg "self"; ast.arg "_t"] [])
          [ast.Expr (ast.Call (ast.Attribute (ast.Name "self") "integral")
                       [ast.Starred (ast.Name "xs")]
                       [ast.Keyword (Some "gK") (ast.Name "gK");
                        ast.Keyword (Some "gNa") (ast.Name "gNa")]
                       None None)]
          []] ∧
  _replace_func update_with_kwargs "self.integral" ["gNa"; "gK"] None =
    Ok [ast.FunctionDef "update"
          (ast.mk_arguments [ast.arg "self"; ast.arg "_t"] [])
          [ast.Expr (ast.Call (ast.Attribute (ast.Name "self") "integral")
                       [ast.Name "_t"]
                       [ast.Keyword None (ast.Name "opts");
                        ast.Keyword (Some "gK") (ast.Name "gK");
                        ast.Keyword (Some "gNa") (ast.Name "gNa")]
                       None None)]
          []].
Proof. by vm_compute. Qed.

(** The guards do fire on a node that carries the old fields. *)
Lemma visit_call_with_old_fields self f args kws e :
  FuncTransformer.visit self (ast.Call f args kws (Some e) None)
    = Raise ValueError ∧
  FuncTransformer.visit self (ast.Call f args kws None (Some e))
    = Raise ValueError.
Proof. split; cbn; by repeat case_decide. Qed.

(** ** Further properties of the call-site rewriter *)

Lemma traverse_result {A} (f : A → result A) (p p' : A → bool) (C : Prop) l :
  Forall (λ x, p x = true →
               ∀ y, f x = Ok y → p' y = true ∧ (C → y = x)) l →
  forallb p l = true →
  ∀ l', traverse f l = Ok l' → forallb p' l' = true ∧ (C → l' = l).
Proof.
  induction 1 as [|x l Hx _ IH]; intros Hp l' H.
  { by injection H as <-. }
  cbn in Hp. apply andb_prop in Hp as [Hpx Hpl].
  rewrite traverse_cons in H. bind_inv H y Hy. bind_inv H ys Hys.
  injection H as <-.
  destruct (Hx Hpx y Hy) as [Hy1 Hy2]. destruct (IH Hpl ys Hys) as [Hl1 Hl2].
  split; [cbn; by rewrite Hy1|].
  intros HC. by rewrite Hy2, Hl2.
Qed.

Section rewriter_results.
Variable self : FuncTransformer.t.
Hypothesis no_remove_self : FuncTransformer.remove_self self = None.

Lemma new_keywords_parsed :
  forallb parsed_keyword (FuncTransformer.new_keywords self) = true.
Proof.
  unfold FuncTransformer.new_keywords.
  induction (FuncTransformer.arg_to_append self); [done|]. cbn. done.
Qed.

(** What a visit of a parsed expression returns is parsed, and is the
    expression itself when there is nothing to append. *)
Lemma visit_parsed_result (e : ast.expr) :
  parsed e = true →
  (∀ e', FuncTransformer.visit self e = Ok e' →
         parsed e' = true ∧
         (FuncTransformer.arg_to_append self = [] → e' = e)) ∧
  (∀ e', FuncTransformer.generic_visit self e = Ok e' →
         parsed e' = true ∧
         (FuncTransformer.arg_to_append self = [] → e' = e)).
Proof.
  set (C := FuncTransformer.arg_to_append self = []).
  revert e.
  apply (expr_nested_ind
    (λ e, parsed e = true →
          (∀ e', FuncTransformer.visit self e = Ok e' →
                 parsed e' = true ∧ (C → e' = e)) ∧
          (∀ e', FuncTransformer.generic_visit self e = Ok e' →
                 parsed e' = true ∧ (C → e' = e)))
    (λ kw, parsed_keyword kw = true →
           ∀ kw', FuncTransformer.visit_keyword self kw = Ok kw' →
                  parsed_keyword kw' = true ∧ (C → kw' = kw))).
  - intros id _. split; intros e' [= <-]; done.
  - intros v _. split; intros e' [= <-]; done.
  - intros v a IH Hp. destruct (IH Hp) as [IHv _].
    split; intros e' H; [|unfold FuncTransformer.generic_visit in H];
      cbn in H; bind_inv H v' Hv; injection H as <-;
      destruct (IHv v' Hv) as [H1 H2]; (split; [done|]);
      intros HC; by rewrite H2.
  - intros v i IHv IHi [Hv Hi]%andb_prop.
    destruct (IHv Hv) as [IHv' _]. destruct (IHi Hi) as [IHi' _].
    split; intros e' H; [|unfold FuncTransformer.generic_visit in H];
      cbn in H; bind_inv H v' Ev; bind_inv H i' Ei; injection H as <-;
      destruct (IHv' v' Ev) as [H1 H2]; destruct (IHi' i' Ei) as [H3 H4];
      (split; [cbn; by rewrite H1|]); intros HC; by rewrite H2, H4.
  - intros l op r IHl IHr [Hl Hr]%andb_prop.
    destruct (IHl Hl) as [IHl' _]. destruct (IHr Hr) as [IHr' _].
    split; intros e' H; [|unfold FuncTransformer.generic_visit in H];
      cbn in H; bind_inv H l' El; bind_inv H r' Er; injection H as <-;
      destruct (IHl' l' El) as [H1 H2]; destruct (IHr' r' Er) as [H3 H4];
      (split; [cbn; by rewrite H1|]); intros HC; by rewrite H2, H4.
  - intros es IH Hp. cbn in Hp.
    assert (∀ es', traverse (FuncTransformer.visit self) es = Ok es' →
                   forallb parsed es' = true ∧ (C → es' = es)) as Hes.
    { apply (traverse_result _ parsed); [|done].
      eapply Forall_impl; [exact IH|]. intros x Hx Hpx. by destruct (Hx Hpx). }
    split; intros e' H; [|unfold FuncTransformer.generic_visit in H];
      cbn in H; bind_inv H es' Ees; injection H as <-;
      destruct (Hes es' Ees) as [H1 H2]; (split; [done|]);
      intros HC; by rewrite H2.
  - intros v IH Hp. destruct (IH Hp) as [IHv _].
    split; intros e' H; [|unfold FuncTransformer.generic_visit in H];
      cbn in H; bind_inv H v' Hv; injection H as <-;
      destruct (IHv v' Hv) as [H1 H2]; (split; [done|]);
      intros HC; by rewrite H2.
  - intros f args kws sa kw IHf IHargs IHkws Hp. cbn in Hp.
    destruct sa; [done|]. destruct kw; [done|].
    pose proof Hp as Hp0.
    apply andb_prop in Hp as [[Hf Hargs]%andb_prop Hkws].
    destruct (IHf Hf) as [IHf' _].
    assert (∀ l, traverse (FuncTransformer.visit self) args = Ok l →
                 forallb parsed l = true ∧ (C → l = args)) as Ha1.
    { apply (traverse_result _ parsed); [|done].
      eapply Forall_impl; [exact IHargs|]. intros x Hx Hpx.
      by destruct (Hx Hpx). }
    assert (∀ l, traverse (FuncTransformer.generic_visit self) args = Ok l →
                 forallb parsed l = true ∧ (C → l = args)) as Ha2.
    { apply (traverse_result _ parsed); [|done].
      eapply Forall_impl; [exact IHargs|]. intros x Hx Hpx.
      by destruct (Hx Hpx). }
    assert (∀ l, traverse (FuncTransformer.visit_keyword self) kws = Ok l →
                 forallb parsed_keyword l = true ∧ (C → l = kws)) as Hk.
    { apply (traverse_result _ parsed_keyword); [|done]. exact IHkws. }
    split; intros e' H.
    + cbn in H. rewrite decide_False in H by (by intros ?).
      rewrite decide_False in H by (by intros ?).
      case_decide as Hcall; [|by injection H as <-].
      fold (FuncTransformer.generic_visit self) in H.
      bind_inv H a2 Ea2. unfold FuncTransformer.pop_self in H.
      rewrite no_remove_self in H. cbn in H.
      bind_inv H k1 Ek1. injection H as <-.
      destruct (Ha2 a2 Ea2) as [H1 H2]. destruct (Hk k1 Ek1) as [H3 H4].
      split.
      * cbn. rewrite Hf, H1. cbn. rewrite forallb_app, H3.
        by rewrite new_keywords_parsed.
      * intros HC. rewrite H2, H4 by done.
        unfold FuncTransformer.new_keywords. rewrite HC. cbn.
        by rewrite app_nil_r.
    + unfold FuncTransformer.generic_visit in H. cbn in H.
      bind_inv H f' Ef. bind_inv H a1 Ea1. bind_inv H k1 Ek1.
      injection H as <-.
      destruct (IHf' f' Ef) as [H1 H2]. destruct (Ha1 a1 Ea1) as [H3 H4].
      destruct (Hk k1 Ek1) as [H5 H6].
      split; [cbn; by rewrite H1, H3|]. intros HC. by rewrite H2, H4, H6.
  - intros k v IH Hp kw' H. cbn in Hp. destruct (IH Hp) as [IHv _].
    cbn in H. bind_inv H v' Hv. injection H as <-.
    destruct (IHv v' Hv) as [H1 H2]. split; [done|].
    intros HC. by rewrite H2.
Qed.

Lemma visit_stmt_parsed_result (s : ast.stmt) :
  parsed_stmt s = true →
  ∀ s', FuncTransformer.visit_stmt self s = Ok s' →
        parsed_stmt s' = true ∧
        (FuncTransformer.arg_to_append self = [] → s' = s).
Proof.
  set (C := FuncTransformer.arg_to_append self = []).
  assert (Hexpr : ∀ e, parsed e = true →
            ∀ e', FuncTransformer.visit self e = Ok e' →
                  parsed e' = true ∧ (C → e' = e)).
  { intros e He. by destruct (visit_parsed_result e He). }
  assert (Hexprs : ∀ es, forallb parsed es = true →
            ∀ es', traverse (FuncTransformer.visit self) es = Ok es' →
                   forallb parsed es' = true ∧ (C → es' = es)).
  { intros es Hp. apply (traverse_result _ parsed); [|done].
    apply Forall_forall. intros e _. apply Hexpr. }
  assert (Hstmts : ∀ l, Forall (λ s, parsed_stmt s = true →
              ∀ s', FuncTransformer.visit_stmt self s = Ok s' →
                    parsed_stmt s' = true ∧ (C → s' = s)) l →
            forallb parsed_stmt l = true →
            ∀ l', traverse (FuncTransformer.visit_stmt self) l = Ok l' →
                  forallb parsed_stmt l' = true ∧ (C → l' = l)).
  { intros l IH Hp. by apply (traverse_result _ parsed_stmt). }
  revert s.
  apply (stmt_nested_ind
    (λ s, parsed_stmt s = true →
          ∀ s', FuncTransformer.visit_stmt self s = Ok s' →
                parsed_stmt s' = true ∧ (C → s' = s))).
  - intros v Hp s' H. cbn in H. bind_inv H v' Ev. injection H as <-.
    destruct (Hexpr v Hp v' Ev) as [H1 H2]. split; [done|].
    intros HC. by rewrite H2.
  - intros ts v [Hts Hv]%andb_prop s' H. cbn in H.
    bind_inv H ts' Ets. bind_inv H v' Ev. injection H as <-.
    destruct (Hexprs ts Hts ts' Ets) as [H1 H2].
    destruct (Hexpr v Hv v' Ev) as [H3 H4].
    split; [cbn; by rewrite H1|]. intros HC. by rewrite H2, H4.
  - intros t op v [Ht Hv]%andb_prop s' H. cbn in H.
    bind_inv H t' Et. bind_inv H v' Ev. injection H as <-.
    destruct (Hexpr t Ht t' Et) as [H1 H2].
    destruct (Hexpr v Hv v' Ev) as [H3 H4].
    split; [cbn; by rewrite H1|]. intros HC. by rewrite H2, H4.
  - intros [v|] Hp s' H; cbn in H; [|by injection H as <-].
    bind_inv H o' Eo. injection H as <-.
    bind_inv Eo v' Ev. injection Eo as <-.
    destruct (Hexpr v Hp v' Ev) as [H1 H2]. split; [done|].
    intros HC. by rewrite H2.
  - intros t it body orelse IHb IHo Hp s' H. cbn in Hp.
    apply andb_prop in Hp as [[[Ht Hit]%andb_prop Hb]%andb_prop Ho].
    cbn in H. bind_inv H t' Et. bind_inv H it' Eit.
    bind_inv H b' Eb. bind_inv H o' Eo. injection H as <-.
    destruct (Hexpr t Ht t' Et) as [H1 H2].
    destruct (Hexpr it Hit it' Eit) as [H3 H4].
    destruct (Hstmts body IHb Hb b' Eb) as [H5 H6].
    destruct (Hstmts orelse IHo Ho o' Eo) as [H7 H8].
    split; [cbn; by rewrite H1, H3, H5|].
    intros HC. by rewrite H2, H4, H6, H8.
  - intros test body orelse IHb IHo Hp s' H. cbn in Hp.
    apply andb_prop in Hp as [[Ht Hb]%andb_prop Ho].
    cbn in H. bind_inv H t' Et.
    bind_inv H b' Eb. bind_inv H o' Eo. injection H as <-.
    destruct (Hexpr test Ht t' Et) as [H1 H2].
    destruct (Hstmts body IHb Hb b' Eb) as [H5 H6].
    destruct (Hstmts orelse IHo Ho o' Eo) as [H7 H8].
    split; [cbn; by rewrite H1, H5|].
    intros HC. by rewrite H2, H6, H8.
  - intros _ s' [= <-]. done.
  - intros n a body ds IHb Hp s' H. cbn in Hp.
    apply andb_prop in Hp as [[Ha Hb]%andb_prop Hd].
    cbn in H. bind_inv H a' Ea. bind_inv H b' Eb. bind_inv H d' Ed.
    injection H as <-.
    destruct (Hexprs _ Ha a' Ea) as [H1 H2].
    destruct (Hstmts body IHb Hb b' Eb) as [H5 H6].
    destruct (Hexprs _ Hd d' Ed) as [H7 H8].
    split; [cbn; by rewrite H1, H5|].
    intros HC. rewrite H2, H6, H8 by done. by destruct a.
Qed.

End rewriter_results.

Lemma replace_func_parsed_result t func_call arg_to_append t' :
  parsed_module t = true →
  _replace_func t func_call arg_to_append None = Ok t' →
  parsed_module t' = true ∧ (sorted arg_to_append = [] → t' = t).
Proof.
  intros Hp. unfold _replace_func, FuncTransformer.visit_module.
  apply (traverse_result _ parsed_stmt); [|done].
  apply Forall_forall. intros s _ Hs s' H.
  exact (visit_stmt_parsed_result
           (FuncTransformer.__init__ func_call arg_to_append None) eq_refl
           s Hs s' H).
Qed.

(** X16: on a module made by the parser, any sequence of rewrites that
    remove no leading argument, one after the other as the analysis
    applies them, runs to the end without raising and returns a module of
    the same kind. *)
Theorem replace_func_chain rewrites : ∀ t,
  parsed_module t = true →
  ∃ t', for_each (λ '(func_call, arg_to_append) tree,
                    _replace_func tree func_call arg_to_append None)
          rewrites t = Ok t' ∧
        parsed_module t' = true.
Proof.
  induction rewrites as [|[f a] rewrites IH]; intros t Hp; [by exists t|].
  destruct (replace_func_parsed_total t f a Hp) as [t1 H1].
  destruct (replace_func_parsed_result t f a t1 Hp H1) as [Hp1 _].
  destruct (IH t1 Hp1) as (t' & H' & Hp').
  exists t'. split; [|done]. rewrite for_each_cons, H1. exact H'.
Qed.

Lemma replace_func_chain_witness :
  ∃ t', for_each (λ '(func_call, arg_to_append) tree,
                    _replace_func tree func_call arg_to_append None)
          [("self.integral", ["gNa"]); ("self.integral", ["gK"])]
          update_with_kwargs = Ok t' ∧
        parsed_module t' = true.
Proof. exact (replace_func_chain _ update_with_kwargs eq_refl). Defined.

(** X17: with nothing to append and no leading argument to remove, the
    rewrite of a parsed module returns the module as it was. *)
Theorem replace_func_nothing_to_append t func_call :
  parsed_module t = true →
  _replace_func t func_call [] None = Ok t.
Proof.
  intros Hp. destruct (replace_func_parsed_total t func_call [] Hp) as [t' H].
  destruct (replace_func_parsed_result t func_call [] t' Hp H) as [_ Heq].
  by rewrite H, Heq.
Qed.

Lemma replace_func_nothing_to_append_witness :
  _replace_func update_with_starargs "self.integral" [] None
  = Ok update_with_starargs.
Proof.
  exact (replace_func_nothing_to_append update_with_starargs "self.integral"
           eq_refl).
Defined.

Lemma generic_visit_kind self a a' :
  FuncTransformer.generic_visit self a = Ok a' →
  (∀ id, a ≠ ast.Name id) → ∀ id, a' ≠ ast.Name id.
Proof.
  unfold FuncTransformer.generic_visit.
  destruct a; cbn; intros H Hn id';
    try (by destruct (Hn _ eq_refl));
    repeat (apply bind_Ok in H as (? & _ & H));
    by injection H as <-.
Qed.

(** X18: asked to remove a leading argument, the visit of a call site of
    the target raises [IndexError] when the call has no positional
    argument, and does not return when the first positional argument is
    anything but a plain name. *)
Theorem visit_call_remove_self self name f kws :
  FuncTransformer.remove_self self = Some name →
  name ≠ EmptyString →
  ast2code f = FuncTransformer.func_name self →
  FuncTransformer.visit self (ast.Call f [] kws None None) = Raise IndexError ∧
  ∀ a rest out,
    (∀ id, a ≠ ast.Name id) →
    FuncTransformer.visit self (ast.Call f (a :: rest) kws None None) ≠ Ok out.
Proof.
  intros Hrm Hname Hf. destruct name as [|c name]; [done|]. split.
  - cbn. rewrite decide_False by (by intros ?).
    rewrite decide_False by (by intros ?). rewrite decide_True by done.
    unfold FuncTransformer.pop_self. by rewrite Hrm.
  - intros a rest out Ha H. cbn in H.
    rewrite decide_False in H by (by intros ?).
    rewrite decide_False in H by (by intros ?).
    rewrite decide_True in H by done.
    fold (FuncTransformer.generic_visit self) in H.
    bind_inv H args' Eargs. bind_inv H args'' Epop.
    try rewrite traverse_cons in Eargs.
    bind_inv Eargs a' Ea. bind_inv Eargs rest' Erest. injection Eargs as <-.
    pose proof (generic_visit_kind _ _ _ Ea Ha) as Ha'.
    unfold FuncTransformer.pop_self in Epop. rewrite Hrm in Epop.
    destruct a'; try done. by destruct (Ha' id).
Qed.

Lemma visit_call_remove_self_witness :
  FuncTransformer.visit (FuncTransformer.__init__ "f" ["g"] (Some "self"))
    (ast.Call (ast.Name "f") [] [] None None) = Raise IndexError.
Proof.
  exact (proj1 (visit_call_remove_self
                  (FuncTransformer.__init__ "f" ["g"] (Some "self")) "self"
                  (ast.Name "f") [] eq_refl ltac:(done) eq_refl)).
Defined.

(** ** The attribute walk *)

Lemma getattr_raises h o k e :
  analyzer.getattr h o k = Raise e → e = AttributeError.
Proof.
  unfold analyzer.getattr. destruct (h !! o) as [ob|]; [|by intros [= <-]].
  destruct (analyzer.attrs ob !! k); [done|by intros [= <-]].
Qed.

Lemma reaches_cons_inv h o k ks t :
  reaches h o (k :: ks) t →
  ∃ o', analyzer.getattr h o k = Ok (analyzer.attr_Base o') ∧ reaches h o' ks t.
Proof. inversion 1; subst. by eexists. Qed.

Lemma reaches_nil_inv h o t : reaches h o [] t → t = o.
Proof. by inversion 1. Qed.

(** C8 (as amended): on every object graph, cyclic or not, the walk along
    a chain makes one attribute lookup per name and keeps no record of the
    owners it passed. It returns the owner reached and the first attribute
    that is not a stateful sub-object, with its position; it raises
    [BrainPyError] exactly when every name of the chain leads to a stateful
    sub-object, and otherwise fails only on a missing attribute. *)
Theorem walk_follows_chain h target i keys :
  (∀ t j d,
     analyzer.walk h target i keys = Ok (t, j, d) ↔
     ∃ pre k post,
       keys = pre ++ k :: post ∧ reaches h target pre t ∧
       analyzer.getattr h t k = Ok d ∧ (∀ o, d ≠ analyzer.attr_Base o) ∧
       j = (i + List.length pre)%nat) ∧
  (analyzer.walk h target i keys = Raise BrainPyError ↔
     ∃ t, reaches h target keys t) ∧
  (∀ e, analyzer.walk h target i keys = Raise e →
        e = BrainPyError ∨ e = AttributeError).
Proof.
  revert target i. induction keys as [|k ks IH]; intros target i.
  { cbn. split; [|split].
    - intros t j d. split; [done|].
      intros (pre & k & post & Hk & _). by destruct pre.
    - split; [|done]. intros _. exists target. constructor.
    - intros e [= <-]. by left. }
  cbn [analyzer.walk].
  destruct (analyzer.getattr h target k) as [a|e0] eqn:Hget; cbn.
  - assert ((∃ o, a = analyzer.attr_Base o) ∨ ¬ ∃ o, a = analyzer.attr_Base o)
      as [[o ->]|Hnb]
      by (destruct a; [left; by eexists|right; by intros [? ?]..]).
    + destruct (IH o (S i)) as (IH1 & IH2 & IH3). split; [|split].
      * intros t j d. rewrite IH1. split.
        -- intros (pre & k' & post & -> & Hr & Hg & Hd & ->).
           exists (k :: pre), k', post.
           split_and!; try done; try (by econstructor); try (cbn; lia).
        -- intros (pre & k' & post & Hk & Hr & Hg & Hd & ->).
           destruct pre as [|k0 pre]; cbn in Hk; injection Hk as <- ->.
           { apply reaches_nil_inv in Hr as ->. rewrite Hget in Hg.
             injection Hg as <-. by destruct (Hd o). }
           apply reaches_cons_inv in Hr as (o' & Hg' & Hr).
           rewrite Hget in Hg'. injection Hg' as <-.
           exists pre, k', post. split_and!; try done. cbn. lia.
      * rewrite IH2. split.
        -- intros [t Hr]. exists t. by econstructor.
        -- intros [t (o' & Hg' & Hr)%reaches_cons_inv].
           rewrite Hget in Hg'. injection Hg' as <-. by exists t.
      * exact IH3.
    + assert (analyzer.walk h target i (k :: ks) = Ok (target, i, a)) as Hw.
      { cbn. rewrite Hget. cbn. destruct a; try done. destruct Hnb. by eexists. }
      cbn in Hw. rewrite Hget in Hw. cbn in Hw. rewrite Hw.
      split; [|split].
      * intros t j d. split.
        -- intros [= <- <- <-]. exists [], k, ks.
           split_and!; try done; try (by constructor); try (cbn; lia).
           intros o ->. apply Hnb. by eexists.
        -- intros (pre & k' & post & Hk & Hr & Hg & Hd & ->).
           destruct pre as [|k0 pre]; cbn in Hk; injection Hk as <- ->.
           { apply reaches_nil_inv in Hr as ->. rewrite Hget in Hg.
             injection Hg as <-. f_equal. f_equal. f_equal. cbn. lia. }
           apply reaches_cons_inv in Hr as (o' & Hg' & Hr).
           rewrite Hget in Hg'. injection Hg' as ->.
           destruct Hnb. by eexists.
      * split; [done|].
        intros [t (o' & Hg' & Hr)%reaches_cons_inv].
        rewrite Hget in Hg'. injection Hg' as ->. destruct Hnb. by eexists.
      * done.
  - apply getattr_raises in Hget as Heq. subst e0. split; [|split].
    + intros t j d. split; [done|].
      intros (pre & k' & post & Hk & Hr & Hg & _).
      destruct pre as [|k0 pre]; cbn in Hk; injection Hk as <- ->.
      * apply reaches_nil_inv in Hr as ->. by rewrite Hget in Hg.
      * apply reaches_cons_inv in Hr as (o' & Hg' & _). by rewrite Hget in Hg'.
    + split; [done|].
      intros [t (o' & Hg' & _)%reaches_cons_inv]. by rewrite Hget in Hg'.
    + intros e [= <-]. by right.
Qed.

(** C8 (counterexample): on the cyclic graph, analysing a method of [A]
    that reads [self.b.a] raises [BrainPyError]: the chain comes back to
    the owner [A] and the walk runs out of names. *)
Lemma analysis_of_chain_back_to_owner_fails :
  analyzer.analyze_func DE_INT CLASS_KEYWORDS cyclic_graph 1000 A_reads_back
    = Raise BrainPyError.
Proof. by vm_compute. Qed.

(** A chain that goes around the cycle and ends on a variable is simply
    followed: the variable of [B] is hoisted. *)
Lemma analysis_of_chain_around_cycle :
  hoisted (analyzer.analyze_func DE_INT CLASS_KEYWORDS cyclic_graph 1000
             A_reads_around)
    = Ok (Some ["B_w"]).
Proof. by vm_compute. Qed.

Lemma walk_follows_chain_witness :
  analyzer.walk cyclic_graph 0%nat 1 ["b"; "a"] = Raise BrainPyError ∧
  analyzer.walk cyclic_graph 0%nat 1 ["b"; "a"; "b"; "w"]
    = Ok (1%nat, 4%nat, analyzer.attr_Variable).
Proof.
  split.
  - apply (proj1 (proj2 (walk_follows_chain cyclic_graph 0%nat 1%nat ["b"; "a"]))).
    exists 0%nat. do 2 (econstructor; [by vm_compute|]). constructor.
  - apply (proj1 (walk_follows_chain cyclic_graph 0%nat 1%nat ["b"; "a"; "b"; "w"])).
    exists ["b"; "a"; "b"], "w", []. split; [done|]. split.
    { do 3 (econstructor; [by vm_compute|]). constructor. }
    split; [by vm_compute|]. split; [done|done].
Defined.

(** *** Methods that call each other *)

(** One level of each of the three functions a method analysis goes
    through. *)
Section unfolding.
Variable de : string.
Variable kw : list string.
Variable h : analyzer.heap.

Lemma analyze_func_S depth f :
  analyzer.analyze_func de kw h (S depth) f =
    if String.prefix de (analyzer.__name__ f)
    then Some <$> analyzer.analyze_intg_func de kw h depth f
    else
      match analyzer.dynamic_owner h f with
      | Some _ => Some <$> analyzer.analyze_cls_func de kw h depth f None None
      | None => Ok (analyzer.plain f)
      end.
Proof. done. Qed.

(** The branch of [analyze_cls_func] for a host that is not a
    container. *)
Lemma analyze_cls_func_S depth f host ob :
  analyzer.__self__ f = Some host →
  h !! host = Some ob →
  analyzer.isinstance_Container (analyzer.cls ob) = false →
  analyzer.analyze_cls_func de kw h (S depth) f None None =
    r ← analyzer._analyze_cls_func de kw h depth host (analyzer.source f) ∅;
    let '(code, _arguments, _arg2call, _nodes, code_scope) := r in
    func ← analyzer.exec_and_get code (analyzer.__name__ f);
    Ok (analyzer.mk_analysis func _arguments _arg2call
          (_nodes ∪ {[ analyzer.name ob := host ]})).
Proof.
  intros Hself Hob Hc. cbn [analyzer.analyze_cls_func].
  rewrite Hself. cbn [mbind result_bind]. rewrite Hob.
  cbn [mbind result_bind]. by rewrite Hc.
Qed.

Lemma _analyze_cls_func_S depth host code code_scope :
  analyzer._analyze_cls_func de kw h (S depth) host code code_scope =
    '(p, tree) ← analyzer.pop_first_arg (analyzer.tree code);
    cls_name ← analyzer.param_arg p;
    if decide (cls_name ∉ kw) then Raise CodeError
    else
      st ← for_each
             (analyzer.analyze_key h (analyzer.analyze_func de kw h depth) host)
             (analyzer.self_data code)
             (analyzer.mk_loop tree ∅ ∅ ∅ ∅ code_scope);
      tree ← analyzer.finalize_signature (analyzer.l_tree st)
               (analyzer.l_arguments st);
      Ok (analyzer.mk_generated tree (analyzer.l_data_to_replace st),
          analyzer.l_arguments st, analyzer.l_arg2call st,
          analyzer.l_nodes st, analyzer.l_code_scope st).
Proof. done. Qed.

(** A chain that names a method which cannot be analysed stops the loop
    with the same error. *)
Lemma analyze_key_callee_raises analyze host key st target i g :
  (2 ≤ List.length (split_dot key))%nat →
  analyzer.walk h host 1 (drop 1 (split_dot key))
    = Ok (target, i, analyzer.attr_callable g) →
  is_Ok (analyzer.name_of h target) = true →
  List.length (split_dot key) = S i →
  analyze g = Raise RecursionError →
  analyzer.analyze_key h analyze host key st = Raise RecursionError.
Proof.
  intros Hsplit Hwalk Hname Hlen Hg. unfold analyzer.analyze_key.
  rewrite decide_False by lia. rewrite Hwalk. cbn [mbind result_bind].
  destruct (analyzer.name_of h target) as [nm|]; [|done].
  cbn [mbind result_bind]. rewrite decide_False by (by intros ?).
  by rewrite Hg.
Qed.

(** A method whose only chain names a method that cannot be analysed
    within [depth] calls cannot be analysed within [depth + 3]. *)
Lemma analysis_needs_callee depth f host ob key target i g :
  String.prefix de (analyzer.__name__ f) = false →
  analyzer.dynamic_owner h f = Some host →
  analyzer.__self__ f = Some host →
  h !! host = Some ob →
  analyzer.isinstance_Container (analyzer.cls ob) = false →
  (∃ p t, analyzer.pop_first_arg (analyzer.tree (analyzer.source f)) = Ok (p, t) ∧
          ∃ c, analyzer.param_arg p = Ok c ∧ c ∈ kw) →
  analyzer.self_data (analyzer.source f) = [key] →
  (2 ≤ List.length (split_dot key))%nat →
  analyzer.walk h host 1 (drop 1 (split_dot key))
    = Ok (target, i, analyzer.attr_callable g) →
  is_Ok (analyzer.name_of h target) = true →
  List.length (split_dot key) = S i →
  analyzer.analyze_func de kw h depth g = Raise RecursionError →
  analyzer.analyze_func de kw h (S (S (S depth))) f = Raise RecursionError.
Proof.
  intros Hpre Hown Hself Hob Hc (p & t & Hpop & c & Hparam & Hkw)
    Hkeys Hsplit Hwalk Hname Hlen Hg.
  rewrite analyze_func_S, Hpre, Hown.
  rewrite (analyze_cls_func_S _ _ host ob) by done.
  rewrite _analyze_cls_func_S, Hpop. cbn [mbind result_bind].
  rewrite Hparam. cbn [mbind result_bind].
  rewrite decide_False by (by intros ?).
  rewrite Hkeys, for_each_cons.
  by rewrite (analyze_key_callee_raises _ _ _ _ target i g).
Qed.

End unfolding.


(** ** Further properties of the analyzer *)

Lemma for_each_inv {A S} (I : S → Prop) (body : A → S → result S) l :
  (∀ x s s', I s → body x s = Ok s' → I s') →
  ∀ s s', I s → for_each body l s = Ok s' → I s'.
Proof.
  intros Hbody. induction l as [|x l IH]; intros s s' Hs H.
  { by injection H as <-. }
  rewrite for_each_cons in H. bind_inv H s1 H1. eauto.
Qed.

Lemma for_each_stuck {A S} (body : A → S → result S) l x :
  x ∈ l → (∀ s s', body x s ≠ Ok s') →
  ∀ s s', for_each body l s ≠ Ok s'.
Proof.
  intros Hx Hbody. induction l as [|y l IH]; intros s s' H.
  { by apply not_elem_of_nil in Hx. }
  rewrite for_each_cons in H. bind_inv H s1 H1.
  apply elem_of_cons in Hx as [->|Hx]; [by eapply Hbody|by eapply IH].
Qed.

Section analysis_facts.
Variable de : string.
Variable kw : list string.
Variable h : analyzer.heap.

Lemma analyze_cls_func_eq depth f code host :
  analyzer.analyze_cls_func de kw h (S depth) f code host =
    host ← match host with
           | Some o => Ok o
           | None => match analyzer.__self__ f with
                     | Some o => Ok o
                     | None => Raise AttributeError
                     end
           end;
    ob ← match h !! host with Some ob => Ok ob | None => Raise AttributeError end;
    let nodes0 : gmap string analyzer.obj_id := {[ analyzer.name ob := host ]} in
    if analyzer.isinstance_Container (analyzer.cls ob) then
      if decide (analyzer.__name__ f ≠ "update") then Raise UnsupportedError
      else
        acc ← for_each
                (analyzer.container_step (analyzer.analyze_func de kw h depth))
                (analyzer.child_steps ob) (∅, ∅, nodes0, ∅, []);
        let '(args, a2c, nds, code_scope, code_lines) := acc in
        let func_name := analyzer.name ob +:+ "_update" in
        let def :=
          ast.FunctionDef func_name
            (ast.mk_arguments
               ([ast.arg "_t"; ast.arg "_dt"]
                ++ map ast.arg (sorted (elements args))) [])
            code_lines [] in
        func ← analyzer.exec_and_get (analyzer.mk_generated [def] ∅) func_name;
        Ok (analyzer.mk_analysis func args a2c nds)
    else
      let code := default (analyzer.source f) code in
      let func_name := analyzer.__name__ f in
      r ← analyzer._analyze_cls_func de kw h depth host code ∅;
      let '(code, _arguments, _arg2call, _nodes, code_scope) := r in
      func ← analyzer.exec_and_get code func_name;
      Ok (analyzer.mk_analysis func _arguments _arg2call (_nodes ∪ nodes0)).
Proof. reflexivity. Qed.

Lemma analyze_intg_func_eq depth f :
  analyzer.analyze_intg_func de kw h (S depth) f =
    match analyzer.brainpy_data f with
    | None => Raise AttributeError
    | Some (analyzer.IntgData method code_lines func_name raw_func) =>
      if String.prefix "exponential" method
      then analyzer.analyze_cls_func de kw h depth f (Some code_lines) None
      else
        let f_node := analyzer.dynamic_owner h f in
        start ←
          match f_node with
          | Some _ =>
            '(p, tree) ← analyzer.pop_first_arg (analyzer.tree code_lines);
            a ← analyzer.param_arg p;
            Ok (tree, Some a)
          | None => Ok (analyzer.tree code_lines, None)
          end;
        let '(tree, remove_self) := start in
        acc ← for_each
                (analyzer.raw_func_step h
                   (λ g host, analyzer.analyze_cls_func de kw h depth g None host)
                   f_node remove_self)
                raw_func
                (tree, (∅ : gset string), (∅ : gmap string string),
                 (∅ : gmap string analyzer.obj_id), false);
        let '(tree, args, a2c, nds, need_recompile) := acc in
        if (need_recompile : bool) then
          tree ← analyzer.finalize_signature tree args;
          new_f ← analyzer.exec_and_get (analyzer.mk_generated tree ∅) func_name;
          Ok (analyzer.mk_analysis new_f args a2c nds)
        else Ok (analyzer.mk_analysis (analyzer.unchanged f) args a2c nds)
    end.
Proof. reflexivity. Qed.

Lemma analyze_key_has_calls analyze host key st st' :
  (∀ f r, analyze f = Ok (Some r) → has_calls r) →
  analyzer.l_arguments st ⊆ dom (analyzer.l_arg2call st) →
  analyzer.analyze_key h analyze host key st = Ok st' →
  analyzer.l_arguments st' ⊆ dom (analyzer.l_arg2call st').
Proof.
  intros Han Hst. unfold analyzer.analyze_key.
  case_decide as Hl; [done|]. intros H.
  bind_inv H x Hx. destruct x as [[target i] data].
  bind_inv H nm Hnm. destruct data.
  - injection H as <-. cbn. done.
  - injection H as <-. cbn. rewrite dom_insert_L. set_solver.
  - injection H as <-. cbn. done.
  - case_decide as Hi; [done|]. bind_inv H r Hr. destruct r as [r|].
    + bind_inv H t Ht. injection H as <-. cbn. rewrite dom_union_L.
      specialize (Han _ _ Hr). unfold has_calls in Han. set_solver.
    + by injection H as <-.
  - injection H as <-. cbn. done.
Qed.

Lemma container_step_has_calls analyze item acc acc' :
  (∀ f r, analyze f = Ok (Some r) → has_calls r) →
  acc.1.1.1.1 ⊆ dom acc.1.1.1.2 →
  analyzer.container_step analyze item acc = Ok acc' →
  acc'.1.1.1.1 ⊆ dom acc'.1.1.1.2.
Proof.
  intros Han. destruct item as [key step].
  destruct acc as [[[[args a2c] nds] cs] lines]. cbn [fst snd].
  intros Hacc H. unfold analyzer.container_step in H.
  bind_inv H r Hr. destruct r as [r|]; [|by injection H as <-].
  injection H as <-. cbn [fst snd]. rewrite dom_union_L.
  specialize (Han _ _ Hr). unfold has_calls in Han. set_solver.
Qed.

Lemma raw_func_step_has_calls analyze_cls f_node remove_self item acc acc' :
  (∀ f host r, analyze_cls f host = Ok r → has_calls r) →
  acc.1.1.1.2 ⊆ dom acc.1.1.2 →
  analyzer.raw_func_step h analyze_cls f_node remove_self item acc = Ok acc' →
  acc'.1.1.1.2 ⊆ dom acc'.1.1.2.
Proof.
  intros Han. destruct item as [key func].
  destruct acc as [[[[t args] a2c] nds] b]. cbn [fst snd].
  intros Hacc H. unfold analyzer.raw_func_step in H.
  destruct (analyzer.is_Dispatcher func); [by injection H as <-|].
  destruct (match f_node with Some o => Some o | None => _ end) as [node|];
    [|by injection H as <-].
  bind_inv H r Hr. bind_inv H t' Ht. bind_inv H nm Hnm.
  injection H as <-. cbn [fst snd]. rewrite dom_union_L.
  specialize (Han _ _ _ Hr). unfold has_calls in Han. set_solver.
Qed.

Lemma analysis_has_calls depth :
  (∀ f r, analyzer.analyze_func de kw h depth f = Ok (Some r) → has_calls r) ∧
  (∀ f code host r,
     analyzer.analyze_cls_func de kw h depth f code host = Ok r → has_calls r) ∧
  (∀ host code scope out,
     analyzer._analyze_cls_func de kw h depth host code scope = Ok out →
     out.1.1.1.2 ⊆ dom out.1.1.2) ∧
  (∀ f r, analyzer.analyze_intg_func de kw h depth f = Ok r → has_calls r).
Proof.
  induction depth as [|depth (IHf & IHc & IH_ & IHi)]; [by split_and!|].
  split_and!.
  - intros f r H. rewrite analyze_func_S in H.
    destruct (String.prefix de (analyzer.__name__ f)).
    { apply fmap_Ok in H as (a & Ha & [= <-]). by eapply IHi. }
    destruct (analyzer.dynamic_owner h f).
    { apply fmap_Ok in H as (a & Ha & [= <-]). by eapply IHc. }
    unfold analyzer.plain in H. injection H as H.
    destruct (_ && _); [|done]. injection H as <-. unfold has_calls. cbn.
    set_solver.
  - intros f code host r H. rewrite analyze_cls_func_eq in H.
    bind_inv H host' Hhost. bind_inv H ob Hob. cbv zeta in H.
    destruct (analyzer.isinstance_Container (analyzer.cls ob)).
    + case_decide as Hn; [done|]. bind_inv H acc Hacc.
      assert (acc.1.1.1.1 ⊆ dom acc.1.1.1.2) as Hinv.
      { revert Hacc.
        apply (for_each_inv (λ acc, acc.1.1.1.1 ⊆ dom acc.1.1.1.2)).
        - intros x s s'. by apply container_step_has_calls.
        - cbn. set_solver. }
      destruct acc as [[[[args a2c] nds] cs] lines].
      bind_inv H func Hfunc. injection H as <-. exact Hinv.
    + bind_inv H out Hout. specialize (IH_ _ _ _ _ Hout).
      destruct out as [[[[code' args] a2c] nds] cs].
      bind_inv H func Hfunc. injection H as <-. exact IH_.
  - intros host code scope out H. rewrite _analyze_cls_func_S in H.
    bind_inv H pt Hpop. destruct pt as [p t]. bind_inv H c Hc.
    case_decide as Hkw; [done|]. bind_inv H st Hst. bind_inv H t' Ht'.
    injection H as <-. cbn [fst snd].
    revert Hst.
    apply (for_each_inv
             (λ st, analyzer.l_arguments st ⊆ dom (analyzer.l_arg2call st))).
    + intros x s s'. by apply analyze_key_has_calls.
    + cbn. set_solver.
  - intros f r H. rewrite analyze_intg_func_eq in H.
    destruct (analyzer.brainpy_data f) as [[method code_lines func_name raw]|];
      [|done].
    destruct (String.prefix "exponential" method); [by eapply IHc|].
    cbv zeta in H. bind_inv H start Hstart. destruct start as [t rs].
    bind_inv H acc Hacc.
    assert (acc.1.1.1.2 ⊆ dom acc.1.1.2) as Hinv.
    { revert Hacc. apply (for_each_inv (λ acc, acc.1.1.1.2 ⊆ dom acc.1.1.2)).
      - intros x s s'. apply raw_func_step_has_calls.
        intros g host' r'. apply IHc.
      - cbn. set_solver. }
    destruct acc as [[[[t' args] a2c] nds] b]. cbn [fst snd] in Hinv.
    destruct b.
    + bind_inv H t'' Ht''. bind_inv H new_f Hnew. by injection H as <-.
    + by injection H as <-.
Qed.

(** X19: whatever the two entry points of the analysis return, every
    hoisted argument has an entry in [arg2call], so building the call
    [a=arg2call[a]] for each of them finds every key. *)
Theorem hoisted_arguments_have_calls depth f :
  (∀ r, analyzer.analyze_func de kw h depth f = Ok (Some r) →
        ∀ a, a ∈ analyzer.arguments r → is_Some (analyzer.arg2call r !! a)) ∧
  (∀ r, analyzer.analyze_intg_func de kw h depth f = Ok r →
        ∀ a, a ∈ analyzer.arguments r → is_Some (analyzer.arg2call r !! a)).
Proof.
  destruct (analysis_has_calls depth) as (Hf & _ & _ & Hi).
  split; intros r H a Ha; apply elem_of_dom.
  - by apply (Hf f r H).
  - by apply (Hi f r H).
Qed.

(** A method is not analysed while a function it calls is not. *)
Lemma analysis_waits_for_callee depth f g :
  calls de h f g →
  (∀ r, analyzer.analyze_func de kw h depth g ≠ Ok r) →
  ∀ r, analyzer.analyze_func de kw h (S (S (S depth))) f ≠ Ok r.
Proof.
  intros (Hpre & host & ob & key & target & i
          & Hown & Hself & Hob & Hc & Hkey & Hwalk & Hlen) Hg r H.
  rewrite analyze_func_S, Hpre, Hown in H.
  apply fmap_Ok in H as (a & H & _).
  rewrite (analyze_cls_func_S _ _ _ _ _ host ob) in H by done.
  bind_inv H out Hout. rewrite _analyze_cls_func_S in Hout.
  bind_inv Hout pt Hpop. destruct pt as [p t]. bind_inv Hout c Hcls.
  case_decide as Hkw; [done|]. bind_inv Hout st Hst.
  revert Hst. apply for_each_stuck with (x := key); [done|].
  intros s s' Hs. unfold analyzer.analyze_key in Hs.
  case_decide as Hl; [done|]. rewrite Hwalk in Hs. cbn [mbind result_bind] in Hs.
  bind_inv Hs nm Hnm. rewrite decide_False in Hs by (by intros ?).
  bind_inv Hs rg Hrg. by eapply Hg.
Qed.

Lemma analysis_shallow depth f g :
  calls de h f g → (depth < 3)%nat →
  ∀ r, analyzer.analyze_func de kw h depth f ≠ Ok r.
Proof.
  intros (Hpre & host & ob & key & target & i
          & Hown & Hself & Hob & Hc & Hkey & Hwalk & Hlen) Hd r H.
  destruct depth as [|[|[|depth]]]; [done| | |lia].
  - by rewrite analyze_func_S, Hpre, Hown in H.
  - rewrite analyze_func_S, Hpre, Hown in H.
    by rewrite (analyze_cls_func_S _ _ _ _ _ host ob) in H by done.
Qed.

(** X20: the analysis keeps no record of the functions it is working
    on. In a set of methods each of which calls another one of the set
    through its chains, none is analysed, however deep the interpreter
    lets the recursion go. *)
Theorem calls_in_a_circle_never_analysed (P : analyzer.function → Prop) :
  (∀ f, P f → ∃ g, P g ∧ calls de h f g) →
  ∀ depth f, P f → ∀ r, analyzer.analyze_func de kw h depth f ≠ Ok r.
Proof.
  intros Hcycle depth.
  induction depth as [depth IH] using lt_wf_ind. intros f Hf.
  destruct (Hcycle f Hf) as (g & Hg & Hfg).
  destruct (decide (depth < 3)%nat) as [Hd|Hd].
  { by eapply analysis_shallow. }
  destruct depth as [|[|[|depth]]]; [lia..|].
  eapply analysis_waits_for_callee; [done|].
  apply IH; [lia|done].
Qed.

End analysis_facts.

Lemma hoisted_arguments_have_calls_witness :
  match analyzer.analyze_func DE_INT CLASS_KEYWORDS three_variables 3 N_update
  with
  | Ok (Some r) => is_Some (analyzer.arg2call r !! "N_V")
  | _ => False
  end.
Proof.
  destruct (analyzer.analyze_func DE_INT CLASS_KEYWORDS three_variables 3
              N_update) as [[r|]|e] eqn:E;
    [|by vm_compute in E|by vm_compute in E].
  apply (proj1 (hoisted_arguments_have_calls DE_INT CLASS_KEYWORDS
                  three_variables 3 N_update) r E).
  revert E. vm_compute. intros [= <-]. vm_compute.
  apply (bool_decide_unpack _). vm_compute. reflexivity.
Defined.

Lemma calls_in_a_circle_never_analysed_witness :
  ¬ ∃ r, analyzer.analyze_func DE_INT CLASS_KEYWORDS cyclic_graph 40 A_update
         = Ok r.
Proof.
  intros [r Hr]. revert r Hr.
  apply (calls_in_a_circle_never_analysed DE_INT CLASS_KEYWORDS cyclic_graph
           (λ f, f = A_update ∨ f = B_step)); [|by left].
  intros f [-> | ->].
  - exists B_step. split; [by right|]. split; [by vm_compute|].
    exists 0%nat,
      (analyzer.mk_object "A" analyzer.DynamicSystem
         {[ "b" := analyzer.attr_Base 1%nat;
            "update" := analyzer.attr_callable A_update ]} []),
      "self.b.step", 1%nat, 2%nat.
    split_and!; try (by vm_compute). apply list_elem_of_here.
  - exists A_update. split; [by left|]. split; [by vm_compute|].
    exists 1%nat,
      (analyzer.mk_object "B" analyzer.DynamicSystem
         {[ "a" := analyzer.attr_Base 0%nat;
            "w" := analyzer.attr_Variable;
            "step" := analyzer.attr_callable B_step ]} []),
      "self.a.update", 0%nat, 2%nat.
    split_and!; try (by vm_compute). apply list_elem_of_here.
Defined.

Lemma split_dot_nonempty s : split_dot s ≠ [].
Proof.
  destruct s as [|c s]; [done|]. cbn.
  destruct (Ascii.eqb c "."); [done|]. by destruct (split_dot s).
Qed.

Lemma join_split key : join_dot (split_dot key) = key.
Proof.
  unfold join_dot. induction key as [|c key IH]; [done|].
  cbn [split_dot]. destruct (Ascii.eqb c ".") eqn:Hc.
  - apply Ascii.eqb_eq in Hc as ->.
    pose proof (split_dot_nonempty key) as Hne.
    destruct (split_dot key) as [|w ws]; [done|].
    change (String.concat "." (EmptyString :: w :: ws))
      with (EmptyString +:+ "." +:+ String.concat "." (w :: ws)).
    by rewrite IH.
  - destruct (split_dot key) as [|w ws] eqn:Hs.
    { by destruct (split_dot_nonempty key). }
    rewrite <- IH. by destruct ws.
Qed.

(** X24: a chain split at its dots and joined with dots again is the
    chain: when the walk uses every part, the call the rewriter looks for
    is the chain as it stands in the source. *)
Theorem join_split_round_trip key :
  join_dot (split_dot key) = key ∧
  ∀ i, List.length (split_dot key) = S i →
       join_dot (take (S i) (split_dot key)) = key.
Proof.
  split; [apply join_split|]. intros i Hi. rewrite take_ge by lia.
  apply join_split.
Qed.

Lemma join_split_round_trip_witness :
  join_dot (take 3 (split_dot "self.b.step")) = "self.b.step".
Proof.
  exact (proj2 (join_split_round_trip "self.b.step") 2%nat eq_refl).
Defined.

(** ** Hoisted parameters: sorted, and independent of enumeration order *)





Section arguments_of_loop.
Variable h : analyzer.heap.
Variable analyze : analyzer.function → result (option analyzer.analysis).
Variable host : analyzer.obj_id.



End arguments_of_loop.

Lemma union_list_permutation (Xs Ys : list (gset string)) :
  Xs ≡ₚ Ys → ⋃ Xs = ⋃ Ys.
Proof.
  intros Hp. apply set_eq. intros x. rewrite !elem_of_union_list.
  split; intros (X & HX & Hx); exists X; split; try done.
  - by rewrite <- Hp.
  - by rewrite Hp.
Qed.




(** ** Laying out items in lines *)

Lemma append_cons a s t : String a s +:+ t = String a (s +:+ t).
Proof. reflexivity. Qed.

Lemma append_nil_r s : s +:+ EmptyString = s.
Proof. induction s as [|a s IH]; [done|]. by rewrite append_cons, IH. Qed.

Lemma append_assoc s t u : (s +:+ t) +:+ u = s +:+ (t +:+ u).
Proof. induction s as [|a s IH]; [done|]. by rewrite !append_cons, IH. Qed.

Lemma add_items_acc sep items : ∀ res,
  add_items sep res items = res +:+ add_items sep EmptyString items.
Proof.
  unfold add_items.
  induction items as [|x items IH]; intros res; simpl.
  { by rewrite append_nil_r. }
  rewrite IH. rewrite (IH (EmptyString +:+ _)).
  change (EmptyString +:+ (x +:+ sep)) with (x +:+ sep).
  by rewrite !append_assoc.
Qed.

Lemma add_items_app sep l1 l2 :
  add_items sep EmptyString (l1 ++ l2)
  = add_items sep EmptyString l1 +:+ add_items sep EmptyString l2.
Proof.
  unfold add_items at 1. rewrite foldl_app.
  fold (add_items sep EmptyString l1).
  fold (add_items sep (add_items sep EmptyString l1) l2).
  apply add_items_acc.
Qed.

Lemma add_items_concat sep items :
  add_items sep EmptyString items
  = String.concat EmptyString (map (λ item, item +:+ sep) items).
Proof.
  induction items as [|x items IH]; [done|].
  change (x :: items) with ([x] ++ items).
  rewrite add_items_app, IH. cbn [app map].
  destruct items as [|y items]; [by rewrite append_nil_r|done].
Qed.

(** The loop over the lines, when the line break is empty. *)
Lemma lines_flat sep items k count : ∀ start res,
  foldl (λ res i,
           add_items sep (res +:+ EmptyString) (take k (drop i items)))
    res (range_from count start k)
  = res +:+ add_items sep EmptyString (take (count * k) (drop start items)).
Proof.
  induction count as [|count IH]; intros start res; simpl.
  { by rewrite append_nil_r. }
  rewrite IH. rewrite append_nil_r, add_items_acc, append_assoc. f_equal.
  rewrite <- add_items_app. f_equal.
  rewrite <- (drop_drop items k start).
  change (S count * k)%nat with (k + count * k)%nat.
  apply take_take_drop.
Qed.

Lemma lines_cover len k :
  (0 < k)%nat → (len ≤ k + ((len - k + k - 1) / k) * k)%nat.
Proof.
  intros Hk.
  pose proof (Nat.div_mod_eq (len - k + k - 1) k) as Hdiv.
  pose proof (Nat.mod_upper_bound (len - k + k - 1) k ltac:(lia)) as Hmod.
  nia.
Qed.

(** X23: with a positive number of items per line, [_items2lines] puts
    every item, followed by the separator, into the result once and in
    order: with an empty line break, or with no more items than fit one
    line, the result is the plain concatenation. A line size of zero
    raises [ValueError], also for no items at all. *)
Theorem items2lines_keeps_every_item items n sep lb :
  0 < n →
  lb = EmptyString ∨ (List.length items ≤ Z.to_nat n)%nat →
  _items2lines items n sep lb
    = Ok (String.concat EmptyString (map (λ item, item +:+ sep) items)) ∧
  _items2lines items 0 sep lb = Raise ValueError.
Proof.
  intros Hn Hcase. split; [|done].
  unfold _items2lines.
  rewrite (decide_True (P := 0 ≤ n)) by lia.
  rewrite (decide_False (P := n = 0)) by lia.
  rewrite (decide_False (P := n < 0)) by lia. f_equal.
  rewrite <- add_items_concat.
  assert (0 < Z.to_nat n)%nat as Hk by lia.
  set (k := Z.to_nat n) in *.
  destruct (decide (List.length items ≤ k)%nat) as [Hle|Hgt].
  - unfold py_range.
    replace (List.length items - k + k - 1)%nat with (k - 1)%nat by lia.
    rewrite Nat.div_small by lia. cbn [range_from foldl].
    by rewrite take_ge.
  - destruct Hcase as [->|Hle]; [|done].
    unfold py_range. rewrite lines_flat, <- add_items_app. f_equal.
    rewrite take_take_drop. apply take_ge. by apply lines_cover.
Qed.

Lemma items2lines_keeps_every_item_witness :
  _items2lines ["a=A.a"; "b=A.b"; "c=A.c"] 2 ", " EmptyString
  = Ok "a=A.a, b=A.b, c=A.c, ".
Proof.
  exact (proj1 (items2lines_keeps_every_item ["a=A.a"; "b=A.b"; "c=A.c"] 2
                  ", " EmptyString ltac:(lia) (or_introl eq_refl))).
Defined.

(** ** Rewrites for different callees commute *)




Section commute.
Variables T1 T2 : FuncTransformer.t.
Hypothesis no_remove_self_1 : FuncTransformer.remove_self T1 = None.
Hypothesis no_remove_self_2 : FuncTransformer.remove_self T2 = None.
Hypothesis other_callee :
  FuncTransformer.func_name T1 ≠ FuncTransformer.func_name T2.




End commute.


(** ** Chains and the names made from them *)






Section walks.
Variable h : analyzer.heap.



End walks.

(** ** The loop over the chains does not depend on their order *)

Section loop_order.
Variable h : analyzer.heap.
Variable analyze : analyzer.function → result (option analyzer.analysis).
Variable host : analyzer.obj_id.











End loop_order.

(** ** Call sites after the rewrites *)




Section sites.
Variable self : FuncTransformer.t.
Hypothesis no_remove_self : FuncTransformer.remove_self self = None.




End sites.


(** Neither dropping the first parameter nor completing the signature
    adds a call site. *)
Lemma pop_first_arg_calls t p t' :
  analyzer.pop_first_arg t = Ok (p, t') → call_sites t' = call_sites t.
Proof.
  unfold analyzer.pop_first_arg, analyzer.body0.
  destruct t as [|s rest]; [done|].
  destruct s as [| | | | | | |n a b d]; try done.
  unfold mbind, result_bind.
  destruct (ast.args a) as [|q ps] eqn:E; [done|].
  by intros [= <- <-].
Qed.


Section extended_sites.
Variable h : analyzer.heap.
Variable analyze : analyzer.function → result (option analyzer.analysis).
Variable host : analyzer.obj_id.




End extended_sites.

(** ** What a chain of the list leaves in the final state *)

Section contributions.
Variable h : analyzer.heap.
Variable analyze : analyzer.function → result (option analyzer.analysis).
Variable host : analyzer.obj_id.






End contributions.

(** ** C9: the analysis does not depend on the order of the chains *)



(** The generated function of the witness, evaluated for both orders of
    the chains: the call of [self.sub.step] receives the names hoisted
    from the callee, and the signature receives all hoisted names. *)
Lemma caller_generated_source :
  let run chains :=
    (λ r, (analyzer.gen_tree r.1.1.1.1, elements r.1.1.1.2)) <$>
    analyzer._analyze_cls_func DE_INT CLASS_KEYWORDS caller_graph 5 0%nat
      (calls_sub chains) ∅ in
  let generated :=
    [ast.FunctionDef "update"
       (ast.mk_arguments
          [ast.arg "_t"; ast.arg_Name "M_u"; ast.arg_Name "M_w";
           ast.arg_Name "N_V"]
          [ast.Constant "None"; ast.Constant "None"; ast.Constant "None"])
       [ast.Expr
          (ast.Call (self_attr2 "sub" "step") []
             [ast.Keyword (Some "M_u") (ast.Name "M_u");
              ast.Keyword (Some "M_w") (ast.Name "M_w")] None None);
        ast.Expr (ast.Attribute (ast.Name "self") "V")] []] in
  run ["self.sub.step"; "self.V"] = Ok (generated, ["M_w"; "M_u"; "N_V"]) ∧
  run ["self.V"; "self.sub.step"] = Ok (generated, ["M_w"; "M_u"; "N_V"]).
Proof. by vm_compute. Qed.

(** The signature generated for the system with three variables. *)
Lemma three_variables_signature :
  (λ r, params (analyzer.gen_tree r.1.1.1.1)) <$>
    analyzer._analyze_cls_func DE_INT CLASS_KEYWORDS three_variables 2 0%nat
      (reads ["self.h"; "self.V"; "self.m"]) ∅
  = Ok [ast.arg "_t"; ast.arg_Name "N_V"; ast.arg_Name "N_h";
        ast.arg_Name "N_m"].
Proof. by vm_compute. Qed.

(** A call of the chain inside the arguments of another call is not an
    outermost call: [visit_Call] returns a call of another name as it is,
    without visiting its arguments. *)
Lemma call_inside_call_is_kept :
  let inner := ast.Call (self_attr2 "sub" "step") [] [] None None in
  let outer := ast.Call (ast.Name "f") [inner] [] None None in
  _replace_func [ast.Expr outer] "self.sub.step" ["M_u"; "M_w"] None
    = Ok [ast.Expr outer] ∧
  call_sites [ast.Expr outer] = [outer].
Proof. by vm_compute. Qed.
